(** * Dependency-graph construction of xray/commands/audit/sca/java/javautils.go

    A shallow embedding of the two tree populators (the requested-by model of
    [addModuleTree] and the plugin-tree model of [getGraphFromDepTree]), of
    the parent-child multimap and of the output-file parser, followed by the
    properties the specification states about them.

    Conventions of the embedding:
    - a Go [string] is a [string] of bytes, a slice is a [list], a Go [map]
      with string keys is a [gmap string _], [datastructures.Set[string]] is
      a [gset string];
    - a function that mutates an object it received through a pointer takes
      the object and returns the updated one;
    - a run ends in [Returns v], in [Panics site] (a Go run-time panic) or in
      [OutOfFuel]; the last one only says that the recursion budget given to
      the model was too small, and the termination theorems show which
      budget is always enough. *)

From Stdlib Require Import Ascii String.
From stdpp Require Import base strings gmap list sets.

Open Scope string_scope.
Open Scope list_scope.
Open Scope nat_scope.

Set Warnings "-register-all,-clear-no-such-hyp".

(** ** Outcomes of a run *)

(** The places of the file where the Go run time can panic. *)
Inductive PanicSite : Type :=
| IndexOutOfRange_isDirectDependency  (* javautils.go:106, directParent[0] *)
| IndexOutOfRange_addModuleTree       (* javautils.go:90, parent[0] *)
| NilDereference_getGraphFromDepTree. (* javautils.go:200, moduleTree.Root *)

Inductive outcome (A : Type) : Type :=
| Returns (a : A)
| Panics (site : PanicSite)
| OutOfFuel.
Arguments Returns {A} a.
Arguments Panics {A} site.
Arguments OutOfFuel {A}.

#[global] Instance outcome_bind : MBind outcome := λ A B k m,
  match m with
  | Returns a => k a
  | Panics site => Panics site
  | OutOfFuel => OutOfFuel
  end.

#[global] Instance outcome_ret : MRet outcome := λ A a, Returns a.

(** A Go [for _, x := range xs { acc = body(acc, x) }] over a slice, where the
    body can panic or recurse. *)
Fixpoint forRange {A B : Type} (body : B → A → outcome B) (acc : B)
    (xs : list A) : outcome B :=
  match xs with
  | [] => Returns acc
  | x :: rest => acc' ← body acc x; forRange body acc' rest
  end.

(** [s[0]] on a slice. *)
Definition index0 {A : Type} (site : PanicSite) (s : list A) : outcome A :=
  match s with
  | [] => Panics site
  | x :: _ => Returns x
  end.

(** ** Data model *)

Definition GavPackageTypeIdentifier : string := "gav://".

(** buildinfo.Dependency, the two fields the file reads. *)
Record Dependency : Type := mkDependency {
  Dependency_Id : string;
  Dependency_RequestedBy : list (list string)
}.

(** buildinfo.Module. *)
Record Module_ : Type := mkModule {
  Module_Id : string;
  Module_Dependencies : list Dependency
}.

(** buildinfo.BuildInfo, the field the file reads. *)
Record BuildInfo : Type := mkBuildInfo {
  BuildInfo_Modules : list Module_
}.

(** The chain a [Parent] pointer leads to. Through [Parent] the code reads
    only [Id] and [Parent] again, and neither field changes once a node is
    built, so the reference carries these two. *)
Inductive ParentRef : Type :=
| ParentNode (parentId : string) (parentParent : option ParentRef).

(** xrayUtils.GraphNode: [Id], [Nodes] (the children) and [Parent]. *)
Inductive GraphNode : Type :=
| mkGraphNode (Id : string) (Nodes : list GraphNode) (Parent : option ParentRef).

Definition GraphNode_Id (n : GraphNode) : string :=
  match n with mkGraphNode i _ _ => i end.
Definition GraphNode_Nodes (n : GraphNode) : list GraphNode :=
  match n with mkGraphNode _ ns _ => ns end.
Definition GraphNode_Parent (n : GraphNode) : option ParentRef :=
  match n with mkGraphNode _ _ p => p end.

(** What a pointer to [n] stored in some child's [Parent] field shows. *)
Definition refTo (n : GraphNode) : ParentRef := ParentNode (GraphNode_Id n) (GraphNode_Parent n).

(** [n.Nodes = append(n.Nodes, child)]. *)
Definition appendNode (n child : GraphNode) : GraphNode :=
  mkGraphNode (GraphNode_Id n) (GraphNode_Nodes n ++ [child]) (GraphNode_Parent n).

(** All ids of a tree, the root's included. *)
Fixpoint graphIds (n : GraphNode) : gset string :=
  match n with
  | mkGraphNode i ns _ =>
      {[ i ]} ∪ (fix ids (l : list GraphNode) : gset string :=
                   match l with
                   | [] => ∅
                   | c :: l' => graphIds c ∪ ids l'
                   end) ns
  end.

Definition forestIds (l : list GraphNode) : gset string :=
  ⋃ (graphIds <$> l).

(** ** Parent-child multimap (javautils.go:159-178) *)

Abbreviation dependencyMultimap := (gmap string (gmap string Dependency)).

Definition newDependencyMultimap : dependencyMultimap := ∅.

(** [dm.multimap[parent]], the nil map of an unknown parent read as empty. *)
Definition getChildren (dm : dependencyMultimap) (parent : string)
    : gmap string Dependency :=
  default ∅ (dm !! parent).

Definition putChild (dm : dependencyMultimap) (parent : string)
    (child : Dependency) : dependencyMultimap :=
  <[ parent := <[ Dependency_Id child := child ]> (getChildren dm parent) ]> dm.

(** ** Requested-by model (javautils.go:73-137) *)

(** The loop of [isDirectDependency] (javautils.go:105-109). *)
Fixpoint isDirectDependency_range (moduleId : string)
    (requestedBy : list (list string)) : outcome bool :=
  match requestedBy with
  | [] => Returns false
  | directParent :: rest =>
      p0 ← index0 IndexOutOfRange_isDirectDependency directParent;
      if bool_decide (p0 = moduleId) then Returns true
      else isDirectDependency_range moduleId rest
  end.

Definition isDirectDependency (moduleId : string)
    (requestedBy : list (list string)) : outcome bool :=
  if bool_decide (length requestedBy = 0)
     || bool_decide (length (nth 0 requestedBy []) = 0)
  then Returns true
  else isDirectDependency_range moduleId requestedBy.

Fixpoint hasLoop (idsAdded : list string) (idToAdd : string) : bool :=
  match idsAdded with
  | [] => false
  | id :: rest => if bool_decide (id = idToAdd) then true else hasLoop rest idToAdd
  end.

(** The first loop of [addModuleTree] (javautils.go:80-92): every dependency
    goes either into [directDependencies], keyed by its id, or into the
    multimap, once under the head of each of its requested-by chains.
    [recordRequesters] is the inner loop of lines 88-91, [classifyDependency]
    the body of the outer loop. *)
Definition recordRequesters (parentToChildren : dependencyMultimap)
    (dependency : Dependency) (requestedBy : list (list string))
    : outcome dependencyMultimap :=
  forRange
    (λ dm parent,
       p0 ← index0 IndexOutOfRange_addModuleTree parent;
       Returns (putChild dm (GavPackageTypeIdentifier +:+ p0) dependency))
    parentToChildren requestedBy.

Definition classifyDependency (moduleId : string)
    (maps : gmap string Dependency * dependencyMultimap) (dependency : Dependency)
    : outcome (gmap string Dependency * dependencyMultimap) :=
  let '(directDependencies, parentToChildren) := maps in
  let requestedBy := Dependency_RequestedBy dependency in
  direct ← isDirectDependency moduleId requestedBy;
  if direct : bool
  then Returns (<[ Dependency_Id dependency := dependency ]> directDependencies,
                parentToChildren)
  else
    parentToChildren' ← recordRequesters parentToChildren dependency requestedBy;
    Returns (directDependencies, parentToChildren').

Definition classifyDependencies (moduleId : string) (dependencies : list Dependency)
    : outcome (gmap string Dependency * dependencyMultimap) :=
  forRange (classifyDependency moduleId) (∅, newDependencyMultimap) dependencies.

Section RequestedBy.

(** Go leaves the order in which [range] visits a map unspecified.
    [rangeMap m] is the order of one such visit; the properties below are
    stated for every [rangeMap] that enumerates the entries of the map,
    [rangeMap m ≡ₚ map_to_list m]. *)
Variable rangeMap : gmap string Dependency → list (string * Dependency).

(** javautils.go:114-128. [parent.Nodes] receives the pointer to the new
    node before the children of the node are built; the tree reached
    through that pointer at the end is the node with its children, which
    is what [appendNode] appends here. The callee's [append] to [idsAdded]
    writes behind the length of the caller's slice and is never seen by the
    caller, so every call works on its own list. *)
Fixpoint populateTransitiveDependencies (fuel : nat) (parent : GraphNode)
    (dependencyId : string) (parentToChildren : dependencyMultimap)
    (idsAdded : list string) (uniqueDepsSet : gset string)
    : outcome (GraphNode * gset string) :=
  match fuel with
  | O => OutOfFuel
  | S fuel' =>
      if hasLoop idsAdded dependencyId then Returns (parent, uniqueDepsSet)
      else
        let idsAdded := idsAdded ++ [dependencyId] in
        let node := mkGraphNode (GavPackageTypeIdentifier +:+ dependencyId) [] None in
        let uniqueDepsSet := {[ GraphNode_Id node ]} ∪ uniqueDepsSet in
        '(node', uniqueDepsSet') ←
          forRange
            (λ '(node, uniqueDepsSet) '(_, child),
               populateTransitiveDependencies fuel' node (Dependency_Id child)
                 parentToChildren idsAdded uniqueDepsSet)
            (node, uniqueDepsSet)
            (rangeMap (getChildren parentToChildren (GraphNode_Id node)));
        Returns (appendNode parent node', uniqueDepsSet')
  end.

(** A recursion budget that is enough for every module: the ids below a
    direct dependency are ids of dependencies of the module, and no id
    repeats on a path. *)
Definition transitiveFuel (module : Module_) : nat :=
  length (Module_Dependencies module) + 2.

(** javautils.go:73-98. *)
Definition addModuleTree (module : Module_) (uniqueDepsSet : gset string)
    : outcome (GraphNode * gset string) :=
  let moduleTree := mkGraphNode (GavPackageTypeIdentifier +:+ Module_Id module) [] None in
  let uniqueDepsSet := {[ GraphNode_Id moduleTree ]} ∪ uniqueDepsSet in
  '(directDependencies, parentToChildren) ←
    classifyDependencies (Module_Id module) (Module_Dependencies module);
  forRange
    (λ '(moduleTree, uniqueDepsSet) '(_, directDependency),
       populateTransitiveDependencies (transitiveFuel module) moduleTree
         (Dependency_Id directDependency) parentToChildren [] uniqueDepsSet)
    (moduleTree, uniqueDepsSet)
    (rangeMap directDependencies).

(** javautils.go:48-71. [generated] is what
    [artifactoryUtils.GetGeneratedBuildsInfo] returned, the builds and the
    error, and [couldntFindBuild] the error that [errorutils.CheckErrorf]
    makes of the message of line 62; the build name and number of lines
    49-56 only feed that call and that message. *)
Definition createGavDependencyTree {error : Type} (couldntFindBuild : error)
    (generated : list BuildInfo * option error)
    : outcome (list GraphNode * list string * option error) :=
  let '(generatedBuildsInfos, err) := generated in
  match err with
  | Some e => Returns ([], [], Some e)
  | None =>
      match generatedBuildsInfos with
      | [] => Returns ([], [], Some couldntFindBuild)
      | buildInfo :: _ =>
          '(modules, uniqueDepsSet) ←
            forRange
              (λ '(modules, uniqueDepsSet) module,
                 '(tree, uniqueDepsSet') ← addModuleTree module uniqueDepsSet;
                 Returns (modules ++ [tree], uniqueDepsSet'))
              ([], ∅) (BuildInfo_Modules buildInfo);
          Returns (modules, elements uniqueDepsSet, None)
      end
  end.

End RequestedBy.

(** ** Plugin-tree model (javautils.go:180-225) *)

Record depTreeNode : Type := mkDepTreeNode {
  depTreeNode_Children : list string
}.

Record moduleDepTree : Type := mkModuleDepTree {
  moduleDepTree_Root : string;
  moduleDepTree_Nodes : gmap string depTreeNode
}.

(** Modelled from the spec: [GraphNode.NodeHasLoop] belongs to the library
    jfrog-client-go (xray/services/utils) and is not part of the sources. The
    specification describes it as the walk up the [Parent] chain of the
    current node that reports whether the current node's own id recurs among
    its ancestors. *)
Fixpoint idRecursAt (id : string) (parent : ParentRef) : bool :=
  match parent with
  | ParentNode parentId parentParent =>
      if bool_decide (id = parentId) then true
      else match parentParent with
           | None => false
           | Some grandParent => idRecursAt id grandParent
           end
  end.

Definition NodeHasLoop (currNode : GraphNode) : bool :=
  match GraphNode_Parent currNode with
  | None => false
  | Some parent => idRecursAt (GraphNode_Id currNode) parent
  end.

(** [moduleTree.Nodes[currNodeId].Children]; an id that is not a key of the
    map reads the zero [depTreeNode], whose [Children] is the nil slice. *)
Definition childrenOf (moduleTree : moduleDepTree) (currNodeId : string)
    : list string :=
  match moduleDepTree_Nodes moduleTree !! currNodeId with
  | Some node => depTreeNode_Children node
  | None => []
  end.

(** javautils.go:210-225. The child's [Parent] points to [currNode]; what
    can be read through it, [currNode]'s id and its own [Parent], is the same
    before and after the children are appended. *)
Fixpoint populateDependencyTree (fuel : nat) (currNode : GraphNode)
    (currNodeId : string) (moduleTree : moduleDepTree)
    (uniqueDepsSet : gset string) : outcome (GraphNode * gset string) :=
  match fuel with
  | O => OutOfFuel
  | S fuel' =>
      if NodeHasLoop currNode then Returns (currNode, uniqueDepsSet)
      else
        forRange
          (λ '(currNode, uniqueDepsSet) childId,
             let childGav := GavPackageTypeIdentifier +:+ childId in
             let childNode := mkGraphNode childGav [] (Some (refTo currNode)) in
             let uniqueDepsSet := {[ childGav ]} ∪ uniqueDepsSet in
             '(childNode', uniqueDepsSet') ←
               populateDependencyTree fuel' childNode childId moduleTree uniqueDepsSet;
             Returns (appendNode currNode childNode', uniqueDepsSet'))
          (currNode, uniqueDepsSet)
          (childrenOf moduleTree currNodeId)
  end.

(** A recursion budget that is enough for every module tree: a node that is
    expanded into children is a key of [Nodes] and differs from all its
    ancestors. *)
Definition depTreeFuel (moduleTree : moduleDepTree) : nat :=
  size (moduleDepTree_Nodes moduleTree) + 1.

(** ** Output-file parser (javautils.go:227-248) *)

(** The white space of [unicode.IsSpace], as its encodings in UTF-8. In
    one byte, the table [asciiSpace] of Go's package [strings]: tab, line
    feed, vertical tab, form feed, carriage return and space. *)
Definition asciiSpace (c : ascii) : bool :=
  let n := nat_of_ascii c in
  (Nat.leb 9 n && Nat.leb n 13) || Nat.eqb n 32.

Definition isByte (c : ascii) (n : nat) : bool := Nat.eqb (nat_of_ascii c) n.

(** In two bytes: U+0085 (C2 85) and U+00A0 (C2 A0). *)
Definition space2 (c d : ascii) : bool :=
  isByte c 194 && (isByte d 133 || isByte d 160).

(** In three bytes: U+1680 (E1 9A 80); U+2000 to U+200A, U+2028, U+2029
    and U+202F (E2 80 80 to E2 80 8A, E2 80 A8, E2 80 A9, E2 80 AF); U+205F
    (E2 81 9F); U+3000 (E3 80 80). *)
Definition space3 (c d e : ascii) : bool :=
  (isByte c 225 && isByte d 154 && isByte e 128)
  || (isByte c 226 && isByte d 128
      && ((Nat.leb 128 (nat_of_ascii e) && Nat.leb (nat_of_ascii e) 138)
          || isByte e 168 || isByte e 169 || isByte e 175))
  || (isByte c 226 && isByte d 129 && isByte e 159)
  || (isByte c 227 && isByte d 128 && isByte e 128).

(** Strips the runes of white space a string starts with; [two] and [three]
    recognise a rune of two and of three bytes. A byte above 127 that starts
    no such encoding is a rune that is not white space, or no rune at all,
    and stops the scan as it does in Go. *)
Fixpoint trimLeading (two : ascii → ascii → bool)
    (three : ascii → ascii → ascii → bool) (s : string) : string :=
  match s with
  | EmptyString => EmptyString
  | String c r1 =>
      if asciiSpace c then trimLeading two three r1
      else
        match r1 with
        | EmptyString => s
        | String d r2 =>
            if two c d then trimLeading two three r2
            else
              match r2 with
              | EmptyString => s
              | String e r3 =>
                  if three c d e then trimLeading two three r3 else s
              end
        end
  end.

Definition TrimLeft (s : string) : string := trimLeading space2 space3 s.

(** The runes a string ends with are the runes its reverse starts with,
    their bytes in reverse order: the last rune of a string starts at the
    last byte that is not a continuation byte, which for the encodings above
    is their first byte. *)
Definition TrimRight (s : string) : string :=
  String.rev
    (trimLeading (λ d c, space2 c d) (λ e d c, space3 c d e) (String.rev s)).

(** strings.TrimSpace. *)
Definition TrimSpace (s : string) : string := TrimRight (TrimLeft s).

(** strings.Split(s, sep) for a separator of one byte: the pieces between
    the separators, one more piece than there are separators. *)
Fixpoint Split (s : string) (sep : ascii) : list string :=
  match s with
  | EmptyString => [EmptyString]
  | String c rest =>
      if bool_decide (c = sep) then EmptyString :: Split rest sep
      else match Split rest sep with
           | [] => [String c EmptyString]
           | piece :: pieces => String c piece :: pieces
           end
  end.

Definition newline : ascii := ascii_of_nat 10.

Section OutputFiles.

(** Go's [error] values, the file system as [os.ReadFile] sees it and
    [json.Unmarshal] into a [**moduleDepTree], which leaves the pointer it
    decoded into ([None] for the JSON literal null) next to its error.
    [errorutils.CheckError] hands the error it receives back. *)
Context {error : Type}.
Variable ReadFile : string → string * option error.
Variable Unmarshal : string → option moduleDepTree * option error.

Definition parseDepTreeFile (path : string)
    : option moduleDepTree * option error :=
  let '(depTreeJson, err) := ReadFile (TrimSpace path) in
  match err with
  | Some e => (None, Some e)
  | None => Unmarshal depTreeJson
  end.

Fixpoint parseDepTreeFiles_range (modules : list (option moduleDepTree))
    (outputFilePaths : list string)
    : list (option moduleDepTree) * option error :=
  match outputFilePaths with
  | [] => (modules, None)
  | path :: rest =>
      let '(results, err) := parseDepTreeFile path in
      match err with
      | Some e => ([], Some e)
      | None => parseDepTreeFiles_range (modules ++ [results]) rest
      end
  end.

Definition parseDepTreeFiles (jsonFilePaths : string)
    : list (option moduleDepTree) * option error :=
  let outputFilePaths := Split (TrimSpace jsonFilePaths) newline in
  parseDepTreeFiles_range [] outputFilePaths.

(** javautils.go:192-208. *)
Definition getGraphFromDepTree (depTreeOutput : string)
    : outcome (list GraphNode * list string * option error) :=
  let '(modules, err) := parseDepTreeFiles depTreeOutput in
  match err with
  | Some e => Returns ([], [], Some e)
  | None =>
      '(depsGraph, uniqueDepsSet) ←
        forRange
          (λ '(depsGraph, uniqueDepsSet) (moduleTreePtr : option moduleDepTree),
             moduleTree ← match moduleTreePtr with
                          | Some moduleTree => Returns moduleTree
                          | None => Panics NilDereference_getGraphFromDepTree
                          end;
             let directDependency :=
               mkGraphNode (GavPackageTypeIdentifier +:+ moduleDepTree_Root moduleTree)
                 [] None in
             '(directDependency', uniqueDepsSet') ←
               populateDependencyTree (depTreeFuel moduleTree) directDependency
                 (moduleDepTree_Root moduleTree) moduleTree uniqueDepsSet;
             Returns (depsGraph ++ [directDependency'], uniqueDepsSet'))
          ([], ∅) modules;
      Returns (depsGraph, elements uniqueDepsSet, None)
  end.

End OutputFiles.

(** * Vocabulary of the properties *)

(** The id starts with the scheme prefix of GAV coordinates. *)
Definition hasGavPrefix (id : string) : Prop :=
  ∃ raw, id = "gav://" +:+ raw.

(** The classification of the specification: the outer sequence is empty, or
    the first chain is empty, or some chain starts with the module's id. *)
Definition requestedDirectly (moduleId : string) (requestedBy : list (list string))
    : Prop :=
  requestedBy = [] ∨
  (∃ rest, requestedBy = [] :: rest) ∨
  (∃ chain rest, chain ∈ requestedBy ∧ chain = moduleId :: rest).

(** A chain that the loop of [isDirectDependency] steps over: it has a first
    element, which is not the module's id. *)
Definition headedByOther (moduleId : string) (chain : list string) : Prop :=
  ∃ p0 rest, chain = p0 :: rest ∧ p0 ≠ moduleId.

(** Every chain after the first one is non-empty. *)
Definition laterChainsNonEmpty (requestedBy : list (list string)) : Prop :=
  ∀ i chain, 0 < i → requestedBy !! i = Some chain → chain ≠ [].

(** The ids of the dependency records stored in a multimap. *)
Definition multimapIds (dm : dependencyMultimap) : gset string :=
  ⋃ ((λ entry, map_to_set (λ _ child, Dependency_Id child) entry.2)
       <$> map_to_list dm).

(** Every entry of a map that [putChild] filled is keyed by the id of the
    record it holds. *)
Definition keyedById (dm : dependencyMultimap) : Prop :=
  ∀ parent key child,
    getChildren dm parent !! key = Some child → Dependency_Id child = key.

(** A dependency as an indirect one under [parent]: it is not requested
    directly and one of its chains starts with the raw id of [parent]. *)
Definition requestedThrough (moduleId parent : string) (dependency : Dependency) : Prop :=
  ¬ requestedDirectly moduleId (Dependency_RequestedBy dependency) ∧
  ∃ p0 rest, p0 :: rest ∈ Dependency_RequestedBy dependency ∧
             parent = GavPackageTypeIdentifier +:+ p0.

(** Either the id is on the path and nothing changes, or one node is
    appended to the parent; the ids [sub] below that node enter the set
    with it, and each of them is the prefixed id of a stored dependency
    that is not on the path of the node. *)
Definition transitiveEffect (dm : dependencyMultimap) (parent : GraphNode)
    (dependencyId : string) (idsAdded : list string) (uniqueDepsSet : gset string)
    (parent' : GraphNode) (uniqueDepsSet' : gset string) : Prop :=
  (dependencyId ∈ idsAdded ∧ parent' = parent ∧ uniqueDepsSet' = uniqueDepsSet) ∨
  ((dependencyId ∉ idsAdded) ∧
   ∃ (node : GraphNode) (sub : gset string),
     parent' = appendNode parent node ∧
     GraphNode_Id node = GavPackageTypeIdentifier +:+ dependencyId ∧
     GraphNode_Parent node = None ∧
     graphIds node = {[ GavPackageTypeIdentifier +:+ dependencyId ]} ∪ sub ∧
     forestIds (GraphNode_Nodes node) = sub ∧
     uniqueDepsSet' = {[ GavPackageTypeIdentifier +:+ dependencyId ]} ∪ uniqueDepsSet ∪ sub ∧
     ∀ id, id ∈ sub →
           ∃ raw, id = GavPackageTypeIdentifier +:+ raw ∧
                  (raw ∉ idsAdded ++ [dependencyId]) ∧ raw ∈ multimapIds dm).

Definition dependencyIds (module : Module_) : gset string :=
  list_to_set (Dependency_Id <$> Module_Dependencies module).

(** The ids met on the way up from a [Parent] pointer, nearest first. *)
Fixpoint refIds (parent : ParentRef) : list string :=
  match parent with
  | ParentNode parentId parentParent =>
      parentId :: match parentParent with
                  | None => []
                  | Some grandParent => refIds grandParent
                  end
  end.

Definition ancestorIds (parent : option ParentRef) : list string :=
  match parent with
  | None => []
  | Some parent => refIds parent
  end.

(** Induction up a chain of parents. *)
Fixpoint ParentRef_chain_ind (P : ParentRef → Prop)
    (Htop : ∀ parentId, P (ParentNode parentId None))
    (Hup : ∀ parentId grandParent,
        P grandParent → P (ParentNode parentId (Some grandParent)))
    (parent : ParentRef) : P parent :=
  match parent with
  | ParentNode parentId None => Htop parentId
  | ParentNode parentId (Some grandParent) =>
      Hup parentId grandParent (ParentRef_chain_ind P Htop Hup grandParent)
  end.

(** The raw ids that some entry of [Nodes] lists as a child. *)
Definition listedChildren (moduleTree : moduleDepTree) : gset string :=
  ⋃ ((λ entry, list_to_set (depTreeNode_Children entry.2))
       <$> map_to_list (moduleDepTree_Nodes moduleTree)).

(** A call appends nodes to the current node and puts their ids, and the ids
    below them, into the set. On a current node whose id recurs among its
    ancestors it appends nothing; otherwise it appends one node per listed
    child, in the order of the list, each with the prefixed id of the child
    and with [Parent] pointing to the current node. *)
Definition pluginEffect (moduleTree : moduleDepTree) (currNode : GraphNode)
    (currNodeId : string) (uniqueDepsSet : gset string)
    (currNode' : GraphNode) (uniqueDepsSet' : gset string) : Prop :=
  ∃ nodes,
    currNode' = mkGraphNode (GraphNode_Id currNode)
                  (GraphNode_Nodes currNode ++ nodes) (GraphNode_Parent currNode) ∧
    uniqueDepsSet' = uniqueDepsSet ∪ forestIds nodes ∧
    (∀ id, id ∈ forestIds nodes →
           ∃ raw, id = GavPackageTypeIdentifier +:+ raw ∧ raw ∈ listedChildren moduleTree) ∧
    if NodeHasLoop currNode then nodes = []
    else GraphNode_Id <$> nodes
         = (λ childId, GavPackageTypeIdentifier +:+ childId)
             <$> childrenOf moduleTree currNodeId ∧
         Forall (λ n, GraphNode_Parent n = Some (refTo currNode) ∧
                      (NodeHasLoop n = true → GraphNode_Nodes n = [])) nodes.

(** The string consists of runes of white space only. *)
Fixpoint allSpace (s : string) : bool :=
  match s with
  | EmptyString => true
  | String c r1 =>
      if asciiSpace c then allSpace r1
      else
        match r1 with
        | EmptyString => false
        | String d r2 =>
            if space2 c d then allSpace r2
            else
              match r2 with
              | EmptyString => false
              | String e r3 => space3 c d e && allSpace r3
              end
        end
  end.

(** The ids of the nodes below the roots of a graph. *)
Definition belowRoots (graph : list GraphNode) : gset string :=
  ⋃ ((λ root, forestIds (GraphNode_Nodes root)) <$> graph).

(** The tree that [getGraphFromDepTree] builds for one module: the root has
    the prefixed id of [Root] and no parent, its children are the listed
    children of [Root], and every id below the root is the prefixed id of a
    listed child. *)
Definition treeOfModule (moduleTree : moduleDepTree) (tree : GraphNode) : Prop :=
  GraphNode_Id tree = GavPackageTypeIdentifier +:+ moduleDepTree_Root moduleTree ∧
  GraphNode_Parent tree = None ∧
  GraphNode_Id <$> GraphNode_Nodes tree
  = (λ childId, GavPackageTypeIdentifier +:+ childId)
      <$> childrenOf moduleTree (moduleDepTree_Root moduleTree) ∧
  ∀ id, id ∈ forestIds (GraphNode_Nodes tree) →
        ∃ raw, id = GavPackageTypeIdentifier +:+ raw ∧ raw ∈ listedChildren moduleTree.

(** No node of the tree has an id that is in [path] or that an ancestor of
    the node inside the tree has: no edge of the tree enters an id that is
    already on the way to it. *)
Fixpoint noReentry (path : gset string) (n : GraphNode) : Prop :=
  match n with
  | mkGraphNode i ns _ =>
      (i ∉ path) ∧
      (fix all (l : list GraphNode) : Prop :=
         match l with
         | [] => True
         | c :: l' => noReentry ({[ i ]} ∪ path) c ∧ all l'
         end) ns
  end.

(** A node whose id is in [path], or is the id of one of its ancestors
    inside the tree, has no children. *)
Fixpoint repeatsAreLeaves (path : gset string) (n : GraphNode) : Prop :=
  match n with
  | mkGraphNode i ns _ =>
      (i ∈ path → ns = []) ∧
      (fix all (l : list GraphNode) : Prop :=
         match l with
         | [] => True
         | c :: l' => repeatsAreLeaves ({[ i ]} ∪ path) c ∧ all l'
         end) ns
  end.

(** ** Vocabulary of the further properties *)

(** Whether a run came back with a result. *)
Definition returned {A : Type} (run : outcome A) : bool :=
  match run with
  | Returns _ => true
  | _ => false
  end.

(** The tree below a dependency, written without the accumulators: the
    node of the dependency and, for every child that the multimap files
    under its prefixed id and that is not on the path, in the order of the
    visit, the tree of that child, [depth] levels deep. *)
Fixpoint unfoldDependency (rangeMap : gmap string Dependency → list (string * Dependency))
    (depth : nat) (dm : dependencyMultimap) (path : list string)
    (dependencyId : string) : GraphNode :=
  mkGraphNode (GavPackageTypeIdentifier +:+ dependencyId)
    match depth with
    | O => []
    | S depth' =>
        unfoldDependency rangeMap depth' dm (path ++ [dependencyId])
          <$> filter (λ childId, childId ∉ path ++ [dependencyId])
                ((λ entry : string * Dependency, Dependency_Id entry.2)
                   <$> rangeMap (getChildren dm (GavPackageTypeIdentifier +:+ dependencyId)))
    end
    None.

(** All nodes of a tree satisfy [P]. *)
Fixpoint graphForall (P : GraphNode → Prop) (n : GraphNode) : Prop :=
  match n with
  | mkGraphNode i ns p =>
      P (mkGraphNode i ns p) ∧
      (fix all (l : list GraphNode) : Prop :=
         match l with
         | [] => True
         | c :: l' => graphForall P c ∧ all l'
         end) ns
  end.

(** The number of nodes on the longest path from the root down. *)
Fixpoint graphHeight (n : GraphNode) : nat :=
  match n with
  | mkGraphNode _ ns _ =>
      S ((fix highest (l : list GraphNode) : nat :=
            match l with
            | [] => 0
            | c :: l' => graphHeight c `max` highest l'
            end) ns)
  end.

(** Induction on a tree, with the property at hand for all children. *)
Fixpoint GraphNode_tree_ind (P : GraphNode → Prop)
    (step : ∀ i ns p, Forall P ns → P (mkGraphNode i ns p)) (n : GraphNode) : P n :=
  match n with
  | mkGraphNode i ns p =>
      step i ns p
        ((fix all (l : list GraphNode) : Forall P l :=
            match l with
            | [] => Forall_nil_2 P
            | c :: l' => Forall_cons_2 P c l' (GraphNode_tree_ind P step c) (all l')
            end) ns)
  end.

(** [e] is reached from [d] along edges, on a path that starts at [d],
    visits no id twice and no id of [path]. *)
Inductive reachesAvoiding (edge : string → string → Prop)
    : list string → string → string → Prop :=
| reaches_self (path : list string) (d : string) :
    d ∉ path → reachesAvoiding edge path d d
| reaches_child (path : list string) (d c e : string) :
    d ∉ path → edge d c → reachesAvoiding edge (path ++ [d]) c e →
    reachesAvoiding edge path d e.

(** The edges of the multimap: [c] is the id of a record filed under the
    prefixed id [d]. *)
Definition multimapEdge (dm : dependencyMultimap) (d c : string) : Prop :=
  ∃ key child, getChildren dm (GavPackageTypeIdentifier +:+ d) !! key = Some child ∧
               Dependency_Id child = c.

(** The same edges read off the dependency records of the module: [c] is
    the id of a record that is not direct and has a requested-by chain
    whose head, prefixed, is the prefixed id [d]. *)
Definition requestedEdge (module : Module_) (d c : string) : Prop :=
  ∃ child, child ∈ Module_Dependencies module ∧ Dependency_Id child = c ∧
           requestedThrough (Module_Id module) (GavPackageTypeIdentifier +:+ d) child.

(** [vs] lists the ids of a path along edges from [d] to [e], both ends
    included. *)
Inductive pathFrom (edge : string → string → Prop)
    : list string → string → string → Prop :=
| path_end (d : string) : pathFrom edge [d] d d
| path_step (d c e : string) (vs : list string) :
    edge d c → pathFrom edge vs c e → pathFrom edge (d :: vs) d e.

(** The edges of a module tree: [c] is listed among the children of [d]. *)
Definition childEdge (moduleTree : moduleDepTree) (d c : string) : Prop :=
  c ∈ childrenOf moduleTree d.

(** The tree of a node of a module tree, written without the accumulators:
    the node with its [Parent] reference and, unless its id recurs among its
    ancestors, the trees of its listed children in the order of the list,
    [depth] levels deep. *)
Fixpoint unfoldDepTree (depth : nat) (moduleTree : moduleDepTree)
    (parent : option ParentRef) (nodeId : string) : GraphNode :=
  mkGraphNode (GavPackageTypeIdentifier +:+ nodeId)
    match depth with
    | O => []
    | S depth' =>
        if bool_decide (GavPackageTypeIdentifier +:+ nodeId ∈ ancestorIds parent) then []
        else unfoldDepTree depth' moduleTree
               (Some (ParentNode (GavPackageTypeIdentifier +:+ nodeId) parent))
               <$> childrenOf moduleTree nodeId
    end
    parent.

(** Every [Parent] reference in the tree shows the node it hangs under. *)
Fixpoint parentsAgree (parent : option ParentRef) (n : GraphNode) : Prop :=
  match n with
  | mkGraphNode i ns p =>
      p = parent ∧
      (fix all (l : list GraphNode) : Prop :=
         match l with
         | [] => True
         | c :: l' => parentsAgree (Some (ParentNode i p)) c ∧ all l'
         end) ns
  end.

(** The prefixed keys of the [Nodes] map of a module tree. *)
Definition nodeKeys (moduleTree : moduleDepTree) : gset string :=
  list_to_set ((λ entry : string * depTreeNode, GavPackageTypeIdentifier +:+ entry.1)
                 <$> map_to_list (moduleDepTree_Nodes moduleTree)).

(** The string consists of bytes of the table [asciiSpace] only. *)
Fixpoint asciiSpaces (s : string) : bool :=
  match s with
  | EmptyString => true
  | String c rest => asciiSpace c && asciiSpaces rest
  end.

(** How often the byte [sep] occurs in [s]. *)
Fixpoint countByte (sep : ascii) (s : string) : nat :=
  match s with
  | EmptyString => 0
  | String c rest => (if bool_decide (c = sep) then 1 else 0) + countByte sep rest
  end.

(** * Sample inputs *)

(** A file system given by a table from paths to contents, and a decoder
    given by a table from contents to module trees. *)
Definition tableReadFile (files : gmap string string) (path : string)
    : string * option string :=
  match files !! path with
  | Some json => (json, None)
  | None => ("", Some ("open " +:+ path +:+ ": no such file or directory"))
  end.

Definition tableUnmarshal (documents : gmap string moduleDepTree) (json : string)
    : option moduleDepTree * option string :=
  match documents !! json with
  | Some moduleTree => (Some moduleTree, None)
  | None => (Some (mkModuleDepTree "" ∅), Some "invalid character")
  end.

(** A module tree of a single root, and one in which [a] lists [b] and [b]
    lists [a]. *)
Definition singleRoot : moduleDepTree := mkModuleDepTree "r" ∅.

Definition cyclicTree : moduleDepTree :=
  mkModuleDepTree "a"
    (<[ "a" := mkDepTreeNode ["b"] ]> (<[ "b" := mkDepTreeNode ["a"] ]> ∅)).

Definition sampleFiles : gmap string string :=
  <[ "single.json" := "single" ]> (<[ "cyclic.json" := "cyclic" ]> ∅).

Definition sampleDocuments : gmap string moduleDepTree :=
  <[ "single" := singleRoot ]> (<[ "cyclic" := cyclicTree ]> ∅).

(** A module in which [b] is direct, [c] is requested by [b], and [b] is
    requested by [c] as well. *)
Definition cyclicModule : Module_ :=
  mkModule "m"
    [ mkDependency "b" [];
      mkDependency "c" [["b"; "m"]];
      mkDependency "b" [["c"; "b"; "m"]] ].

(** * Properties *)

(** ** Loops *)

Lemma forRange_app {A B : Type} (body : B → A → outcome B) (acc : B) (xs ys : list A) :
  forRange body acc (xs ++ ys) = acc' ← forRange body acc xs; forRange body acc' ys.
Proof.
  revert acc. induction xs as [|x xs IH]; intros acc; simpl; [done|].
  destruct (body acc x) as [acc1| |]; simpl; [apply IH|done|done].
Qed.

(** An invariant of the accumulator holds after the loop. *)
Lemma forRange_invariant {A B : Type} (P : B → Prop) (body : B → A → outcome B)
    (xs : list A) (acc r : B) :
  P acc →
  (∀ acc x acc', x ∈ xs → P acc → body acc x = Returns acc' → P acc') →
  forRange body acc xs = Returns r →
  P r.
Proof.
  revert acc. induction xs as [|x xs IH]; intros acc Hacc Hstep Hrun; simpl in Hrun.
  - by inversion Hrun; subst.
  - destruct (body acc x) as [acc1| |] eqn:Hbody; simpl in Hrun; try done.
    apply (IH acc1); [|intros; eapply Hstep; eauto; by right|done].
    eapply Hstep; eauto. by left.
Qed.

(** A loop whose body returns on every accumulator that satisfies the
    invariant returns. *)
Lemma forRange_returns {A B : Type} (P : B → Prop) (body : B → A → outcome B)
    (xs : list A) (acc : B) :
  P acc →
  (∀ acc x, x ∈ xs → P acc → ∃ acc', body acc x = Returns acc' ∧ P acc') →
  ∃ r, forRange body acc xs = Returns r ∧ P r.
Proof.
  revert acc. induction xs as [|x xs IH]; intros acc Hacc Hstep; simpl.
  - by exists acc.
  - destruct (Hstep acc x) as (acc1 & -> & Hacc1); [by left|done|]. simpl.
    apply IH; [done|]. intros; apply Hstep; [by right|done].
Qed.

(** A loop returns what it returned once its body is replaced by a body
    that returns whatever the first one returned. *)
Lemma forRange_returns_mono {A B : Type} (body body' : B → A → outcome B)
    (xs : list A) :
  (∀ acc x r, body acc x = Returns r → body' acc x = Returns r) →
  ∀ acc r, forRange body acc xs = Returns r → forRange body' acc xs = Returns r.
Proof.
  intros Hbody. induction xs as [|x xs IH]; intros acc r; simpl; [done|].
  destruct (body acc x) as [acc1| |] eqn:Hx; simpl; try done.
  rewrite (Hbody _ _ _ Hx). simpl. apply IH.
Qed.

(** A loop that panics, or runs out of budget, does so in its body. *)
Lemma forRange_panics_inv {A B : Type} (site : PanicSite) (body : B → A → outcome B)
    (xs : list A) (acc : B) :
  forRange body acc xs = Panics site →
  ∃ acc' x, x ∈ xs ∧ body acc' x = Panics site.
Proof.
  revert acc. induction xs as [|x xs IH]; intros acc; simpl; [done|].
  destruct (body acc x) as [acc1| |] eqn:Hbody; simpl; [|intros [= <-]|done].
  - intros (acc' & y & Hin & Hy)%IH. exists acc', y. split; [by right|done].
  - exists acc, x. split; [by left|done].
Qed.

Lemma forRange_out_of_fuel_inv {A B : Type} (body : B → A → outcome B)
    (xs : list A) (acc : B) :
  forRange body acc xs = OutOfFuel →
  ∃ acc' x, x ∈ xs ∧ body acc' x = OutOfFuel.
Proof.
  revert acc. induction xs as [|x xs IH]; intros acc; simpl; [done|].
  destruct (body acc x) as [acc1| |] eqn:Hbody; simpl; [|done|intros _].
  - intros (acc' & y & Hin & Hy)%IH. exists acc', y. split; [by right|done].
  - exists acc, x. split; [by left|done].
Qed.

(** ** Identifiers *)

Lemma gav_prefix_inj (a b : string) :
  GavPackageTypeIdentifier +:+ a = GavPackageTypeIdentifier +:+ b → a = b.
Proof. unfold GavPackageTypeIdentifier. cbv [String.append]. by intros [= ->]. Qed.

(** ** Trees *)

Lemma graphIds_node (i : string) (ns : list GraphNode) (p : option ParentRef) :
  graphIds (mkGraphNode i ns p) = {[ i ]} ∪ forestIds ns.
Proof.
  simpl. f_equal. unfold forestIds.
  induction ns as [|c ns IH]; simpl; [done|]. by rewrite IH.
Qed.

Lemma forestIds_app (l1 l2 : list GraphNode) :
  forestIds (l1 ++ l2) = forestIds l1 ∪ forestIds l2.
Proof. unfold forestIds. rewrite fmap_app, union_list_app_L. done. Qed.

Lemma forestIds_singleton (n : GraphNode) : forestIds [n] = graphIds n.
Proof. unfold forestIds. simpl. set_solver. Qed.

Lemma graphIds_appendNode (n child : GraphNode) :
  graphIds (appendNode n child) = graphIds n ∪ graphIds child.
Proof.
  destruct n as [i ns p]. unfold appendNode. simpl GraphNode_Id.
  simpl GraphNode_Nodes. simpl GraphNode_Parent.
  rewrite !graphIds_node, forestIds_app, forestIds_singleton. set_solver.
Qed.

Lemma refTo_appendNode (n child : GraphNode) : refTo (appendNode n child) = refTo n.
Proof. by destruct n. Qed.

Lemma forestIds_cons (n : GraphNode) (l : list GraphNode) :
  forestIds (n :: l) = graphIds n ∪ forestIds l.
Proof. done. Qed.

Lemma forestIds_nil : forestIds [] = ∅.
Proof. done. Qed.

Lemma graphIds_root (n : GraphNode) : GraphNode_Id n ∈ graphIds n.
Proof. destruct n as [i ns p]. rewrite graphIds_node. set_solver. Qed.

(** ** Direct and indirect dependencies *)

Lemma isDirectDependency_range_true (moduleId : string) (chains : list (list string)) :
  isDirectDependency_range moduleId chains = Returns true →
  ∃ chain rest, chain ∈ chains ∧ chain = moduleId :: rest.
Proof.
  induction chains as [|c chains IH]; simpl; [done|].
  destruct c as [|p0 rest]; simpl; [done|].
  case_bool_decide as Hp0.
  - intros _. exists (p0 :: rest), rest. subst. split; [by left|done].
  - intros H. destruct (IH H) as (chain & rest' & Hin & ->).
    exists (moduleId :: rest'), rest'. split; [by right|done].
Qed.

Lemma isDirectDependency_range_false (moduleId : string) (chains : list (list string)) :
  isDirectDependency_range moduleId chains = Returns false →
  Forall (headedByOther moduleId) chains.
Proof.
  induction chains as [|c chains IH]; simpl; [by constructor|].
  destruct c as [|p0 rest]; simpl; [done|].
  case_bool_decide as Hp0; [done|].
  intros H. constructor; [by exists p0, rest|by apply IH].
Qed.

Lemma isDirectDependency_range_skip (moduleId : string) (pre chains : list (list string)) :
  Forall (headedByOther moduleId) pre →
  isDirectDependency_range moduleId (pre ++ chains)
  = isDirectDependency_range moduleId chains.
Proof.
  induction 1 as [|c pre (p0 & rest & -> & Hne) _ IH]; simpl; [done|].
  by rewrite bool_decide_false.
Qed.

(** The loop panics exactly when it reaches an empty chain, and then at the
    index expression of line 106. *)
Lemma isDirectDependency_range_panics (moduleId : string) (chains : list (list string))
    (site : PanicSite) :
  isDirectDependency_range moduleId chains = Panics site ↔
  site = IndexOutOfRange_isDirectDependency ∧
  ∃ pre post, chains = pre ++ [] :: post ∧ Forall (headedByOther moduleId) pre.
Proof.
  split.
  - induction chains as [|c chains IH]; simpl; [done|].
    destruct c as [|p0 rest]; simpl.
    + intros [= <-]. split; [done|]. by exists [], chains.
    + case_bool_decide as Hp0; [done|]. intros H.
      destruct (IH H) as (-> & pre & post & -> & Hpre). split; [done|].
      exists ((p0 :: rest) :: pre), post. split; [done|].
      constructor; [by exists p0, rest|done].
  - intros (-> & pre & post & -> & Hpre).
    by rewrite isDirectDependency_range_skip.
Qed.

Lemma isDirectDependency_range_total (moduleId : string) (chains : list (list string)) :
  Forall (λ chain, chain ≠ []) chains →
  ∃ b, isDirectDependency_range moduleId chains = Returns b.
Proof.
  induction 1 as [|c chains Hc _ [b IH]]; simpl; [by exists false|].
  destruct c as [|p0 rest]; [done|]. simpl.
  case_bool_decide; [by exists true|by exists b].
Qed.

Lemma isDirectDependency_never_out_of_fuel (moduleId : string)
    (requestedBy : list (list string)) :
  isDirectDependency moduleId requestedBy ≠ OutOfFuel.
Proof.
  unfold isDirectDependency. destruct (_ || _); [done|].
  induction requestedBy as [|c chains IH]; simpl; [done|].
  destruct c as [|p0 rest]; simpl; [done|]. by case_bool_decide.
Qed.

(** Whenever [isDirectDependency] returns, it returns the classification of
    the specification. *)
Lemma isDirectDependency_returns_spec (moduleId : string)
    (requestedBy : list (list string)) (b : bool) :
  isDirectDependency moduleId requestedBy = Returns b →
  (b = true ↔ requestedDirectly moduleId requestedBy).
Proof.
  unfold isDirectDependency, requestedDirectly.
  destruct requestedBy as [|c chains]; simpl.
  { intros [= <-]. naive_solver. }
  destruct c as [|p0 rest]; simpl.
  { intros [= <-]. naive_solver. }
  case_bool_decide as Hp0.
  { intros [= <-]. split; [|done]. intros _. right; right.
    exists (p0 :: rest), rest. subst. split; [by left|done]. }
  destruct b; intros H.
  - split; [|done]. intros _. right; right.
    destruct (isDirectDependency_range_true _ _ H) as (chain & rest' & Hin & ->).
    exists (moduleId :: rest'), rest'. split; [by right|done].
  - split; [done|]. intros [?|[[? ?]|(chain & rest' & Hin & ->)]]; try done.
    apply isDirectDependency_range_false in H.
    apply elem_of_cons in Hin as [[= <- _]|Hin]; [done|].
    rewrite Forall_forall in H. destruct (H _ Hin) as (q & ? & [= <- _] & Hq). done.
Qed.

(** Under the precondition that every chain after the first is non-empty,
    [isDirectDependency] returns. *)
Lemma isDirectDependency_total (moduleId : string) (requestedBy : list (list string)) :
  laterChainsNonEmpty requestedBy →
  ∃ b, isDirectDependency moduleId requestedBy = Returns b.
Proof.
  intros Hlater. unfold isDirectDependency.
  destruct requestedBy as [|c chains]; simpl; [by exists true|].
  destruct c as [|p0 rest]; simpl; [by exists true|].
  case_bool_decide; [by exists true|].
  apply isDirectDependency_range_total, Forall_lookup.
  intros i chain Hi. apply (Hlater (S i) chain); [lia|done].
Qed.

(** [isDirectDependency] panics exactly on a first chain that is non-empty
    followed, before any chain that starts with the module's id, by an empty
    chain. *)
Lemma isDirectDependency_panics (moduleId : string) (requestedBy : list (list string))
    (site : PanicSite) :
  isDirectDependency moduleId requestedBy = Panics site ↔
  site = IndexOutOfRange_isDirectDependency ∧
  ∃ pre post, pre ≠ [] ∧ requestedBy = pre ++ [] :: post ∧
              Forall (headedByOther moduleId) pre.
Proof.
  unfold isDirectDependency. split.
  - destruct (_ || _) eqn:Hguard; [done|]. intros H.
    apply isDirectDependency_range_panics in H as (-> & pre & post & -> & Hpre).
    split; [done|]. exists pre, post. split; [|done].
    intros ->. simpl in Hguard. done.
  - intros (-> & pre & post & Hne & -> & Hpre).
    destruct pre as [|c pre]; [done|].
    inversion Hpre as [|? ? (p0 & rest & -> & Hp0) Hpre']; subst. simpl.
    rewrite bool_decide_false by done. simpl.
    apply isDirectDependency_range_panics. split; [done|]. by exists pre, post.
Qed.

(** ** The multimap *)

Lemma getChildren_new (parent : string) : getChildren newDependencyMultimap parent = ∅.
Proof. unfold getChildren, newDependencyMultimap. by rewrite lookup_empty. Qed.

Lemma getChildren_putChild (dm : dependencyMultimap) (parent parent' : string)
    (child : Dependency) :
  getChildren (putChild dm parent child) parent'
  = if decide (parent = parent')
    then <[ Dependency_Id child := child ]> (getChildren dm parent)
    else getChildren dm parent'.
Proof.
  unfold getChildren at 1. unfold putChild.
  destruct (decide (parent = parent')) as [<-|Hne].
  - by rewrite lookup_insert_eq.
  - by rewrite lookup_insert_ne.
Qed.

Lemma elem_of_multimapIds (dm : dependencyMultimap) (id : string) :
  id ∈ multimapIds dm ↔
  ∃ parent key child,
    getChildren dm parent !! key = Some child ∧ Dependency_Id child = id.
Proof.
  unfold multimapIds. rewrite elem_of_union_list. split.
  - intros (X & HX & Hid). apply list_elem_of_fmap in HX as ([parent children] & -> & Hin).
    apply elem_of_map_to_list in Hin. simpl in Hid.
    apply elem_of_map_to_set in Hid as (key & child & Hchild & <-).
    exists parent, key, child. unfold getChildren. by rewrite Hin.
  - intros (parent & key & child & Hchild & <-). unfold getChildren in Hchild.
    destruct (dm !! parent) as [children|] eqn:Hparent; simpl in Hchild;
      [|by rewrite lookup_empty in Hchild].
    exists (map_to_set (λ _ child, Dependency_Id child) children). split.
    + apply list_elem_of_fmap. exists (parent, children).
      split; [done|by apply elem_of_map_to_list].
    + apply elem_of_map_to_set. by exists key, child.
Qed.

Lemma keyedById_new : keyedById newDependencyMultimap.
Proof. intros parent key child. by rewrite getChildren_new, lookup_empty. Qed.

Lemma keyedById_putChild (dm : dependencyMultimap) (parent : string) (child : Dependency) :
  keyedById dm → keyedById (putChild dm parent child).
Proof.
  intros Hdm parent' key child'. rewrite getChildren_putChild.
  destruct (decide (parent = parent')) as [<-|Hne]; [|apply Hdm].
  destruct (decide (Dependency_Id child = key)) as [<-|Hkey].
  - rewrite lookup_insert_eq. by intros [= <-].
  - rewrite lookup_insert_ne by done. apply Hdm.
Qed.

(** ** The first loop of addModuleTree *)

Lemma recordRequesters_total (dm : dependencyMultimap) (dependency : Dependency)
    (requestedBy : list (list string)) :
  Forall (λ chain, chain ≠ []) requestedBy →
  ∃ dm', recordRequesters dm dependency requestedBy = Returns dm'.
Proof.
  unfold recordRequesters. intros Hne.
  destruct (forRange_returns (λ _, True)
    (λ dm parent, p0 ← index0 IndexOutOfRange_addModuleTree parent;
                  Returns (putChild dm (GavPackageTypeIdentifier +:+ p0) dependency))
    requestedBy dm) as (r & Hr & _); [done| |by exists r].
  intros acc chain Hin _. rewrite Forall_forall in Hne.
  destruct chain as [|p0 rest]; [by destruct (Hne [] Hin)|].
  simpl. eauto.
Qed.

(** On its own, the loop over the chains indexes out of range as soon as
    one chain is empty. *)
Lemma recordRequesters_empty_chain (dm : dependencyMultimap) (dependency : Dependency)
    (requestedBy : list (list string)) :
  [] ∈ requestedBy →
  recordRequesters dm dependency requestedBy = Panics IndexOutOfRange_addModuleTree.
Proof.
  unfold recordRequesters. revert dm.
  induction requestedBy as [|chain chains IH]; intros dm Hin.
  - by apply elem_of_nil in Hin.
  - destruct chain as [|p0 rest]; [done|]. simpl.
    apply IH. by apply elem_of_cons in Hin as [?|?].
Qed.

(** What the edge-recording loop stores: the entries that were there, and
    the dependency under the prefixed head of each of its chains. *)
Lemma recordRequesters_lookup (dm dm' : dependencyMultimap) (dependency : Dependency)
    (requestedBy : list (list string)) (parent key : string) (child : Dependency) :
  keyedById dm →
  recordRequesters dm dependency requestedBy = Returns dm' →
  keyedById dm' ∧
  (getChildren dm' parent !! key = Some child →
   getChildren dm parent !! key = Some child ∨
   (child = dependency ∧ key = Dependency_Id dependency ∧
    ∃ p0 rest, p0 :: rest ∈ requestedBy ∧ parent = GavPackageTypeIdentifier +:+ p0)) ∧
  ((is_Some (getChildren dm parent !! key) ∨
    (key = Dependency_Id dependency ∧
     ∃ p0 rest, p0 :: rest ∈ requestedBy ∧ parent = GavPackageTypeIdentifier +:+ p0)) →
   is_Some (getChildren dm' parent !! key)).
Proof.
  unfold recordRequesters. revert dm.
  induction requestedBy as [|chain chains IH]; intros dm Hkeyed Hrun; simpl in Hrun.
  - inversion Hrun; subst. split; [done|]. split.
    + by left.
    + intros [?|(_ & p0 & rest & Hin & _)]; [done|by apply elem_of_nil in Hin].
  - destruct chain as [|p0 rest]; [done|]. simpl in Hrun.
    destruct (IH _ (keyedById_putChild _ (GavPackageTypeIdentifier +:+ p0) dependency Hkeyed) Hrun)
      as (Hk & Hsub & Hsup).
    split; [done|]. split.
    + intros H. destruct (Hsub H) as [Hput|(-> & -> & q0 & qrest & Hin & ->)].
      * rewrite getChildren_putChild in Hput.
        destruct (decide (GavPackageTypeIdentifier +:+ p0 = parent)) as [<-|Hne];
          [|by left].
        destruct (decide (Dependency_Id dependency = key)) as [<-|Hkey].
        -- rewrite lookup_insert_eq in Hput. injection Hput as <-. right.
           split; [done|]. split; [done|]. exists p0, rest. split; [by left|done].
        -- rewrite lookup_insert_ne in Hput by done. by left.
      * right. split; [done|]. split; [done|]. exists q0, qrest. split; [by right|done].
    + intros H. apply Hsup. rewrite getChildren_putChild.
      destruct H as [Hold|(-> & q0 & qrest & Hin & ->)].
      * left. destruct (decide (GavPackageTypeIdentifier +:+ p0 = parent)) as [<-|Hne];
          [|done].
        destruct (decide (Dependency_Id dependency = key)) as [<-|Hkey].
        -- rewrite lookup_insert_eq. eauto.
        -- by rewrite lookup_insert_ne.
      * apply elem_of_cons in Hin as [[= <- <-]|Hin].
        -- left. rewrite decide_True by done. rewrite lookup_insert_eq. eauto.
        -- right. split; [done|]. by exists q0, qrest.
Qed.

Lemma isDirectDependency_false (moduleId : string) (requestedBy : list (list string)) :
  isDirectDependency moduleId requestedBy = Returns false →
  Forall (headedByOther moduleId) requestedBy.
Proof.
  unfold isDirectDependency. destruct (_ || _); [done|].
  apply isDirectDependency_range_false.
Qed.

Lemma headedByOther_nonempty (moduleId : string) (chains : list (list string)) :
  Forall (headedByOther moduleId) chains → Forall (λ chain, chain ≠ []) chains.
Proof. intros H. eapply Forall_impl; [exact H|]. by intros chain (p0 & rest & -> & _). Qed.

(** The body of the first loop never panics at [parent[0]]: the edges of a
    dependency are recorded only after [isDirectDependency] has returned
    false, and it returns false only after it has read the first element of
    every chain. *)
Lemma classifyDependency_edge_loop_safe (moduleId : string)
    (maps : gmap string Dependency * dependencyMultimap) (dependency : Dependency) :
  classifyDependency moduleId maps dependency ≠ Panics IndexOutOfRange_addModuleTree.
Proof.
  destruct maps as [dd dm]. unfold classifyDependency.
  destruct (isDirectDependency moduleId (Dependency_RequestedBy dependency))
    as [[|]|site|] eqn:Hdirect; simpl; try done.
  - apply isDirectDependency_false, headedByOther_nonempty in Hdirect.
    destruct (recordRequesters_total dm dependency _ Hdirect) as [dm' ->]. done.
  - apply isDirectDependency_panics in Hdirect as [-> _]. done.
Qed.

Lemma classifyDependency_never_out_of_fuel (moduleId : string)
    (maps : gmap string Dependency * dependencyMultimap) (dependency : Dependency) :
  classifyDependency moduleId maps dependency ≠ OutOfFuel.
Proof.
  destruct maps as [dd dm]. unfold classifyDependency.
  destruct (isDirectDependency moduleId (Dependency_RequestedBy dependency))
    as [[|]|site|] eqn:Hdirect; simpl; try done.
  - apply isDirectDependency_false, headedByOther_nonempty in Hdirect.
    destruct (recordRequesters_total dm dependency _ Hdirect) as [dm' ->]. done.
  - by apply isDirectDependency_never_out_of_fuel in Hdirect.
Qed.

Lemma classifyDependency_total (moduleId : string)
    (maps : gmap string Dependency * dependencyMultimap) (dependency : Dependency) :
  laterChainsNonEmpty (Dependency_RequestedBy dependency) →
  ∃ maps', classifyDependency moduleId maps dependency = Returns maps'.
Proof.
  intros Hlater. destruct maps as [dd dm]. unfold classifyDependency.
  destruct (isDirectDependency_total moduleId _ Hlater) as [b Hb]. rewrite Hb. simpl.
  destruct b; [eauto|].
  apply isDirectDependency_false, headedByOther_nonempty in Hb.
  destruct (recordRequesters_total dm dependency _ Hb) as [dm' ->]. simpl. eauto.
Qed.

(** The two maps after the first loop, started from any two maps. *)
Lemma classify_from (moduleId : string) (dependencies : list Dependency)
    (dd0 dd : gmap string Dependency) (dm0 dm : dependencyMultimap) :
  keyedById dm0 →
  forRange (classifyDependency moduleId) (dd0, dm0) dependencies = Returns (dd, dm) →
  keyedById dm ∧
  (∀ id d, dd !! id = Some d →
     dd0 !! id = Some d ∨
     (d ∈ dependencies ∧ Dependency_Id d = id ∧
      requestedDirectly moduleId (Dependency_RequestedBy d))) ∧
  (∀ id, is_Some (dd0 !! id) ∨
         (∃ d, d ∈ dependencies ∧ Dependency_Id d = id ∧
               requestedDirectly moduleId (Dependency_RequestedBy d)) →
         is_Some (dd !! id)) ∧
  (∀ parent key child, getChildren dm parent !! key = Some child →
     getChildren dm0 parent !! key = Some child ∨
     (child ∈ dependencies ∧ Dependency_Id child = key ∧
      requestedThrough moduleId parent child)) ∧
  (∀ parent key, is_Some (getChildren dm0 parent !! key) ∨
                 (∃ d, d ∈ dependencies ∧ Dependency_Id d = key ∧
                       requestedThrough moduleId parent d) →
                 is_Some (getChildren dm parent !! key)).
Proof.
  revert dd0 dm0.
  induction dependencies as [|dep deps IH]; intros dd0 dm0 Hkeyed Hrun; simpl in Hrun.
  { inversion Hrun; subst. split; [done|].
    repeat split; try (intros; by left).
    - intros id [?|(d & Hin & _)]; [done|by apply elem_of_nil in Hin].
    - intros parent key [?|(d & Hin & _)]; [done|by apply elem_of_nil in Hin]. }
  unfold classifyDependency in Hrun at 1.
  destruct (isDirectDependency moduleId (Dependency_RequestedBy dep))
    as [[|]|site|] eqn:Hdirect; simpl in Hrun; try done.
  - (* a direct dependency *)
    assert (requestedDirectly moduleId (Dependency_RequestedBy dep)) as Hspec
      by by apply (isDirectDependency_returns_spec _ _ _ Hdirect).
    destruct (IH _ _ Hkeyed Hrun) as (Hk & Hdd1 & Hdd2 & Hdm1 & Hdm2).
    split; [done|]. repeat split.
    + intros id d Hd. destruct (Hdd1 id d Hd) as [Hins|(Hin & Hid & Hreq)].
      * destruct (decide (Dependency_Id dep = id)) as [<-|Hne].
        -- rewrite lookup_insert_eq in Hins. injection Hins as <-. right.
           split; [by left|done].
        -- rewrite lookup_insert_ne in Hins by done. by left.
      * right. split; [by right|done].
    + intros id H. apply Hdd2. destruct H as [Hold|(d & Hin & Hid & Hreq)].
      * left. destruct (decide (Dependency_Id dep = id)) as [<-|Hne].
        -- rewrite lookup_insert_eq. eauto.
        -- by rewrite lookup_insert_ne.
      * apply elem_of_cons in Hin as [->|Hin].
        -- left. rewrite Hid, lookup_insert_eq. eauto.
        -- right. by exists d.
    + intros parent key child Hc.
      destruct (Hdm1 parent key child Hc) as [?|(Hin & ? & ?)]; [by left|].
      right. split; [by right|done].
    + intros parent key H. apply Hdm2. destruct H as [?|(d & Hin & Hid & Hthrough)];
        [by left|].
      apply elem_of_cons in Hin as [->|Hin]; [by destruct Hthrough|].
      right. by exists d.
  - (* an indirect dependency *)
    assert (¬ requestedDirectly moduleId (Dependency_RequestedBy dep)) as Hspec.
    { intros Hreq. by apply (isDirectDependency_returns_spec _ _ _ Hdirect) in Hreq. }
    destruct (recordRequesters dm0 dep (Dependency_RequestedBy dep)) as [dm1| |] eqn:Hrec;
      simpl in Hrun; try done.
    assert (keyedById dm1) as Hk1.
    { by destruct (recordRequesters_lookup dm0 dm1 dep _ "" "" dep Hkeyed Hrec). }
    destruct (IH _ _ Hk1 Hrun) as (Hk & Hdd1 & Hdd2 & Hdm1 & Hdm2).
    split; [done|]. repeat split.
    + intros id d Hd. destruct (Hdd1 id d Hd) as [?|(Hin & ? & ?)]; [by left|].
      right. split; [by right|done].
    + intros id H. apply Hdd2. destruct H as [?|(d & Hin & Hid & Hreq)]; [by left|].
      apply elem_of_cons in Hin as [->|Hin]; [done|]. right. by exists d.
    + intros parent key child Hc.
      destruct (Hdm1 parent key child Hc) as [H1|(Hin & ? & ?)].
      * destruct (recordRequesters_lookup dm0 dm1 dep _ parent key child Hkeyed Hrec)
          as (_ & Hsub & _).
        destruct (Hsub H1) as [?|(-> & -> & p0 & rest & Hin & ->)]; [by left|].
        right. split; [by left|]. split; [done|]. split; [done|]. by exists p0, rest.
      * right. split; [by right|done].
    + intros parent key H. apply Hdm2.
      destruct (recordRequesters_lookup dm0 dm1 dep _ parent key dep Hkeyed Hrec)
        as (_ & _ & Hsup).
      destruct H as [Hold|(d & Hin & Hid & Hthrough)].
      * left. apply Hsup. by left.
      * apply elem_of_cons in Hin as [->|Hin].
        -- left. apply Hsup. right. split; [done|]. by destruct Hthrough.
        -- right. by exists d.
Qed.

(** The first loop of [addModuleTree] puts into [directDependencies] exactly
    the ids of the dependencies the specification calls direct, and into the
    multimap, under the prefixed head of each of their chains, exactly the
    others. *)
Lemma classifyDependencies_partition (moduleId : string) (dependencies : list Dependency)
    (directDependencies : gmap string Dependency) (parentToChildren : dependencyMultimap) :
  classifyDependencies moduleId dependencies
  = Returns (directDependencies, parentToChildren) →
  (∀ id, is_Some (directDependencies !! id) ↔
         ∃ d, d ∈ dependencies ∧ Dependency_Id d = id ∧
              requestedDirectly moduleId (Dependency_RequestedBy d)) ∧
  (∀ parent key, is_Some (getChildren parentToChildren parent !! key) ↔
         ∃ d, d ∈ dependencies ∧ Dependency_Id d = key ∧
              requestedThrough moduleId parent d) ∧
  (∀ id d, directDependencies !! id = Some d →
           d ∈ dependencies ∧ Dependency_Id d = id) ∧
  (∀ parent key child, getChildren parentToChildren parent !! key = Some child →
           child ∈ dependencies ∧ Dependency_Id child = key).
Proof.
  intros Hrun.
  destruct (classify_from _ _ _ _ _ _ keyedById_new Hrun) as (_ & Hdd1 & Hdd2 & Hdm1 & Hdm2).
  repeat split.
  - intros [d Hd]. destruct (Hdd1 id d Hd) as [He|?]; [by rewrite lookup_empty in He|].
    by exists d.
  - intros H. apply Hdd2. by right.
  - intros [child Hc]. destruct (Hdm1 parent key child Hc) as [He|?];
      [by rewrite getChildren_new, lookup_empty in He|]. by exists child.
  - intros H. apply Hdm2. by right.
  - destruct (Hdd1 id d H) as [He|(? & ? & _)]; [by rewrite lookup_empty in He|done].
  - destruct (Hdd1 id d H) as [He|(? & ? & _)]; [by rewrite lookup_empty in He|done].
  - destruct (Hdm1 parent key child H) as [He|(? & ? & _)];
      [by rewrite getChildren_new, lookup_empty in He|done].
  - destruct (Hdm1 parent key child H) as [He|(? & ? & _)];
      [by rewrite getChildren_new, lookup_empty in He|done].
Qed.

(** ** The requested-by populator *)

Lemma hasLoop_spec (idsAdded : list string) (idToAdd : string) :
  hasLoop idsAdded idToAdd = true ↔ idToAdd ∈ idsAdded.
Proof.
  induction idsAdded as [|id rest IH]; simpl.
  - split; [done|]. by intros ?%elem_of_nil.
  - case_bool_decide as Hid.
    + subst. split; [|done]. intros _. by left.
    + rewrite IH, elem_of_cons. naive_solver.
Qed.

Lemma hasLoop_false (idsAdded : list string) (idToAdd : string) :
  hasLoop idsAdded idToAdd = false ↔ idToAdd ∉ idsAdded.
Proof. rewrite <- hasLoop_spec. by destruct (hasLoop idsAdded idToAdd). Qed.

Section RequestedByProperties.

Variable rangeMap : gmap string Dependency → list (string * Dependency).
Hypothesis rangeMap_perm : ∀ m, rangeMap m ≡ₚ map_to_list m.

Lemma rangeMap_lookup (m : gmap string Dependency) (key : string) (child : Dependency) :
  (key, child) ∈ rangeMap m ↔ m !! key = Some child.
Proof. rewrite rangeMap_perm. apply elem_of_map_to_list. Qed.

Lemma rangeMap_children (dm : dependencyMultimap) (parent key : string)
    (child : Dependency) :
  (key, child) ∈ rangeMap (getChildren dm parent) →
  Dependency_Id child ∈ multimapIds dm.
Proof.
  rewrite rangeMap_lookup, elem_of_multimapIds. intros H.
  by exists parent, key, child.
Qed.

(** *** Termination *)

(** With [U] the ids stored in the multimap: a call for an id of [U]
    returns as soon as the budget exceeds the number of ids of [U] that
    are not yet on the path. *)
Lemma populateTransitiveDependencies_returns_member (dm : dependencyMultimap)
    (fuel : nat) :
  ∀ (parent : GraphNode) (dependencyId : string) (idsAdded : list string)
    (uniqueDepsSet : gset string),
    dependencyId ∈ multimapIds dm →
    size (multimapIds dm ∖ list_to_set idsAdded) < fuel →
    ∃ r, populateTransitiveDependencies rangeMap fuel parent dependencyId dm
           idsAdded uniqueDepsSet = Returns r.
Proof.
  induction fuel as [|fuel IH]; intros parent d ids uniq Hd Hfuel; [lia|].
  simpl. destruct (hasLoop ids d) eqn:Hloop; [eauto|].
  apply hasLoop_false in Hloop.
  match goal with |- context [forRange ?body ?acc ?xs] =>
    destruct (forRange_returns (λ _, True) body xs acc) as ([node' uniq'] & -> & _)
  end; [done| |simpl; eauto].
  intros [node uniq1] [key child] Hin _. simpl.
  destruct (IH node (Dependency_Id child) (ids ++ [d]) uniq1) as [r ->]; [| |eauto].
  - by eapply rangeMap_children.
  - assert (multimapIds dm ∖ list_to_set (ids ++ [d])
            ⊂ multimapIds dm ∖ list_to_set ids) as Hsub.
    { rewrite list_to_set_app_L. split; [set_solver|].
      intros Hsup. specialize (Hsup d). set_solver. }
    apply subset_size in Hsub. lia.
Qed.

(** Any call returns on a budget of two more than the number of ids stored
    in the multimap, whatever cycles the edges form. *)
Lemma populateTransitiveDependencies_returns (dm : dependencyMultimap) (fuel : nat)
    (parent : GraphNode) (dependencyId : string) (idsAdded : list string)
    (uniqueDepsSet : gset string) :
  size (multimapIds dm) + 2 ≤ fuel →
  ∃ r, populateTransitiveDependencies rangeMap fuel parent dependencyId dm
         idsAdded uniqueDepsSet = Returns r.
Proof.
  intros Hfuel. destruct fuel as [|fuel]; [lia|].
  simpl. destruct (hasLoop idsAdded dependencyId) eqn:Hloop; [eauto|].
  match goal with |- context [forRange ?body ?acc ?xs] =>
    destruct (forRange_returns (λ _, True) body xs acc) as ([node' uniq'] & -> & _)
  end; [done| |simpl; eauto].
  intros [node uniq1] [key child] Hin _. simpl.
  destruct (populateTransitiveDependencies_returns_member dm fuel node
              (Dependency_Id child) (idsAdded ++ [dependencyId]) uniq1) as [r ->];
    [| |eauto].
  - by eapply rangeMap_children.
  - assert (size (multimapIds dm ∖ list_to_set (idsAdded ++ [dependencyId]))
            ≤ size (multimapIds dm)); [|lia].
    apply subseteq_size. set_solver.
Qed.

(** A larger budget does not change what a call returns. *)
Lemma populateTransitiveDependencies_fuel_S (dm : dependencyMultimap) (fuel : nat) :
  ∀ (parent : GraphNode) (dependencyId : string) (idsAdded : list string)
    (uniqueDepsSet : gset string) (r : GraphNode * gset string),
    populateTransitiveDependencies rangeMap fuel parent dependencyId dm
      idsAdded uniqueDepsSet = Returns r →
    populateTransitiveDependencies rangeMap (S fuel) parent dependencyId dm
      idsAdded uniqueDepsSet = Returns r.
Proof.
  induction fuel as [|fuel IH]; intros parent d ids uniq r Hrun; [done|].
  cbn [populateTransitiveDependencies] in Hrun.
  change (populateTransitiveDependencies rangeMap (S (S fuel)) parent d dm ids uniq)
    with (if hasLoop ids d then Returns (parent, uniq)
          else
            '(node', uniqueDepsSet') ←
              forRange
                (λ '(node, uniqueDepsSet) '(_, child),
                   populateTransitiveDependencies rangeMap (S fuel) node
                     (Dependency_Id child) dm (ids ++ [d]) uniqueDepsSet)
                (mkGraphNode (GavPackageTypeIdentifier +:+ d) [] None,
                 {[ GavPackageTypeIdentifier +:+ d ]} ∪ uniq)
                (rangeMap (getChildren dm (GavPackageTypeIdentifier +:+ d)));
            Returns (appendNode parent node', uniqueDepsSet')).
  destruct (hasLoop ids d); [done|].
  match type of Hrun with context [forRange ?body ?acc ?xs] =>
    destruct (forRange body acc xs) as [[node' uniq']| |] eqn:Hloop; simpl in Hrun; try done
  end.
  match goal with |- context [forRange ?body' ?acc ?xs] =>
    assert (forRange body' acc xs = Returns (node', uniq')) as ->
  end; [|exact Hrun].
  eapply forRange_returns_mono; [|exact Hloop].
  intros [node uniq1] [key child] r'. apply IH.
Qed.

Lemma populateTransitiveDependencies_fuel_mono (dm : dependencyMultimap)
    (fuel fuel' : nat) (parent : GraphNode) (dependencyId : string)
    (idsAdded : list string) (uniqueDepsSet : gset string) (r : GraphNode * gset string) :
  fuel ≤ fuel' →
  populateTransitiveDependencies rangeMap fuel parent dependencyId dm
    idsAdded uniqueDepsSet = Returns r →
  populateTransitiveDependencies rangeMap fuel' parent dependencyId dm
    idsAdded uniqueDepsSet = Returns r.
Proof.
  induction 1 as [|fuel' _ IH]; [done|].
  intros Hrun. by apply populateTransitiveDependencies_fuel_S, IH.
Qed.

(** *** What a call does to its parent and to the set *)

Lemma populateTransitiveDependencies_effect (dm : dependencyMultimap) (fuel : nat) :
  ∀ (parent : GraphNode) (dependencyId : string) (idsAdded : list string)
    (uniqueDepsSet : gset string) (parent' : GraphNode) (uniqueDepsSet' : gset string),
    populateTransitiveDependencies rangeMap fuel parent dependencyId dm
      idsAdded uniqueDepsSet = Returns (parent', uniqueDepsSet') →
    transitiveEffect dm parent dependencyId idsAdded uniqueDepsSet parent' uniqueDepsSet'.
Proof.
  induction fuel as [|fuel IH]; intros parent d ids uniq parent' uniq' Hrun; [done|].
  simpl in Hrun. unfold transitiveEffect.
  destruct (hasLoop ids d) eqn:Hloop.
  { left. apply hasLoop_spec in Hloop. by inversion Hrun; subst. }
  apply hasLoop_false in Hloop. right. split; [done|].
  set (pd := GavPackageTypeIdentifier +:+ d) in *.
  match type of Hrun with context [forRange ?body ?acc ?xs] =>
    destruct (forRange body acc xs) as [[node' uniq1]| |] eqn:Hloop'; simpl in Hrun;
      try done;
    pose proof (forRange_invariant
      (λ st, ∃ sub : gset string,
         GraphNode_Id st.1 = pd ∧ GraphNode_Parent st.1 = None ∧
         graphIds st.1 = {[ pd ]} ∪ sub ∧
         forestIds (GraphNode_Nodes st.1) = sub ∧
         st.2 = {[ pd ]} ∪ uniq ∪ sub ∧
         ∀ id, id ∈ sub → ∃ raw, id = GavPackageTypeIdentifier +:+ raw ∧
                                 (raw ∉ ids ++ [d]) ∧ raw ∈ multimapIds dm)
      body xs acc (node', uniq1)) as Hinv
  end.
  inversion Hrun; subst parent' uniq'; clear Hrun.
  destruct Hinv as (sub & Hid & Hpar & Hids & Hforest & Huniq & Hsub); [| |done|].
  - exists ∅. cbn [fst snd GraphNode_Id GraphNode_Parent GraphNode_Nodes].
    rewrite graphIds_node. unfold forestIds. cbn [fmap list_fmap union_list].
    repeat split; [set_solver..|]. intros id Hin. set_solver.
  - intros [node uniq2] [key child] [node2 uniq3] Hin
      (sub & Hid & Hpar & Hids & Hforest & Huniq & Hsub) Hbody.
    cbn [fst snd] in *. apply IH in Hbody.
    destruct Hbody as [(Hc & -> & ->)|Hnode]; [|destruct Hnode as
      (Hc & nodeC & subC & -> & HidC & HparC & HidsC & HforC & -> & HsubC)].
    + exists sub. done.
    + exists (sub ∪ ({[ GavPackageTypeIdentifier +:+ Dependency_Id child ]} ∪ subC)).
      rewrite graphIds_appendNode, Hids, HidsC.
      destruct node as [i ns p].
      cbn [appendNode GraphNode_Id GraphNode_Parent GraphNode_Nodes] in *.
      rewrite forestIds_app, forestIds_singleton, HidsC, Hforest, Huniq.
      repeat split; [set_solver..|].
      intros id [Hin'|[Hin'|Hin']%elem_of_union]%elem_of_union.
      * by apply Hsub.
      * apply elem_of_singleton in Hin' as ->.
        exists (Dependency_Id child). split; [done|]. split; [done|].
        by eapply rangeMap_children.
      * destruct (HsubC id Hin') as (raw & -> & Hraw & HU).
        exists raw. split; [done|]. split; [|done].
        intros Hin''. apply Hraw. apply elem_of_app. by left.
  - cbn [fst snd] in *. exists node', sub. done.
Qed.

End RequestedByProperties.

(** ** addModuleTree *)

Lemma size_list_to_set_le (l : list string) :
  size (list_to_set l : gset string) ≤ length l.
Proof.
  induction l as [|x l IH]; cbn [length].
  { rewrite list_to_set_nil, size_empty. lia. }
  rewrite list_to_set_cons, size_union_alt, size_singleton.
  assert (size ((list_to_set l : gset string) ∖ {[x]}) ≤ size (list_to_set l : gset string))
    by (apply subseteq_size; set_solver).
  lia.
Qed.

Lemma classifyDependency_panics (moduleId : string)
    (maps : gmap string Dependency * dependencyMultimap) (dependency : Dependency)
    (site : PanicSite) :
  classifyDependency moduleId maps dependency = Panics site →
  site = IndexOutOfRange_isDirectDependency ∧
  isDirectDependency moduleId (Dependency_RequestedBy dependency) = Panics site.
Proof.
  destruct maps as [dd dm]. unfold classifyDependency.
  destruct (isDirectDependency moduleId (Dependency_RequestedBy dependency))
    as [[|]|site'|] eqn:Hdirect; simpl; try done.
  - apply isDirectDependency_false, headedByOther_nonempty in Hdirect.
    destruct (recordRequesters_total dm dependency _ Hdirect) as [dm' ->]. done.
  - intros [= ->]. by apply isDirectDependency_panics in Hdirect as [-> _].
Qed.

(** The first loop returns, or panics in [isDirectDependency] on one of the
    dependencies. *)
Lemma classifyDependencies_outcome (moduleId : string) (dependencies : list Dependency) :
  (∃ maps, classifyDependencies moduleId dependencies = Returns maps) ∨
  (classifyDependencies moduleId dependencies = Panics IndexOutOfRange_isDirectDependency ∧
   ∃ d, d ∈ dependencies ∧
        isDirectDependency moduleId (Dependency_RequestedBy d)
        = Panics IndexOutOfRange_isDirectDependency).
Proof.
  unfold classifyDependencies.
  destruct (forRange _ _ dependencies) as [maps|site|] eqn:Hrun.
  - left. by exists maps.
  - right. destruct (forRange_panics_inv _ _ _ _ Hrun) as (acc & d & Hin & Hd).
    apply classifyDependency_panics in Hd as [-> Hd]. split; [done|]. by exists d.
  - destruct (forRange_out_of_fuel_inv _ _ _ Hrun) as (acc & d & Hin & Hd).
    by apply classifyDependency_never_out_of_fuel in Hd.
Qed.

Lemma classifyDependencies_total (moduleId : string) (dependencies : list Dependency) :
  (∀ d, d ∈ dependencies → laterChainsNonEmpty (Dependency_RequestedBy d)) →
  ∃ maps, classifyDependencies moduleId dependencies = Returns maps.
Proof.
  intros Hpre. unfold classifyDependencies.
  destruct (forRange_returns (λ _, True) (classifyDependency moduleId) dependencies
              (∅, newDependencyMultimap)) as (maps & Hmaps & _); [done| |by exists maps].
  intros acc d Hin _.
  destruct (classifyDependency_total moduleId acc d (Hpre d Hin)) as [maps Hmaps].
  by exists maps.
Qed.

Lemma classifyDependencies_multimapIds (module : Module_)
    (directDependencies : gmap string Dependency) (parentToChildren : dependencyMultimap) :
  classifyDependencies (Module_Id module) (Module_Dependencies module)
  = Returns (directDependencies, parentToChildren) →
  multimapIds parentToChildren ⊆ dependencyIds module ∧
  size (multimapIds parentToChildren) + 2 ≤ length (Module_Dependencies module) + 2.
Proof.
  intros Hrun. apply classifyDependencies_partition in Hrun as (_ & _ & _ & Hdm).
  assert (multimapIds parentToChildren ⊆ dependencyIds module) as Hsub.
  { intros id (parent & key & child & Hchild & <-)%elem_of_multimapIds.
    destruct (Hdm _ _ _ Hchild) as [Hin _].
    apply elem_of_list_to_set, list_elem_of_fmap. by exists child. }
  split; [done|].
  apply subseteq_size in Hsub.
  pose proof (size_list_to_set_le (Dependency_Id <$> Module_Dependencies module)) as Hle.
  rewrite length_fmap in Hle. unfold dependencyIds in Hsub. lia.
Qed.

Section AddModuleTreeProperties.

Variable rangeMap : gmap string Dependency → list (string * Dependency).
Hypothesis rangeMap_perm : ∀ m, rangeMap m ≡ₚ map_to_list m.

(** The second loop of [addModuleTree] (javautils.go:94-96) appends one
    node per visited direct dependency, in the order of the visit. *)
Lemma directDependencies_loop (dm : dependencyMultimap) (fuel : nat)
    (entries : list (string * Dependency)) :
  ∀ (moduleTree : GraphNode) (uniqueDepsSet : gset string) (moduleTree' : GraphNode)
    (uniqueDepsSet' : gset string),
    forRange
      (λ '(moduleTree, uniqueDepsSet) '(_, directDependency),
         populateTransitiveDependencies rangeMap fuel moduleTree
           (Dependency_Id directDependency) dm [] uniqueDepsSet)
      (moduleTree, uniqueDepsSet) entries
    = Returns (moduleTree', uniqueDepsSet') →
    ∃ nodes,
      moduleTree' = mkGraphNode (GraphNode_Id moduleTree)
                      (GraphNode_Nodes moduleTree ++ nodes) (GraphNode_Parent moduleTree) ∧
      GraphNode_Id <$> nodes
      = (λ entry, GavPackageTypeIdentifier +:+ Dependency_Id entry.2) <$> entries ∧
      uniqueDepsSet' = uniqueDepsSet ∪ forestIds nodes ∧
      ∀ id, id ∈ forestIds nodes →
            ∃ raw, id = GavPackageTypeIdentifier +:+ raw ∧
                   (raw ∈ Dependency_Id <$> entries.*2 ∨ raw ∈ multimapIds dm).
Proof.
  induction entries as [|[key d] entries IH];
    intros tree uniq tree' uniq' Hrun; simpl in Hrun.
  { inversion Hrun; subst. exists []. rewrite app_nil_r. destruct tree'.
    unfold forestIds. simpl. repeat split; [set_solver|]. set_solver. }
  destruct (populateTransitiveDependencies rangeMap fuel tree (Dependency_Id d) dm [] uniq)
    as [[tree1 uniq1]| |] eqn:Hcall; simpl in Hrun; try done.
  apply (populateTransitiveDependencies_effect rangeMap rangeMap_perm) in Hcall.
  destruct Hcall as [(Hin & _)|(_ & node & sub & -> & Hid & _ & Hids & _ & -> & Hsub)];
    [by apply elem_of_nil in Hin|].
  destruct (IH _ _ _ _ Hrun) as (nodes & -> & Hnodes & -> & Hgood).
  exists (node :: nodes). destruct tree as [i ns p].
  cbn [appendNode GraphNode_Id GraphNode_Nodes GraphNode_Parent].
  rewrite <- app_assoc. split; [done|]. split; [by rewrite !fmap_cons, Hid, Hnodes|].
  change (node :: nodes) with ([node] ++ nodes).
  rewrite forestIds_app, forestIds_singleton, Hids. split; [set_solver|].
  intros id [[Hd|Hin]%elem_of_union|Hin]%elem_of_union.
  - apply elem_of_singleton in Hd as ->. exists (Dependency_Id d).
    split; [done|]. left. rewrite !fmap_cons. by left.
  - destruct (Hsub id Hin) as (raw & -> & _ & HU). exists raw. split; [done|]. by right.
  - destruct (Hgood id Hin) as (raw & -> & [Hraw|Hraw]); exists raw; (split; [done|]).
    + left. rewrite !fmap_cons. by right.
    + by right.
Qed.

(** The tree of a module: its root is the prefixed module id, the children
    of the root are the nodes of the direct dependencies in the order of
    the visit, the set receives exactly the ids of the tree, and every id
    of the tree is the prefixed id of the module or of one of its
    dependencies. *)
Lemma addModuleTree_effect (module : Module_) (uniqueDepsSet : gset string)
    (moduleTree : GraphNode) (uniqueDepsSet' : gset string) :
  addModuleTree rangeMap module uniqueDepsSet = Returns (moduleTree, uniqueDepsSet') →
  ∃ directDependencies parentToChildren,
    classifyDependencies (Module_Id module) (Module_Dependencies module)
    = Returns (directDependencies, parentToChildren) ∧
    GraphNode_Id moduleTree = GavPackageTypeIdentifier +:+ Module_Id module ∧
    GraphNode_Parent moduleTree = None ∧
    GraphNode_Id <$> GraphNode_Nodes moduleTree
    = (λ entry, GavPackageTypeIdentifier +:+ Dependency_Id entry.2)
        <$> rangeMap directDependencies ∧
    uniqueDepsSet' = uniqueDepsSet ∪ graphIds moduleTree ∧
    ∀ id, id ∈ graphIds moduleTree →
          ∃ raw, id = GavPackageTypeIdentifier +:+ raw ∧
                 (raw = Module_Id module ∨ raw ∈ dependencyIds module).
Proof.
  unfold addModuleTree. intros Hrun.
  destruct (classifyDependencies (Module_Id module) (Module_Dependencies module))
    as [[dd dm]| |] eqn:Hclass; simpl in Hrun; try done.
  exists dd, dm. split; [done|].
  apply directDependencies_loop in Hrun as (nodes & -> & Hnodes & -> & Hgood).
  cbn [GraphNode_Id GraphNode_Nodes GraphNode_Parent app].
  rewrite graphIds_node. repeat split; [done|set_solver|].
  pose proof (classifyDependencies_multimapIds _ _ _ Hclass) as [HU _].
  apply classifyDependencies_partition in Hclass as (_ & _ & Hdd & _).
  intros id [Hroot|Hin]%elem_of_union.
  - apply elem_of_singleton in Hroot as ->. exists (Module_Id module). split; [done|by left].
  - destruct (Hgood id Hin) as (raw & -> & [Hraw|Hraw]); exists raw; (split; [done|]);
      right; [|by apply HU].
    apply list_elem_of_fmap in Hraw as (d & -> & Hd).
    apply list_elem_of_fmap in Hd as ([key d'] & -> & Hentry).
    apply (rangeMap_lookup rangeMap rangeMap_perm) in Hentry.
    destruct (Hdd _ _ Hentry) as [Hindeps _].
    apply elem_of_list_to_set, list_elem_of_fmap. by exists d'.
Qed.

(** [addModuleTree] returns, or panics in [isDirectDependency]; its budget
    for the recursion is never used up. *)
Lemma addModuleTree_outcome (module : Module_) (uniqueDepsSet : gset string) :
  (∃ r, addModuleTree rangeMap module uniqueDepsSet = Returns r) ∨
  (addModuleTree rangeMap module uniqueDepsSet = Panics IndexOutOfRange_isDirectDependency ∧
   ∃ d, d ∈ Module_Dependencies module ∧
        isDirectDependency (Module_Id module) (Dependency_RequestedBy d)
        = Panics IndexOutOfRange_isDirectDependency).
Proof.
  unfold addModuleTree.
  destruct (classifyDependencies_outcome (Module_Id module) (Module_Dependencies module))
    as [[[dd dm] Hclass]|[Hclass Hd]]; rewrite Hclass; simpl; [left|by right].
  match goal with |- context [forRange ?body ?acc ?xs] =>
    destruct (forRange_returns (λ _, True) body xs acc) as (r & -> & _)
  end; [done| |eauto].
  intros [tree uniq] [key d] _ _. simpl.
  destruct (populateTransitiveDependencies_returns rangeMap rangeMap_perm dm
              (transitiveFuel module) tree (Dependency_Id d) [] uniq) as [r ->]; [|eauto].
  by destruct (classifyDependencies_multimapIds _ _ _ Hclass).
Qed.

Lemma addModuleTree_total (module : Module_) (uniqueDepsSet : gset string) :
  (∀ d, d ∈ Module_Dependencies module →
        laterChainsNonEmpty (Dependency_RequestedBy d)) →
  ∃ r, addModuleTree rangeMap module uniqueDepsSet = Returns r.
Proof.
  intros Hpre.
  destruct (addModuleTree_outcome module uniqueDepsSet) as [?|[_ (d & Hin & Hd)]]; [done|].
  destruct (isDirectDependency_total (Module_Id module) _ (Hpre d Hin)) as [b Hb].
  congruence.
Qed.

(** The module loop of [createGavDependencyTree] (javautils.go:66-68). *)
Lemma createGavDependencyTree_loop (ms : list Module_) :
  ∀ (trees0 : list GraphNode) (uniq0 : gset string) trees1 uniq1,
    forRange
      (λ '(modules, uniqueDepsSet) module,
         '(tree, uniqueDepsSet') ← addModuleTree rangeMap module uniqueDepsSet;
         Returns (modules ++ [tree], uniqueDepsSet'))
      (trees0, uniq0) ms = Returns (trees1, uniq1) →
    ∃ new, trees1 = trees0 ++ new ∧
           Forall2 (λ module tree, ∃ uniq uniq',
                      addModuleTree rangeMap module uniq = Returns (tree, uniq')) ms new ∧
           uniq1 = uniq0 ∪ forestIds new.
Proof.
  induction ms as [|m ms IH]; intros trees0 uniq0 trees1 uniq1 H; simpl in H.
  - inversion H; subst. exists []. rewrite app_nil_r, forestIds_nil.
    repeat split; [constructor|set_solver].
  - destruct (addModuleTree rangeMap m uniq0) as [[tree uniq2]| |] eqn:Hadd;
      simpl in H; try done.
    pose proof Hadd as Hadd'.
    apply addModuleTree_effect in Hadd as (_ & _ & _ & _ & _ & _ & -> & _).
    destruct (IH _ _ _ _ H) as (new & -> & Hnew & ->).
    exists (tree :: new). rewrite <- app_assoc. split; [done|].
    split; [constructor; [by exists uniq0, (uniq0 ∪ graphIds tree)|done]|].
    rewrite forestIds_cons. set_solver.
Qed.

(** The graph and the unique ids of [createGavDependencyTree]: without
    error, one tree per module of the first build in the order of the
    modules, each built by [addModuleTree]; with an error, no tree; and as
    unique ids exactly the ids of the trees. *)
Lemma createGavDependencyTree_effect {error : Type} (couldntFindBuild : error)
    (generated : list BuildInfo * option error) (trees : list GraphNode)
    (uniqueDeps : list string) (err : option error) :
  createGavDependencyTree rangeMap couldntFindBuild generated
  = Returns (trees, uniqueDeps, err) →
  match err with
  | Some e =>
      trees = [] ∧ (generated.2 = Some e ∨ generated = ([], None) ∧ e = couldntFindBuild)
  | None =>
      ∃ buildInfo rest,
        generated = (buildInfo :: rest, None) ∧
        Forall2 (λ module tree, ∃ uniq uniq',
                   addModuleTree rangeMap module uniq = Returns (tree, uniq'))
          (BuildInfo_Modules buildInfo) trees
  end ∧
  list_to_set uniqueDeps = forestIds trees ∧
  NoDup uniqueDeps.
Proof.
  unfold createGavDependencyTree. destruct generated as [[|buildInfo rest] [e|]].
  - intros [= <- <- <-]. repeat split; [by left|constructor].
  - intros [= <- <- <-]. repeat split; [by right|constructor].
  - intros [= <- <- <-]. repeat split; [by left|constructor].
  - destruct (forRange _ _ (BuildInfo_Modules buildInfo)) as [[trees' uniq]| |] eqn:Hloop;
      simpl; try done.
    intros [= <- <- <-].
    destruct (createGavDependencyTree_loop _ _ _ _ _ Hloop) as (new & -> & Hall & ->).
    split; [by exists buildInfo, rest|]. split; [|apply NoDup_elements].
    rewrite list_to_set_elements_L. simpl. set_solver.
Qed.

End AddModuleTreeProperties.

(** ** The plugin-tree populator *)

Lemma idRecursAt_spec (id : string) (parent : ParentRef) :
  idRecursAt id parent = true ↔ id ∈ refIds parent.
Proof.
  induction parent as [parentId|parentId grandParent IH] using ParentRef_chain_ind; simpl.
  - case_bool_decide as Hid.
    + subst. split; [|done]. intros _. by left.
    + rewrite list_elem_of_singleton. naive_solver.
  - case_bool_decide as Hid.
    + subst. split; [|done]. intros _. by left.
    + rewrite IH, elem_of_cons. naive_solver.
Qed.

(** The guard reports that the id of the current node recurs among its
    ancestors. *)
Lemma NodeHasLoop_spec (currNode : GraphNode) :
  NodeHasLoop currNode = true ↔
  GraphNode_Id currNode ∈ ancestorIds (GraphNode_Parent currNode).
Proof.
  unfold NodeHasLoop, ancestorIds. destruct (GraphNode_Parent currNode) as [parent|].
  - apply idRecursAt_spec.
  - split; [done|]. by intros ?%elem_of_nil.
Qed.

Lemma ancestorIds_refTo (n : GraphNode) :
  ancestorIds (Some (refTo n)) = GraphNode_Id n :: ancestorIds (GraphNode_Parent n).
Proof. unfold refTo, ancestorIds. simpl. by destruct (GraphNode_Parent n). Qed.

Lemma childrenOf_absent (moduleTree : moduleDepTree) (currNodeId : string) :
  moduleDepTree_Nodes moduleTree !! currNodeId = None →
  childrenOf moduleTree currNodeId = [].
Proof. unfold childrenOf. by intros ->. Qed.

Lemma elem_of_listedChildren (moduleTree : moduleDepTree) (childId : string) :
  childId ∈ listedChildren moduleTree ↔
  ∃ parentId, childId ∈ childrenOf moduleTree parentId.
Proof.
  unfold listedChildren, childrenOf. rewrite elem_of_union_list. split.
  - intros (X & HX & Hin). apply list_elem_of_fmap in HX as ([parentId node] & -> & Hentry).
    apply elem_of_map_to_list in Hentry. simpl in Hin. apply elem_of_list_to_set in Hin.
    exists parentId. by rewrite Hentry.
  - intros (parentId & Hin).
    destruct (moduleDepTree_Nodes moduleTree !! parentId) as [node|] eqn:Hnode;
      [|by apply elem_of_nil in Hin].
    exists (list_to_set (depTreeNode_Children node)). split.
    + apply list_elem_of_fmap. exists (parentId, node).
      split; [done|by apply elem_of_map_to_list].
    + by apply elem_of_list_to_set.
Qed.

(** *** Termination *)

(** With [A] the raw ids of the ancestors of the current node, all of them
    keys of [Nodes]: the call returns as soon as the budget exceeds the
    number of keys that are not among the ancestors. *)
Lemma populateDependencyTree_returns_below (moduleTree : moduleDepTree) (fuel : nat) :
  ∀ (currNode : GraphNode) (currNodeId : string) (uniqueDepsSet : gset string)
    (ancestors : list string),
    GraphNode_Id currNode = GavPackageTypeIdentifier +:+ currNodeId →
    ancestorIds (GraphNode_Parent currNode)
    = (λ a, GavPackageTypeIdentifier +:+ a) <$> ancestors →
    (∀ a, a ∈ ancestors → a ∈ dom (moduleDepTree_Nodes moduleTree)) →
    size (dom (moduleDepTree_Nodes moduleTree) ∖ list_to_set ancestors) < fuel →
    ∃ r, populateDependencyTree fuel currNode currNodeId moduleTree uniqueDepsSet
         = Returns r.
Proof.
  induction fuel as [|fuel IH]; intros curr currId uniq A Hid Hanc HA Hfuel; [lia|].
  simpl. destruct (NodeHasLoop curr) eqn:Hloop; [eauto|].
  assert (currId ∉ A) as HcurrA.
  { intros Hin. apply not_true_iff_false in Hloop. apply Hloop, NodeHasLoop_spec.
    rewrite Hid, Hanc. apply list_elem_of_fmap. by exists currId. }
  destruct (moduleDepTree_Nodes moduleTree !! currId) as [node|] eqn:Hnode;
    [|rewrite childrenOf_absent by done; simpl; eauto].
  match goal with |- context [forRange ?body ?acc ?xs] =>
    destruct (forRange_returns
      (λ st, GraphNode_Id st.1 = GraphNode_Id curr ∧
             GraphNode_Parent st.1 = GraphNode_Parent curr) body xs acc)
      as (r & -> & _)
  end; [done| |eauto].
  intros [curr1 uniq1] childId _ [Hid1 Hpar1]. cbn [fst snd] in *.
  destruct (IH (mkGraphNode (GavPackageTypeIdentifier +:+ childId) []
                  (Some (refTo curr1)))
              childId ({[GavPackageTypeIdentifier +:+ childId]} ∪ uniq1)
              (currId :: A)) as [[child' uniq'] ->].
  - done.
  - cbn [GraphNode_Parent]. by rewrite ancestorIds_refTo, Hid1, Hpar1, Hid, Hanc.
  - intros a [->|Hin]%elem_of_cons; [|by apply HA]. apply elem_of_dom. eauto.
  - assert (dom (moduleDepTree_Nodes moduleTree) ∖ list_to_set (currId :: A)
            ⊂ dom (moduleDepTree_Nodes moduleTree) ∖ list_to_set A) as Hsub.
    { rewrite list_to_set_cons. split; [set_solver|].
      intros Hsup. specialize (Hsup currId).
      assert (currId ∈ dom (moduleDepTree_Nodes moduleTree)) by (apply elem_of_dom; eauto).
      set_solver. }
    apply subset_size in Hsub. lia.
  - simpl. eexists. split; [done|]. by destruct curr1.
Qed.

(** From a root without parent, the budget [depTreeFuel] is enough, whatever
    cycles [Nodes] describes. *)
Lemma populateDependencyTree_returns (moduleTree : moduleDepTree) (fuel : nat)
    (root : string) (nodes : list GraphNode) (uniqueDepsSet : gset string) :
  depTreeFuel moduleTree ≤ fuel →
  ∃ r, populateDependencyTree fuel
         (mkGraphNode (GavPackageTypeIdentifier +:+ root) nodes None)
         root moduleTree uniqueDepsSet = Returns r.
Proof.
  unfold depTreeFuel. intros Hfuel.
  apply (populateDependencyTree_returns_below moduleTree fuel _ root uniqueDepsSet []);
    [done|done|by intros a ?%elem_of_nil|].
  assert (size (dom (moduleDepTree_Nodes moduleTree) ∖ list_to_set [])
          ≤ size (dom (moduleDepTree_Nodes moduleTree)))
    by (apply subseteq_size; set_solver).
  rewrite size_dom in *. lia.
Qed.

(** A larger budget does not change what a call returns. *)
Lemma populateDependencyTree_fuel_S (moduleTree : moduleDepTree) (fuel : nat) :
  ∀ (currNode : GraphNode) (currNodeId : string) (uniqueDepsSet : gset string)
    (r : GraphNode * gset string),
    populateDependencyTree fuel currNode currNodeId moduleTree uniqueDepsSet = Returns r →
    populateDependencyTree (S fuel) currNode currNodeId moduleTree uniqueDepsSet
    = Returns r.
Proof.
  induction fuel as [|fuel IH]; intros curr currId uniq r Hrun; [done|].
  cbn [populateDependencyTree] in Hrun.
  change (populateDependencyTree (S (S fuel)) curr currId moduleTree uniq)
    with (if NodeHasLoop curr then Returns (curr, uniq)
          else
            forRange
              (λ '(currNode, uniqueDepsSet) childId,
                 let childGav := GavPackageTypeIdentifier +:+ childId in
                 let childNode := mkGraphNode childGav [] (Some (refTo currNode)) in
                 let uniqueDepsSet := {[ childGav ]} ∪ uniqueDepsSet in
                 '(childNode', uniqueDepsSet') ←
                   populateDependencyTree (S fuel) childNode childId moduleTree
                     uniqueDepsSet;
                 Returns (appendNode currNode childNode', uniqueDepsSet'))
              (curr, uniq) (childrenOf moduleTree currId)).
  destruct (NodeHasLoop curr); [done|].
  eapply forRange_returns_mono; [|exact Hrun].
  intros [curr1 uniq1] c r' Hbody. cbn zeta in *.
  destruct (populateDependencyTree fuel _ c moduleTree _) as [[child' uniq']| |] eqn:Hchild;
    try (by cbn [mbind outcome_bind] in Hbody).
  rewrite (IH _ _ _ _ Hchild). exact Hbody.
Qed.

Lemma populateDependencyTree_fuel_mono (moduleTree : moduleDepTree) (fuel fuel' : nat)
    (currNode : GraphNode) (currNodeId : string) (uniqueDepsSet : gset string)
    (r : GraphNode * gset string) :
  fuel ≤ fuel' →
  populateDependencyTree fuel currNode currNodeId moduleTree uniqueDepsSet = Returns r →
  populateDependencyTree fuel' currNode currNodeId moduleTree uniqueDepsSet = Returns r.
Proof.
  induction 1 as [|fuel' _ IH]; [done|].
  intros Hrun. by apply populateDependencyTree_fuel_S, IH.
Qed.

(** *** What a call does to the current node and to the set *)

Lemma populateDependencyTree_effect (moduleTree : moduleDepTree) (fuel : nat) :
  ∀ (currNode : GraphNode) (currNodeId : string) (uniqueDepsSet : gset string)
    (currNode' : GraphNode) (uniqueDepsSet' : gset string),
    populateDependencyTree fuel currNode currNodeId moduleTree uniqueDepsSet
    = Returns (currNode', uniqueDepsSet') →
    pluginEffect moduleTree currNode currNodeId uniqueDepsSet currNode' uniqueDepsSet'.
Proof.
  induction fuel as [|fuel IH]; intros curr currId uniq curr' uniq' Hrun; [done|].
  simpl in Hrun. unfold pluginEffect. destruct (NodeHasLoop curr) eqn:Hloop.
  { inversion Hrun; subst. exists []. rewrite app_nil_r, forestIds_nil.
    destruct curr'. repeat split; [set_solver|]. by intros id ?%elem_of_empty. }
  assert (∀ (cs : list string) curr1 uniq1 curr2 uniq2,
    (∀ c, c ∈ cs → c ∈ listedChildren moduleTree) →
    forRange
      (λ '(currNode, uniqueDepsSet) childId,
         let childGav := GavPackageTypeIdentifier +:+ childId in
         let childNode := mkGraphNode childGav [] (Some (refTo currNode)) in
         let uniqueDepsSet := {[ childGav ]} ∪ uniqueDepsSet in
         '(childNode', uniqueDepsSet') ←
           populateDependencyTree fuel childNode childId moduleTree uniqueDepsSet;
         Returns (appendNode currNode childNode', uniqueDepsSet'))
      (curr1, uniq1) cs = Returns (curr2, uniq2) →
    ∃ nodes,
      curr2 = mkGraphNode (GraphNode_Id curr1) (GraphNode_Nodes curr1 ++ nodes)
                (GraphNode_Parent curr1) ∧
      uniq2 = uniq1 ∪ forestIds nodes ∧
      (∀ id, id ∈ forestIds nodes →
             ∃ raw, id = GavPackageTypeIdentifier +:+ raw ∧
                    raw ∈ listedChildren moduleTree) ∧
      GraphNode_Id <$> nodes = (λ childId, GavPackageTypeIdentifier +:+ childId) <$> cs ∧
      Forall (λ n, GraphNode_Parent n = Some (refTo curr1) ∧
                   (NodeHasLoop n = true → GraphNode_Nodes n = [])) nodes) as Hloop'.
  { induction cs as [|c cs IHcs]; intros curr1 uniq1 curr2 uniq2 Hlisted H; simpl in H.
    - inversion H; subst. exists []. rewrite app_nil_r, forestIds_nil.
      destruct curr2. repeat split; [set_solver| |done].
      by intros id ?%elem_of_empty.
    - destruct (populateDependencyTree fuel _ c moduleTree _) as [[child' uniq3]| |] eqn:Hchild;
        simpl in H; try done.
      apply IH in Hchild as (ns & -> & -> & Hgood & Hleaf).
      cbn [GraphNode_Id GraphNode_Nodes GraphNode_Parent app] in *.
      apply IHcs in H as (nodes & -> & -> & Hgood' & Hids & Hpar);
        [|intros; apply Hlisted; by right].
      rewrite refTo_appendNode in Hpar.
      set (child' := mkGraphNode (GavPackageTypeIdentifier +:+ c) ns (Some (refTo curr1))) in *.
      exists (child' :: nodes). destruct curr1 as [i1 ns1 p1].
      cbn [appendNode GraphNode_Id GraphNode_Nodes GraphNode_Parent].
      rewrite <- app_assoc. split; [done|].
      rewrite forestIds_cons. unfold child' at 1 2. rewrite graphIds_node.
      split; [set_solver|]. split; [|split].
      + intros id [[Hc|Hin]%elem_of_union|Hin]%elem_of_union.
        * apply elem_of_singleton in Hc as ->. exists c. split; [done|].
          apply Hlisted. by left.
        * by apply Hgood.
        * by apply Hgood'.
      + by rewrite !fmap_cons, Hids.
      + constructor; [|done]. split; [done|]. intros Hrepeat.
        unfold child', NodeHasLoop in *.
        cbn [GraphNode_Id GraphNode_Nodes GraphNode_Parent] in *.
        by rewrite Hrepeat in Hleaf. }
  apply Hloop' in Hrun as (nodes & -> & -> & Hgood & Hids & Hpar).
  - exists nodes. done.
  - intros c Hc. apply elem_of_listedChildren. by exists currId.
Qed.

(** The number of children a call adds under a node that is not a key of
    [Nodes] is zero, and nothing fails. *)
Lemma populateDependencyTree_absent (moduleTree : moduleDepTree) (fuel : nat)
    (currNode : GraphNode) (currNodeId : string) (uniqueDepsSet : gset string) :
  moduleDepTree_Nodes moduleTree !! currNodeId = None →
  populateDependencyTree (S fuel) currNode currNodeId moduleTree uniqueDepsSet
  = Returns (currNode, uniqueDepsSet).
Proof.
  intros Habsent. simpl. rewrite childrenOf_absent by done.
  by destruct (NodeHasLoop currNode).
Qed.

Lemma populateDependencyTree_loop (moduleTree : moduleDepTree) (fuel : nat)
    (currNode : GraphNode) (currNodeId : string) (uniqueDepsSet : gset string) :
  NodeHasLoop currNode = true →
  populateDependencyTree (S fuel) currNode currNodeId moduleTree uniqueDepsSet
  = Returns (currNode, uniqueDepsSet).
Proof. intros Hloop. simpl. by rewrite Hloop. Qed.

(** ** The output-file parser *)

Lemma TrimLeft_allSpace (s : string) : allSpace s = true → TrimLeft s = EmptyString.
Proof.
  unfold TrimLeft. remember (String.length s) as n eqn:Hn. revert s Hn.
  induction n as [n IH] using lt_wf_ind. intros s Hn Hs.
  destruct s as [|c r1]; [done|]. simpl in *.
  destruct (asciiSpace c); [apply (IH (String.length r1)); [lia|done|done]|].
  destruct r1 as [|d r2]; [done|]. simpl in *.
  destruct (space2 c d); [apply (IH (String.length r2)); [lia|done|done]|].
  destruct r2 as [|e r3]; [done|]. simpl in *.
  apply andb_true_iff in Hs as [-> Hs].
  apply (IH (String.length r3)); [lia|done|done].
Qed.

Lemma TrimSpace_allSpace (s : string) : allSpace s = true → TrimSpace s = EmptyString.
Proof. intros Hs. unfold TrimSpace. by rewrite TrimLeft_allSpace. Qed.

Lemma Split_not_nil (s : string) (sep : ascii) : Split s sep ≠ [].
Proof.
  destruct s as [|c s]; simpl; [done|].
  case_bool_decide; [done|]. by destruct (Split s sep).
Qed.

Section OutputFilesProperties.

Context {error : Type}.
Variable ReadFile : string → string * option error.
Variable Unmarshal : string → option moduleDepTree * option error.

Lemma parseDepTreeFile_read_error (path : string) (e : error) :
  (ReadFile (TrimSpace path)).2 = Some e →
  parseDepTreeFile ReadFile Unmarshal path = (None, Some e).
Proof.
  unfold parseDepTreeFile. destruct (ReadFile (TrimSpace path)) as [json err]. simpl.
  by intros ->.
Qed.

Lemma parseDepTreeFile_read_ok (path json : string) :
  ReadFile (TrimSpace path) = (json, None) →
  parseDepTreeFile ReadFile Unmarshal path = Unmarshal json.
Proof. unfold parseDepTreeFile. by intros ->. Qed.

(** The loop succeeds exactly when every file is read and decoded, and
    then it has appended the decoded modules in the order of the paths. *)
Lemma parseDepTreeFiles_range_ok (outputFilePaths : list string) :
  ∀ modules result : list (option moduleDepTree),
    parseDepTreeFiles_range ReadFile Unmarshal modules outputFilePaths = (result, None) ↔
    ∃ decoded,
      result = modules ++ decoded ∧
      Forall2 (λ path results, parseDepTreeFile ReadFile Unmarshal path = (results, None))
        outputFilePaths decoded.
Proof.
  induction outputFilePaths as [|path paths IH]; intros modules result; simpl.
  - split.
    + intros [= <-]. exists []. by rewrite app_nil_r.
    + intros (decoded & -> & ->%Forall2_nil_inv_l). by rewrite app_nil_r.
  - destruct (parseDepTreeFile ReadFile Unmarshal path) as [results [e|]] eqn:Hpath.
    + split; [done|]. intros (decoded & _ & Hall).
      apply Forall2_cons_inv_l in Hall as (r & rest & Hr & _ & _).
      rewrite Hpath in Hr. done.
    + rewrite IH. split.
      * intros (decoded & -> & Hall). exists (results :: decoded).
        rewrite <- app_assoc. split; [done|]. by constructor.
      * intros (decoded & -> & Hall).
        apply Forall2_cons_inv_l in Hall as (r & rest & Hr & Hrest & ->).
        rewrite Hpath in Hr. injection Hr as <-.
        exists rest. by rewrite <- app_assoc.
Qed.

(** The loop fails exactly at the first path that cannot be read or
    decoded, with the error of that path and the nil slice. *)
Lemma parseDepTreeFiles_range_error (outputFilePaths : list string) :
  ∀ (modules result : list (option moduleDepTree)) (e : error),
    parseDepTreeFiles_range ReadFile Unmarshal modules outputFilePaths = (result, Some e) ↔
    result = [] ∧
    ∃ before path after,
      outputFilePaths = before ++ path :: after ∧
      Forall (λ path, (parseDepTreeFile ReadFile Unmarshal path).2 = None) before ∧
      (parseDepTreeFile ReadFile Unmarshal path).2 = Some e.
Proof.
  induction outputFilePaths as [|path paths IH]; intros modules result e; simpl.
  - split; [done|]. intros (_ & before & p & after & Heq & _).
    by destruct before.
  - destruct (parseDepTreeFile ReadFile Unmarshal path) as [results [e'|]] eqn:Hpath.
    + split.
      * intros [= <- <-]. split; [done|]. exists [], path, paths.
        rewrite Hpath. by repeat split.
      * intros (-> & before & p & after & Heq & Hbefore & Hp).
        destruct before as [|b before]; simpl in Heq; injection Heq as <- ->.
        -- rewrite Hpath in Hp. simpl in Hp. by injection Hp as ->.
        -- apply Forall_cons in Hbefore as [Hb _]. by rewrite Hpath in Hb.
    + rewrite IH. split.
      * intros (-> & before & p & after & -> & Hbefore & Hp). split; [done|].
        exists (path :: before), p, after. split; [done|]. split; [|done].
        constructor; [by rewrite Hpath|done].
      * intros (-> & before & p & after & Heq & Hbefore & Hp). split; [done|].
        destruct before as [|b before]; simpl in Heq; injection Heq as <- ->.
        -- by rewrite Hpath in Hp.
        -- apply Forall_cons in Hbefore as [_ Hbefore]. by exists before, p, after.
Qed.

Lemma parseDepTreeFiles_ok_not_nil (jsonFilePaths : string)
    (modules : list (option moduleDepTree)) :
  parseDepTreeFiles ReadFile Unmarshal jsonFilePaths = (modules, None) → modules ≠ [].
Proof.
  unfold parseDepTreeFiles. intros (decoded & -> & Hall)%parseDepTreeFiles_range_ok.
  pose proof (Split_not_nil (TrimSpace jsonFilePaths) newline) as Hne.
  destruct Hall; [done|done].
Qed.

End OutputFilesProperties.

(** ** getGraphFromDepTree *)

Lemma belowRoots_app (g1 g2 : list GraphNode) :
  belowRoots (g1 ++ g2) = belowRoots g1 ∪ belowRoots g2.
Proof. unfold belowRoots. by rewrite fmap_app, union_list_app_L. Qed.

Lemma belowRoots_cons (g : GraphNode) (graph : list GraphNode) :
  belowRoots (g :: graph) = forestIds (GraphNode_Nodes g) ∪ belowRoots graph.
Proof. done. Qed.

Lemma graphIds_unfold (n : GraphNode) :
  graphIds n = {[ GraphNode_Id n ]} ∪ forestIds (GraphNode_Nodes n).
Proof. destruct n. apply graphIds_node. Qed.

Lemma forestIds_roots (graph : list GraphNode) :
  forestIds graph = list_to_set (GraphNode_Id <$> graph) ∪ belowRoots graph.
Proof.
  induction graph as [|g graph IH].
  - unfold forestIds, belowRoots. simpl. set_solver.
  - rewrite forestIds_cons, IH, graphIds_unfold, fmap_cons, list_to_set_cons,
      belowRoots_cons. set_solver.
Qed.

(** The loop over the modules (javautils.go:198-205). *)
Lemma getGraphFromDepTree_loop (modules : list (option moduleDepTree)) :
  ∀ (depsGraph : list GraphNode) (uniqueDepsSet : gset string)
    (depsGraph' : list GraphNode) (uniqueDepsSet' : gset string),
    forRange
      (λ '(depsGraph, uniqueDepsSet) (moduleTreePtr : option moduleDepTree),
         moduleTree ← match moduleTreePtr with
                      | Some moduleTree => Returns moduleTree
                      | None => Panics NilDereference_getGraphFromDepTree
                      end;
         let directDependency :=
           mkGraphNode (GavPackageTypeIdentifier +:+ moduleDepTree_Root moduleTree)
             [] None in
         '(directDependency', uniqueDepsSet') ←
           populateDependencyTree (depTreeFuel moduleTree) directDependency
             (moduleDepTree_Root moduleTree) moduleTree uniqueDepsSet;
         Returns (depsGraph ++ [directDependency'], uniqueDepsSet'))
      (depsGraph, uniqueDepsSet) modules
    = Returns (depsGraph', uniqueDepsSet') →
    ∃ trees new,
      modules = Some <$> trees ∧
      depsGraph' = depsGraph ++ new ∧
      uniqueDepsSet' = uniqueDepsSet ∪ belowRoots new ∧
      Forall2 treeOfModule trees new.
Proof.
  induction modules as [|[t|] modules IH]; intros graph uniq graph' uniq' Hrun;
    simpl in Hrun; [| |done].
  - inversion Hrun; subst. exists [], []. rewrite app_nil_r.
    unfold belowRoots. simpl. repeat split; [set_solver|constructor].
  - destruct (populateDependencyTree (depTreeFuel t) _ (moduleDepTree_Root t) t uniq)
      as [[tree uniq1]| |] eqn:Htree; simpl in Hrun; try done.
    apply populateDependencyTree_effect in Htree as (nodes & -> & -> & Hgood & Hids).
    unfold NodeHasLoop in Hids. cbn [GraphNode_Id GraphNode_Nodes GraphNode_Parent app] in *.
    destruct Hids as [Hids _].
    apply IH in Hrun as (trees & new & -> & -> & -> & Hall).
    set (tree := mkGraphNode (GavPackageTypeIdentifier +:+ moduleDepTree_Root t) nodes None).
    exists (t :: trees), (tree :: new). rewrite <- app_assoc. repeat split.
    + rewrite belowRoots_cons. unfold tree. cbn [GraphNode_Nodes]. set_solver.
    + constructor; [|done]. by repeat split.
Qed.

Section GetGraphProperties.

Context {error : Type}.
Variable ReadFile : string → string * option error.
Variable Unmarshal : string → option moduleDepTree * option error.

Lemma getGraphFromDepTree_parse_error (depTreeOutput : string)
    (modules : list (option moduleDepTree)) (e : error) :
  parseDepTreeFiles ReadFile Unmarshal depTreeOutput = (modules, Some e) →
  getGraphFromDepTree ReadFile Unmarshal depTreeOutput = Returns ([], [], Some e).
Proof. unfold getGraphFromDepTree. by intros ->. Qed.

(** What [getGraphFromDepTree] returns when the parser succeeds: one tree
    per module in the order of the files, and as unique ids the ids of the
    nodes below the roots. *)
Lemma getGraphFromDepTree_effect (depTreeOutput : string) (depsGraph : list GraphNode)
    (uniqueDeps : list string) :
  getGraphFromDepTree ReadFile Unmarshal depTreeOutput
  = Returns (depsGraph, uniqueDeps, None) →
  ∃ trees,
    parseDepTreeFiles ReadFile Unmarshal depTreeOutput = (Some <$> trees, None) ∧
    Forall2 treeOfModule trees depsGraph ∧
    list_to_set uniqueDeps = belowRoots depsGraph ∧
    NoDup uniqueDeps.
Proof.
  unfold getGraphFromDepTree.
  destruct (parseDepTreeFiles ReadFile Unmarshal depTreeOutput) as [modules [e|]];
    [done|].
  destruct (forRange _ _ modules) as [[graph uniq]| |] eqn:Hloop; simpl; try done.
  intros [= <- <-].
  apply getGraphFromDepTree_loop in Hloop as (trees & new & -> & -> & -> & Hall).
  exists trees. simpl. repeat split; [done| |apply NoDup_elements].
  rewrite list_to_set_elements_L. set_solver.
Qed.

(** [getGraphFromDepTree] returns, or dereferences a nil module; its budget
    for the recursion is never used up. *)
Lemma getGraphFromDepTree_outcome (depTreeOutput : string) :
  (∃ r, getGraphFromDepTree ReadFile Unmarshal depTreeOutput = Returns r) ∨
  (getGraphFromDepTree ReadFile Unmarshal depTreeOutput
   = Panics NilDereference_getGraphFromDepTree ∧
   None ∈ (parseDepTreeFiles ReadFile Unmarshal depTreeOutput).1).
Proof.
  unfold getGraphFromDepTree.
  destruct (parseDepTreeFiles ReadFile Unmarshal depTreeOutput) as [modules [e|]];
    [left; eauto|].
  destruct (forRange _ _ modules) as [[graph uniq]|site|] eqn:Hloop; simpl.
  - left. eauto.
  - right. apply forRange_panics_inv in Hloop as ([graph uniq] & [t|] & Hin & Hbody);
      simpl in Hbody.
    + destruct (populateDependencyTree_returns t (depTreeFuel t) (moduleDepTree_Root t)
                  [] uniq) as [[tree uniq1] Hr]; [done|].
      rewrite Hr in Hbody. done.
    + by injection Hbody as <-.
  - apply forRange_out_of_fuel_inv in Hloop as ([graph uniq] & [t|] & Hin & Hbody);
      simpl in Hbody; [|done].
    destruct (populateDependencyTree_returns t (depTreeFuel t) (moduleDepTree_Root t)
                [] uniq) as [[tree uniq1] Hr]; [done|].
    rewrite Hr in Hbody. done.
Qed.

End GetGraphProperties.

(** ** Paths and repeated ids *)

Lemma noReentry_node (path : gset string) (i : string) (ns : list GraphNode)
    (p : option ParentRef) :
  noReentry path (mkGraphNode i ns p) ↔
  (i ∉ path) ∧ Forall (noReentry ({[ i ]} ∪ path)) ns.
Proof.
  simpl. apply and_iff_compat_l. induction ns as [|c ns IH].
  - split; [by constructor|done].
  - rewrite Forall_cons, IH. done.
Qed.

Lemma repeatsAreLeaves_node (path : gset string) (i : string) (ns : list GraphNode)
    (p : option ParentRef) :
  repeatsAreLeaves path (mkGraphNode i ns p) ↔
  (i ∈ path → ns = []) ∧ Forall (repeatsAreLeaves ({[ i ]} ∪ path)) ns.
Proof.
  simpl. apply and_iff_compat_l. induction ns as [|c ns IH].
  - split; [by constructor|done].
  - rewrite Forall_cons, IH. done.
Qed.

Section NoReentry.

Variable rangeMap : gmap string Dependency → list (string * Dependency).

(** The requested-by populator never appends a node whose id is on the
    path: below the node of a direct dependency all ids of a path differ. *)
Lemma populateTransitiveDependencies_noReentry (dm : dependencyMultimap) (fuel : nat) :
  ∀ (parent : GraphNode) (dependencyId : string) (idsAdded : list string)
    (uniqueDepsSet : gset string) (parent' : GraphNode) (uniqueDepsSet' : gset string),
    populateTransitiveDependencies rangeMap fuel parent dependencyId dm
      idsAdded uniqueDepsSet = Returns (parent', uniqueDepsSet') →
    ∃ nodes,
      parent' = mkGraphNode (GraphNode_Id parent) (GraphNode_Nodes parent ++ nodes)
                  (GraphNode_Parent parent) ∧
      Forall (noReentry
                (list_to_set ((λ a, GavPackageTypeIdentifier +:+ a) <$> idsAdded)))
        nodes.
Proof.
  induction fuel as [|fuel IH]; intros parent d ids uniq parent' uniq' Hrun; [done|].
  simpl in Hrun. destruct (hasLoop ids d) eqn:Hloop.
  { inversion Hrun; subst. exists []. rewrite app_nil_r. by destruct parent'. }
  apply hasLoop_false in Hloop.
  set (pd := GavPackageTypeIdentifier +:+ d) in *.
  set (P := list_to_set ((λ a, GavPackageTypeIdentifier +:+ a) <$> ids) : gset string).
  match type of Hrun with context [forRange ?body ?acc ?xs] =>
    destruct (forRange body acc xs) as [[node' uniq1]| |] eqn:Hloop'; simpl in Hrun;
      try done;
    pose proof (forRange_invariant
      (λ st, GraphNode_Id st.1 = pd ∧
             Forall (noReentry ({[ pd ]} ∪ P)) (GraphNode_Nodes st.1))
      body xs acc (node', uniq1)) as Hinv
  end.
  inversion Hrun; subst parent' uniq'; clear Hrun.
  destruct Hinv as [Hid Hnodes]; [by split; [|constructor]| |done|].
  - intros [node uniq2] [key child] [node2 uniq3] _ [Hid Hnodes] Hbody.
    cbn [fst snd] in *. apply IH in Hbody as (nodes & -> & Hnew).
    cbn [GraphNode_Id GraphNode_Nodes]. split; [done|].
    apply Forall_app. split; [done|].
    replace ({[pd]} ∪ P)
      with (list_to_set ((λ a, GavPackageTypeIdentifier +:+ a) <$> ids ++ [d]) : gset string);
      [done|].
    unfold P, pd. rewrite fmap_app, list_to_set_app_L. simpl. set_solver.
  - cbn [fst snd] in *. exists [node']. unfold appendNode. split; [done|].
    constructor; [|done]. destruct node' as [i ns p]. cbn [GraphNode_Id GraphNode_Nodes] in *.
    subst i. apply noReentry_node. split; [|done].
    unfold P, pd. intros Hin. apply elem_of_list_to_set, list_elem_of_fmap in Hin
      as (a & Heq & Hin). apply gav_prefix_inj in Heq as <-. done.
Qed.

Lemma addModuleTree_noReentry (module : Module_) (uniqueDepsSet : gset string)
    (moduleTree : GraphNode) (uniqueDepsSet' : gset string) :
  addModuleTree rangeMap module uniqueDepsSet = Returns (moduleTree, uniqueDepsSet') →
  Forall (noReentry ∅) (GraphNode_Nodes moduleTree).
Proof.
  unfold addModuleTree. intros Hrun.
  destruct (classifyDependencies (Module_Id module) (Module_Dependencies module))
    as [[dd dm]| |] eqn:Hclass; simpl in Hrun; try done.
  match type of Hrun with forRange ?body ?acc ?xs = _ =>
    apply (forRange_invariant (λ st, Forall (noReentry ∅) (GraphNode_Nodes st.1))
             body xs acc (moduleTree, uniqueDepsSet'))
  end; [by constructor| |done].
  intros [tree uniq] [key d] [tree' uniq'] _ Htree Hbody. cbn [fst snd] in *.
  apply populateTransitiveDependencies_noReentry in Hbody as (nodes & -> & Hnew).
  cbn [GraphNode_Nodes]. apply Forall_app. split; [done|].
  by rewrite fmap_nil, list_to_set_nil in Hnew.
Qed.

End NoReentry.

(** The plugin-tree populator appends a node for every listed child; a node
    whose id repeats the id of one of its ancestors stays without children. *)
Lemma populateDependencyTree_repeats (moduleTree : moduleDepTree) (fuel : nat) :
  ∀ (currNode : GraphNode) (currNodeId : string) (uniqueDepsSet : gset string)
    (currNode' : GraphNode) (uniqueDepsSet' : gset string),
    populateDependencyTree fuel currNode currNodeId moduleTree uniqueDepsSet
    = Returns (currNode', uniqueDepsSet') →
    ∃ nodes,
      currNode' = mkGraphNode (GraphNode_Id currNode)
                    (GraphNode_Nodes currNode ++ nodes) (GraphNode_Parent currNode) ∧
      Forall (repeatsAreLeaves
                (list_to_set (GraphNode_Id currNode
                              :: ancestorIds (GraphNode_Parent currNode))))
        nodes.
Proof.
  induction fuel as [|fuel IH]; intros curr currId uniq curr' uniq' Hrun; [done|].
  simpl in Hrun. destruct (NodeHasLoop curr) eqn:Hloop.
  { inversion Hrun; subst. exists []. rewrite app_nil_r. by destruct curr'. }
  set (P := list_to_set (GraphNode_Id curr :: ancestorIds (GraphNode_Parent curr))
            : gset string).
  match type of Hrun with forRange ?body ?acc ?xs = _ =>
    pose proof (forRange_invariant
      (λ st, ∃ nodes,
         st.1 = mkGraphNode (GraphNode_Id curr) (GraphNode_Nodes curr ++ nodes)
                  (GraphNode_Parent curr) ∧
         Forall (repeatsAreLeaves P) nodes)
      body xs acc (curr', uniq')) as Hinv
  end.
  apply Hinv; [| |done]; clear Hinv Hrun.
  - exists []. rewrite app_nil_r. by destruct curr.
  - intros [curr1 uniq1] c [curr2 uniq2] _ (nodes & Heq & Hnodes) Hbody.
    cbn [fst snd] in *. subst curr1.
    destruct (populateDependencyTree fuel _ c moduleTree _) as [[child' uniq3]| |] eqn:Hchild;
      simpl in Hbody; try done.
    injection Hbody as <- <-.
    pose proof (populateDependencyTree_effect _ _ _ _ _ _ _ Hchild)
      as (ns' & Heq' & _ & _ & Hleaf).
    apply IH in Hchild as (ns & Heq & Hns).
    rewrite Heq in Heq'. injection Heq' as <-. subst child'.
    unfold refTo, appendNode in *.
    cbn [GraphNode_Id GraphNode_Nodes GraphNode_Parent app] in *.
    set (up := Some (ParentNode (GraphNode_Id curr) (GraphNode_Parent curr))) in *.
    exists (nodes ++ [mkGraphNode (GavPackageTypeIdentifier +:+ c) ns up]).
    rewrite app_assoc. split; [done|]. apply Forall_app. split; [done|].
    constructor; [|done]. apply repeatsAreLeaves_node. split.
    + intros Hrepeat.
      assert (NodeHasLoop (mkGraphNode (GavPackageTypeIdentifier +:+ c) [] up) = true)
        as Hguard.
      { apply NodeHasLoop_spec. cbn [GraphNode_Id GraphNode_Parent].
        unfold up, P in *. simpl. by apply elem_of_list_to_set in Hrepeat. }
      by rewrite Hguard in Hleaf.
    + replace ({[GavPackageTypeIdentifier +:+ c]} ∪ P)
        with (list_to_set ((GavPackageTypeIdentifier +:+ c) :: ancestorIds up)
              : gset string); [done|].
      unfold up, P. simpl. by destruct (GraphNode_Parent curr).
Qed.

Section GetGraphRepeats.

Context {error : Type}.
Variable ReadFile : string → string * option error.
Variable Unmarshal : string → option moduleDepTree * option error.

Lemma getGraphFromDepTree_repeats (depTreeOutput : string) (depsGraph : list GraphNode)
    (uniqueDeps : list string) (err : option error) :
  getGraphFromDepTree ReadFile Unmarshal depTreeOutput
  = Returns (depsGraph, uniqueDeps, err) →
  Forall (repeatsAreLeaves ∅) depsGraph.
Proof.
  unfold getGraphFromDepTree.
  destruct (parseDepTreeFiles ReadFile Unmarshal depTreeOutput) as [modules [e|]].
  { intros [= <- _ _]. constructor. }
  destruct (forRange _ _ modules) as [[graph uniq]| |] eqn:Hloop; simpl; try done.
  intros [= <- _ _].
  match type of Hloop with forRange ?body ?acc ?xs = _ =>
    apply (forRange_invariant (λ st, Forall (repeatsAreLeaves ∅) st.1)
             body xs acc (graph, uniq))
  end; [by constructor| |done].
  intros [graph1 uniq1] [t|] [graph2 uniq2] _ Hgraph Hbody; simpl in Hbody; [|done].
  destruct (populateDependencyTree (depTreeFuel t) _ (moduleDepTree_Root t) t uniq1)
    as [[tree uniq3]| |] eqn:Htree; simpl in Hbody; try done.
  injection Hbody as <- <-. cbn [fst]. apply Forall_app. split; [done|].
  constructor; [|done].
  apply populateDependencyTree_repeats in Htree as (nodes & -> & Hnodes).
  cbn [GraphNode_Id GraphNode_Nodes GraphNode_Parent app ancestorIds] in *.
  apply repeatsAreLeaves_node. split; [by intros ?%elem_of_empty|].
  replace ({[GavPackageTypeIdentifier +:+ moduleDepTree_Root t]} ∪ ∅)
    with (list_to_set [GavPackageTypeIdentifier +:+ moduleDepTree_Root t] : gset string);
    [done|]. simpl. set_solver.
Qed.

End GetGraphRepeats.

Lemma forestIds_root_ids (nodes : list GraphNode) (n : GraphNode) :
  n ∈ nodes → GraphNode_Id n ∈ forestIds nodes.
Proof.
  intros Hin. unfold forestIds. apply elem_of_union_list.
  exists (graphIds n). split; [by apply list_elem_of_fmap_2|apply graphIds_root].
Qed.

Lemma elem_of_forestIds (graph : list GraphNode) (id : string) :
  id ∈ forestIds graph ↔ ∃ tree, tree ∈ graph ∧ id ∈ graphIds tree.
Proof.
  unfold forestIds. rewrite elem_of_union_list. split.
  - intros (X & HX & Hid). apply list_elem_of_fmap in HX as (tree & -> & Htree). eauto.
  - intros (tree & Htree & Hid). exists (graphIds tree).
    split; [by apply list_elem_of_fmap_2|done].
Qed.

Lemma treeOfModule_ids (moduleTree : moduleDepTree) (tree : GraphNode) (id : string) :
  treeOfModule moduleTree tree → id ∈ graphIds tree →
  ∃ raw, id = GavPackageTypeIdentifier +:+ raw ∧
         (raw = moduleDepTree_Root moduleTree ∨ raw ∈ listedChildren moduleTree).
Proof.
  intros (Hid & _ & _ & Hbelow). rewrite graphIds_unfold, Hid.
  intros [->%elem_of_singleton|Hin]%elem_of_union.
  - exists (moduleDepTree_Root moduleTree). split; [done|by left].
  - destruct (Hbelow id Hin) as (raw & -> & Hraw). exists raw. split; [done|by right].
Qed.

Section GetGraphErrors.

Context {error : Type}.
Variable ReadFile : string → string * option error.
Variable Unmarshal : string → option moduleDepTree * option error.

(** With an error, [getGraphFromDepTree] returns the nil graph and the nil
    list of ids, and the error is the one of the parser. *)
Lemma getGraphFromDepTree_error (depTreeOutput : string) (depsGraph : list GraphNode)
    (uniqueDeps : list string) (e : error) :
  getGraphFromDepTree ReadFile Unmarshal depTreeOutput
  = Returns (depsGraph, uniqueDeps, Some e) →
  depsGraph = [] ∧ uniqueDeps = [] ∧
  (parseDepTreeFiles ReadFile Unmarshal depTreeOutput).2 = Some e.
Proof.
  unfold getGraphFromDepTree.
  destruct (parseDepTreeFiles ReadFile Unmarshal depTreeOutput) as [modules [e'|]].
  - by intros [= <- <- <-].
  - destruct (forRange _ _ modules) as [[graph uniq]| |]; simpl; done.
Qed.

End GetGraphErrors.

(** ** The examples of the specification *)

(** The requested-by list of [b], requested by nobody, and [c], requested
    by [b], gives module [m] the tree m → b → c. *)
Example addModuleTree_m_b_c :
  ∃ uniqueDepsSet,
    addModuleTree map_to_list
      (mkModule "m" [mkDependency "b" []; mkDependency "c" [["b"]]]) ∅
    = Returns
        (mkGraphNode "gav://m"
           [mkGraphNode "gav://b" [mkGraphNode "gav://c" [] None] None] None,
         uniqueDepsSet) ∧
    uniqueDepsSet = {[ "gav://m"; "gav://b"; "gav://c" ]}.
Proof. eexists. split; vm_compute; reflexivity. Qed.

(** Two files with valid module trees give two roots in the order of the
    files. *)
Example getGraphFromDepTree_two_files :
  ∃ uniqueDeps,
    getGraphFromDepTree (tableReadFile sampleFiles) (tableUnmarshal sampleDocuments)
      ("single.json" +:+ String newline "cyclic.json")
    = Returns
        ([mkGraphNode "gav://r" [] None;
          mkGraphNode "gav://a"
            [mkGraphNode "gav://b"
               [mkGraphNode "gav://a" []
                  (Some (ParentNode "gav://b" (Some (ParentNode "gav://a" None))))]
               (Some (ParentNode "gav://a" None))]
            None],
         uniqueDeps, None) ∧
    uniqueDeps ≡ₚ ["gav://a"; "gav://b"].
Proof.
  eexists. split; [vm_compute; reflexivity|].
  first [reflexivity | apply Permutation_swap].
Qed.

(** * The claims *)

(** ** C1 *)

(** C1. The claim: in both models the returned unique ids are exactly the
    ids of the nodes of the graph, the module roots included. The code of the
    plugin-tree model at the single module with root [r] and no nodes: the
    graph holds the node gav://r and the list of unique ids is empty.
    [getGraphFromDepTree] never adds the id of a root to the set, where
    [addModuleTree], in the requested-by model, does. *)
Theorem C1_plugin_root_missing_from_unique_ids :
  getGraphFromDepTree (tableReadFile sampleFiles) (tableUnmarshal sampleDocuments)
    "single.json"
  = Returns ([mkGraphNode "gav://r" [] None], [], None) ∧
  "gav://r" ∈ forestIds [mkGraphNode "gav://r" [] None] ∧
  "gav://r" ∉ (list_to_set [] : gset string).
Proof.
  split; [reflexivity|]. split; [|set_solver].
  rewrite forestIds_singleton. apply graphIds_root.
Qed.

(** ** C2 *)

(** C2. The claim: for every module id and every dependency record,
    [isDirectDependency] returns true exactly when the outer sequence is
    empty, the first chain is empty, or some chain starts with the module's
    id. The code at the record [[x], [], [m]] of module [m]: the third chain
    starts with the module's id, so the record is direct by the claim, and
    the call panics at [directParent[0]] on the empty second chain. *)
Theorem C2_isDirectDependency_panics_before_module_chain :
  requestedDirectly "m" [["x"]; []; ["m"]] ∧
  isDirectDependency "m" [["x"]; []; ["m"]]
  = Panics IndexOutOfRange_isDirectDependency.
Proof.
  split; [|reflexivity].
  right; right. exists ["m"], []. split; [|done].
  apply elem_of_cons; right. apply elem_of_cons; right. by apply elem_of_cons; left.
Qed.

(** ** C3 *)

(** C3, the claim as stated fails for the plugin-tree populator. In the
    module tree where [a] lists [b] and [b] lists [a], the tree built from
    the root [a] is a → b → a: the edge from [b] back to [a], which
    re-enters an id of the current path, is not dropped; the repeated node
    is created below [b] and only its own children are left out. *)
Lemma C3_plugin_keeps_reentering_edge :
  ∃ uniqueDepsSet,
    populateDependencyTree (depTreeFuel cyclicTree)
      (mkGraphNode "gav://a" [] None) "a" cyclicTree ∅
    = Returns
        (mkGraphNode "gav://a"
           [mkGraphNode "gav://b"
              [mkGraphNode "gav://a" []
                 (Some (ParentNode "gav://b" (Some (ParentNode "gav://a" None))))]
              (Some (ParentNode "gav://a" None))]
           None,
         uniqueDepsSet) ∧
    ¬ noReentry ∅
        (mkGraphNode "gav://a"
           [mkGraphNode "gav://b"
              [mkGraphNode "gav://a" []
                 (Some (ParentNode "gav://b" (Some (ParentNode "gav://a" None))))]
              (Some (ParentNode "gav://a" None))]
           None).
Proof.
  eexists. split; [vm_compute; reflexivity|].
  simpl. intros (_ & (_ & (Hrepeat & _) & _) & _).
  apply Hrepeat. set_solver.
Qed.

(** C3, amended. Both populators return on every input, cyclic or not: the
    requested-by populator on a budget of two more than the number of ids
    stored in the multimap, which [addModuleTree] provides, and the
    plugin-tree populator, from a root without parent, on a budget of one
    more than the number of keys of [Nodes], which [getGraphFromDepTree]
    provides; a larger budget returns the same finite tree. In the
    requested-by populator a candidate whose id is on the current path is
    dropped at the point of re-entry: no node is created, and below a direct
    dependency no path of the tree repeats an id. In the plugin-tree
    populator the node that repeats an id of its path is created and
    appended, and it is not expanded: every node of the tree whose id
    repeats the id of an ancestor is a leaf. *)
Theorem C3_cycle_safe_construction
    (rangeMap : gmap string Dependency → list (string * Dependency))
    (rangeMap_perm : ∀ m, rangeMap m ≡ₚ map_to_list m)
    (parentToChildren : dependencyMultimap) (module : Module_)
    (moduleTree : moduleDepTree) (fuel : nat) :
  (* requested-by model *)
  (size (multimapIds parentToChildren) + 2 ≤ fuel →
   ∀ parent dependencyId idsAdded uniqueDepsSet,
     ∃ r, populateTransitiveDependencies rangeMap fuel parent dependencyId
            parentToChildren idsAdded uniqueDepsSet = Returns r) ∧
  (∀ fuel' parent dependencyId idsAdded uniqueDepsSet r,
     fuel ≤ fuel' →
     populateTransitiveDependencies rangeMap fuel parent dependencyId
       parentToChildren idsAdded uniqueDepsSet = Returns r →
     populateTransitiveDependencies rangeMap fuel' parent dependencyId
       parentToChildren idsAdded uniqueDepsSet = Returns r) ∧
  (∀ parent dependencyId idsAdded uniqueDepsSet,
     dependencyId ∈ idsAdded →
     populateTransitiveDependencies rangeMap (S fuel) parent dependencyId
       parentToChildren idsAdded uniqueDepsSet
     = Returns (parent, uniqueDepsSet)) ∧
  (∀ uniqueDepsSet,
     addModuleTree rangeMap module uniqueDepsSet ≠ OutOfFuel ∧
     ∀ tree uniqueDepsSet',
       addModuleTree rangeMap module uniqueDepsSet = Returns (tree, uniqueDepsSet') →
       Forall (noReentry ∅) (GraphNode_Nodes tree)) ∧
  (* plugin-tree model *)
  (depTreeFuel moduleTree ≤ fuel →
   ∀ root nodes uniqueDepsSet,
     ∃ tree uniqueDepsSet',
       populateDependencyTree fuel
         (mkGraphNode (GavPackageTypeIdentifier +:+ root) nodes None)
         root moduleTree uniqueDepsSet = Returns (tree, uniqueDepsSet') ∧
       ∃ new, tree = mkGraphNode (GavPackageTypeIdentifier +:+ root) (nodes ++ new) None ∧
              Forall (repeatsAreLeaves {[ GavPackageTypeIdentifier +:+ root ]}) new) ∧
  (∀ fuel' currNode currNodeId uniqueDepsSet r,
     fuel ≤ fuel' →
     populateDependencyTree fuel currNode currNodeId moduleTree uniqueDepsSet
     = Returns r →
     populateDependencyTree fuel' currNode currNodeId moduleTree uniqueDepsSet
     = Returns r) ∧
  (∀ currNode currNodeId uniqueDepsSet,
     GraphNode_Id currNode ∈ ancestorIds (GraphNode_Parent currNode) →
     populateDependencyTree (S fuel) currNode currNodeId moduleTree uniqueDepsSet
     = Returns (currNode, uniqueDepsSet)) ∧
  (∀ (error : Type) (ReadFile : string → string * option error)
     (Unmarshal : string → option moduleDepTree * option error) depTreeOutput,
     getGraphFromDepTree ReadFile Unmarshal depTreeOutput ≠ OutOfFuel ∧
     ∀ depsGraph uniqueDeps err,
       getGraphFromDepTree ReadFile Unmarshal depTreeOutput
       = Returns (depsGraph, uniqueDeps, err) →
       Forall (repeatsAreLeaves ∅) depsGraph).
Proof.
  split; [|split; [|split; [|split; [|split; [|split; [|split]]]]]].
  - intros Hfuel parent d ids uniq.
    by apply (populateTransitiveDependencies_returns rangeMap rangeMap_perm).
  - intros fuel' parent d ids uniq r.
    apply populateTransitiveDependencies_fuel_mono.
  - intros parent d ids uniq Hin. simpl. apply hasLoop_spec in Hin. by rewrite Hin.
  - intros uniq. split.
    + destruct (addModuleTree_outcome rangeMap rangeMap_perm module uniq)
        as [[r Hr]|[Hp _]]; congruence.
    + intros tree uniq'. apply addModuleTree_noReentry.
  - intros Hfuel root nodes uniq.
    destruct (populateDependencyTree_returns moduleTree fuel root nodes uniq Hfuel)
      as [[tree uniq'] Hrun].
    exists tree, uniq'. split; [done|].
    apply populateDependencyTree_repeats in Hrun as (new & -> & Hnew).
    exists new. split; [done|].
    cbn [GraphNode_Id GraphNode_Parent ancestorIds] in Hnew.
    replace ({[GavPackageTypeIdentifier +:+ root]} : gset string)
      with (list_to_set [GavPackageTypeIdentifier +:+ root] : gset string); [done|].
    simpl. set_solver.
  - intros fuel' curr currId uniq r. apply populateDependencyTree_fuel_mono.
  - intros curr currId uniq Hin. apply populateDependencyTree_loop.
    by apply NodeHasLoop_spec.
  - intros error ReadFile Unmarshal input. split.
    + destruct (getGraphFromDepTree_outcome ReadFile Unmarshal input)
        as [[r Hr]|[Hp _]]; congruence.
    + intros graph uniq err. apply getGraphFromDepTree_repeats.
Qed.

Lemma C3_witness :
  (∃ r, populateTransitiveDependencies map_to_list 4 (mkGraphNode "gav://m" [] None) "b"
          (putChild (putChild newDependencyMultimap "gav://b" (mkDependency "c" [["b"]]))
             "gav://c" (mkDependency "b" [["c"]]))
          [] ∅ = Returns r) ∧
  ∃ tree uniqueDepsSet',
    populateDependencyTree 3 (mkGraphNode (GavPackageTypeIdentifier +:+ "a") [] None) "a"
      cyclicTree ∅ = Returns (tree, uniqueDepsSet').
Proof.
  assert (∀ m : gmap string Dependency, map_to_list m ≡ₚ map_to_list m) as Hperm
    by reflexivity.
  split.
  - apply (C3_cycle_safe_construction map_to_list Hperm
             (putChild (putChild newDependencyMultimap "gav://b" (mkDependency "c" [["b"]]))
                "gav://c" (mkDependency "b" [["c"]]))
             cyclicModule cyclicTree 4).
    vm_compute. lia.
  - destruct (C3_cycle_safe_construction map_to_list Hperm newDependencyMultimap
                cyclicModule cyclicTree 3) as (_ & _ & _ & _ & Hplugin & _).
    destruct (Hplugin) with (root := "a") (nodes := @nil GraphNode)
                            (uniqueDepsSet := (∅ : gset string))
      as (tree & uniq' & Hrun & _).
    + vm_compute. lia.
    + exists tree, uniq'. exact Hrun.
Defined.

(** ** C4 *)

(** C4. In the requested-by populator the recursion carries the list of raw
    ids of the current path. A candidate whose raw id is in that list leaves
    the parent and the set as they are: no node is created and nothing is
    appended. A candidate that is not in the list always gets a node with
    its prefixed id, appended as the last child of the parent; the set
    receives the ids of that node and of the nodes below it, and below the
    node no id of the list, extended along the path, is created again. *)
Theorem C4_requested_by_ancestor_guard
    (rangeMap : gmap string Dependency → list (string * Dependency))
    (rangeMap_perm : ∀ m, rangeMap m ≡ₚ map_to_list m)
    (parentToChildren : dependencyMultimap) (parent : GraphNode)
    (dependencyId : string) (idsAdded : list string) (uniqueDepsSet : gset string) :
  (hasLoop idsAdded dependencyId = true ↔ dependencyId ∈ idsAdded) ∧
  (dependencyId ∈ idsAdded →
   ∀ fuel,
     populateTransitiveDependencies rangeMap (S fuel) parent dependencyId
       parentToChildren idsAdded uniqueDepsSet
     = Returns (parent, uniqueDepsSet)) ∧
  (dependencyId ∉ idsAdded →
   ∀ fuel,
     size (multimapIds parentToChildren) + 2 ≤ fuel →
     ∃ node,
       populateTransitiveDependencies rangeMap fuel parent dependencyId
         parentToChildren idsAdded uniqueDepsSet
       = Returns (appendNode parent node, uniqueDepsSet ∪ graphIds node) ∧
       GraphNode_Id node = GavPackageTypeIdentifier +:+ dependencyId ∧
       GavPackageTypeIdentifier +:+ dependencyId ∈ uniqueDepsSet ∪ graphIds node ∧
       noReentry (list_to_set ((λ a, GavPackageTypeIdentifier +:+ a) <$> idsAdded)) node).
Proof.
  split; [apply hasLoop_spec|]. split.
  - intros Hin fuel. simpl. apply hasLoop_spec in Hin. by rewrite Hin.
  - intros Hnotin fuel Hfuel.
    destruct (populateTransitiveDependencies_returns rangeMap rangeMap_perm
                parentToChildren fuel parent dependencyId idsAdded uniqueDepsSet Hfuel)
      as [[parent' uniq'] Hrun].
    pose proof (populateTransitiveDependencies_effect rangeMap rangeMap_perm _ _ _ _ _ _ _ _ Hrun)
      as [(Hin & _)|(_ & node & sub & -> & Hid & _ & Hids & _ & -> & _)]; [done|].
    pose proof (populateTransitiveDependencies_noReentry rangeMap _ _ _ _ _ _ _ _ Hrun)
      as (nodes & Heq & Hnodes).
    unfold appendNode in Heq. injection Heq as Heq. apply app_inv_head in Heq as <-.
    apply Forall_cons in Hnodes as [Hnode _].
    exists node. rewrite Hrun, Hids.
    split; [f_equal; f_equal; set_solver|]. split; [done|]. split; [set_solver|done].
Qed.

Lemma C4_witness :
  populateTransitiveDependencies map_to_list 1 (mkGraphNode "gav://b" [] None) "a"
    (putChild newDependencyMultimap "gav://b" (mkDependency "a" [["b"; "a"]]))
    ["a"; "b"] ∅
  = Returns (mkGraphNode "gav://b" [] None, ∅) ∧
  ∃ node,
    populateTransitiveDependencies map_to_list 3 (mkGraphNode "gav://m" [] None) "b"
      (putChild newDependencyMultimap "gav://b" (mkDependency "a" [["b"; "a"]]))
      ["a"] ∅
    = Returns (appendNode (mkGraphNode "gav://m" [] None) node, ∅ ∪ graphIds node) ∧
    GraphNode_Id node = "gav://b".
Proof.
  assert (∀ m : gmap string Dependency, map_to_list m ≡ₚ map_to_list m) as Hperm
    by reflexivity.
  split.
  - apply (C4_requested_by_ancestor_guard map_to_list Hperm).
    apply list_elem_of_In. simpl. auto.
  - destruct (C4_requested_by_ancestor_guard map_to_list Hperm
                (putChild newDependencyMultimap "gav://b" (mkDependency "a" [["b"; "a"]]))
                (mkGraphNode "gav://m" [] None) "b" ["a"] ∅) as (_ & _ & Hfresh).
    destruct (Hfresh) with (fuel := 3) as (node & Hrun & Hid & _).
    + intros Hin. apply list_elem_of_In in Hin. simpl in Hin.
      destruct Hin as [Heq|[]]. discriminate Heq.
    + vm_compute. lia.
    + exists node. split; [exact Hrun|exact Hid].
Defined.

(** ** C5 *)

(** C5. In the plugin-tree populator the guard looks at the current node
    before its children are expanded: it holds exactly when the id of the
    current node recurs on the chain of its parents. When it holds, the call
    returns the node as it is, no child is expanded. When it does not hold,
    one node is appended for each listed child, in the order of the list,
    whether or not the child repeats an id of the path: the node has the
    prefixed id of the child, its [Parent] points to the current node, its
    id is in the set, and when its id repeats the id of the current node or
    of one of the ancestors it stays without children. *)
Theorem C5_plugin_guard_on_current_node
    (moduleTree : moduleDepTree) (currNode : GraphNode) (currNodeId : string)
    (uniqueDepsSet : gset string) (fuel : nat) :
  (NodeHasLoop currNode = true ↔
   GraphNode_Id currNode ∈ ancestorIds (GraphNode_Parent currNode)) ∧
  (GraphNode_Id currNode ∈ ancestorIds (GraphNode_Parent currNode) →
   populateDependencyTree (S fuel) currNode currNodeId moduleTree uniqueDepsSet
   = Returns (currNode, uniqueDepsSet)) ∧
  (GraphNode_Id currNode ∉ ancestorIds (GraphNode_Parent currNode) →
   ∀ currNode' uniqueDepsSet',
     populateDependencyTree fuel currNode currNodeId moduleTree uniqueDepsSet
     = Returns (currNode', uniqueDepsSet') →
     ∃ nodes,
       currNode' = mkGraphNode (GraphNode_Id currNode)
                     (GraphNode_Nodes currNode ++ nodes) (GraphNode_Parent currNode) ∧
       GraphNode_Id <$> nodes
       = (λ childId, GavPackageTypeIdentifier +:+ childId)
           <$> childrenOf moduleTree currNodeId ∧
       uniqueDepsSet' = uniqueDepsSet ∪ forestIds nodes ∧
       Forall (λ n,
                 GraphNode_Parent n = Some (refTo currNode) ∧
                 GraphNode_Id n ∈ uniqueDepsSet' ∧
                 (GraphNode_Id n ∈ GraphNode_Id currNode
                                   :: ancestorIds (GraphNode_Parent currNode) →
                  GraphNode_Nodes n = []))
         nodes).
Proof.
  split; [apply NodeHasLoop_spec|]. split.
  - intros Hin. apply populateDependencyTree_loop. by apply NodeHasLoop_spec.
  - intros Hnotin curr' uniq' Hrun.
    apply populateDependencyTree_effect in Hrun as (nodes & -> & -> & _ & Hnodes).
    assert (NodeHasLoop currNode = false) as Hguard.
    { apply not_true_iff_false. by rewrite NodeHasLoop_spec. }
    rewrite Hguard in Hnodes. destruct Hnodes as [Hids Hall].
    exists nodes. split; [done|]. split; [done|]. split; [done|].
    apply Forall_forall. intros n Hn. rewrite Forall_forall in Hall.
    destruct (Hall n Hn) as [Hparent Hleaf]. split; [done|]. split.
    + apply elem_of_union. right. by apply forestIds_root_ids.
    + intros Hrepeat. apply Hleaf, NodeHasLoop_spec.
      by rewrite Hparent, ancestorIds_refTo.
Qed.

Lemma C5_witness :
  populateDependencyTree 1
    (mkGraphNode "gav://a" [] (Some (ParentNode "gav://b" (Some (ParentNode "gav://a" None)))))
    "a" cyclicTree ∅
  = Returns
      (mkGraphNode "gav://a" [] (Some (ParentNode "gav://b" (Some (ParentNode "gav://a" None)))),
       ∅) ∧
  ∃ nodes,
    GraphNode_Id <$> nodes = ["gav://a"] ∧
    Forall (λ n, GraphNode_Parent n
                 = Some (ParentNode "gav://b" (Some (ParentNode "gav://a" None))))
      nodes.
Proof.
  split.
  - apply (C5_plugin_guard_on_current_node cyclicTree
             (mkGraphNode "gav://a" []
                (Some (ParentNode "gav://b" (Some (ParentNode "gav://a" None)))))
             "a" ∅ 0).
    apply list_elem_of_In. simpl. auto.
  - destruct (C5_plugin_guard_on_current_node cyclicTree
                (mkGraphNode "gav://b" [] (Some (ParentNode "gav://a" None)))
                "b" ∅ 2) as (_ & _ & Hexpand).
    destruct (populateDependencyTree 2
                (mkGraphNode "gav://b" [] (Some (ParentNode "gav://a" None)))
                "b" cyclicTree ∅) as [[curr' uniq']| |] eqn:Hrun;
      [|vm_compute in Hrun; discriminate Hrun..].
    destruct (Hexpand) with (currNode' := curr') (uniqueDepsSet' := uniq')
      as (nodes & _ & Hids & _ & Hall).
    + intros Hin. apply list_elem_of_In in Hin. simpl in Hin.
      destruct Hin as [Heq|[]]. discriminate Heq.
    + reflexivity.
    + exists nodes. split; [exact Hids|].
      eapply Forall_impl; [exact Hall|]. intros n (Hp & _). exact Hp.
Defined.

(** ** C6 *)

(** C6. The parser trims its input, splits it at the line feeds and handles
    the paths in that order, each one trimmed, read and decoded. It returns
    without error exactly when every file is read and decoded without error,
    and then it returns the decoded modules in the order of the paths. It
    returns an error exactly when some file cannot be read or decoded: the
    error is the one of the first such file, and the module list is nil, so
    that nothing of the files before it is returned; [getGraphFromDepTree]
    then returns no graph either. *)
Theorem C6_parser_all_or_nothing
    {error : Type} (ReadFile : string → string * option error)
    (Unmarshal : string → option moduleDepTree * option error)
    (jsonFilePaths : string) :
  (∀ path e, (ReadFile (TrimSpace path)).2 = Some e →
             parseDepTreeFile ReadFile Unmarshal path = (None, Some e)) ∧
  (∀ path json, ReadFile (TrimSpace path) = (json, None) →
                parseDepTreeFile ReadFile Unmarshal path = Unmarshal json) ∧
  (∀ modules,
     parseDepTreeFiles ReadFile Unmarshal jsonFilePaths = (modules, None) ↔
     Forall2 (λ path results,
                parseDepTreeFile ReadFile Unmarshal path = (results, None))
       (Split (TrimSpace jsonFilePaths) newline) modules) ∧
  (∀ modules e,
     parseDepTreeFiles ReadFile Unmarshal jsonFilePaths = (modules, Some e) ↔
     modules = [] ∧
     ∃ before path after,
       Split (TrimSpace jsonFilePaths) newline = before ++ path :: after ∧
       Forall (λ path, (parseDepTreeFile ReadFile Unmarshal path).2 = None) before ∧
       (parseDepTreeFile ReadFile Unmarshal path).2 = Some e) ∧
  (∀ path,
     path ∈ Split (TrimSpace jsonFilePaths) newline →
     (parseDepTreeFile ReadFile Unmarshal path).2 ≠ None →
     ∃ e, parseDepTreeFiles ReadFile Unmarshal jsonFilePaths = ([], Some e)) ∧
  (∀ modules e,
     parseDepTreeFiles ReadFile Unmarshal jsonFilePaths = (modules, Some e) →
     getGraphFromDepTree ReadFile Unmarshal jsonFilePaths = Returns ([], [], Some e)).
Proof.
  assert (∀ modules,
    parseDepTreeFiles ReadFile Unmarshal jsonFilePaths = (modules, None) ↔
    Forall2 (λ path results,
               parseDepTreeFile ReadFile Unmarshal path = (results, None))
      (Split (TrimSpace jsonFilePaths) newline) modules) as Hok.
  { intros modules. unfold parseDepTreeFiles. rewrite parseDepTreeFiles_range_ok.
    split; [by intros (decoded & -> & Hall)|]. intros Hall. by exists modules. }
  assert (∀ modules e,
    parseDepTreeFiles ReadFile Unmarshal jsonFilePaths = (modules, Some e) ↔
    modules = [] ∧
    ∃ before path after,
      Split (TrimSpace jsonFilePaths) newline = before ++ path :: after ∧
      Forall (λ path, (parseDepTreeFile ReadFile Unmarshal path).2 = None) before ∧
      (parseDepTreeFile ReadFile Unmarshal path).2 = Some e) as Herr.
  { intros modules e. unfold parseDepTreeFiles. apply parseDepTreeFiles_range_error. }
  split; [apply parseDepTreeFile_read_error|].
  split; [apply parseDepTreeFile_read_ok|].
  split; [done|]. split; [done|]. split.
  - intros path Hpath Hfails.
    destruct (parseDepTreeFiles ReadFile Unmarshal jsonFilePaths) as [modules [e|]] eqn:Hrun.
    + exists e. by destruct (proj1 (Herr modules e) eq_refl) as [-> _].
    + pose proof (proj1 (Hok modules) eq_refl) as Hall.
      apply list_elem_of_lookup in Hpath as [i Hi].
      destruct (Forall2_lookup_l _ _ _ _ _ Hall Hi) as (results & _ & Hresults).
      by rewrite Hresults in Hfails.
  - apply getGraphFromDepTree_parse_error.
Qed.

Lemma C6_witness :
  parseDepTreeFiles (tableReadFile sampleFiles) (tableUnmarshal sampleDocuments)
    (String newline "cyclic.json " +:+ String newline " single.json" +:+ String newline "")
  = ([Some cyclicTree; Some singleRoot], None) ∧
  parseDepTreeFiles (tableReadFile sampleFiles) (tableUnmarshal sampleDocuments)
    ("cyclic.json" +:+ String newline "missing.json" +:+ String newline "single.json")
  = ([], Some "open missing.json: no such file or directory").
Proof.
  split.
  - apply (C6_parser_all_or_nothing (tableReadFile sampleFiles)
             (tableUnmarshal sampleDocuments)).
    repeat constructor.
  - apply (C6_parser_all_or_nothing (tableReadFile sampleFiles)
             (tableUnmarshal sampleDocuments)).
    split; [reflexivity|].
    exists ["cyclic.json"], "missing.json", ["single.json"].
    split; [reflexivity|]. split; [|reflexivity].
    constructor; [reflexivity|constructor].
Defined.

(** ** C7 *)

(** C7. Every node id of every graph the two populators return, the id of a
    module root, of a direct child or of a node further down, is the
    constant prefix gav:// followed by a raw coordinate of the input: the id
    of the module or of one of its dependencies in the requested-by model,
    the root or a listed child in the plugin-tree model. *)
Theorem C7_every_node_id_has_gav_prefix
    (rangeMap : gmap string Dependency → list (string * Dependency))
    (rangeMap_perm : ∀ m, rangeMap m ≡ₚ map_to_list m) :
  GavPackageTypeIdentifier = "gav://" ∧
  (∀ module uniqueDepsSet tree uniqueDepsSet',
     addModuleTree rangeMap module uniqueDepsSet = Returns (tree, uniqueDepsSet') →
     GraphNode_Id tree = "gav://" +:+ Module_Id module ∧
     ∀ id, id ∈ graphIds tree →
           ∃ raw, id = "gav://" +:+ raw ∧
                  (raw = Module_Id module ∨ raw ∈ dependencyIds module)) ∧
  (∀ (error : Type) (couldntFindBuild : error) generated trees uniqueDeps err,
     createGavDependencyTree rangeMap couldntFindBuild generated
     = Returns (trees, uniqueDeps, err) →
     ∀ id, id ∈ forestIds trees → hasGavPrefix id) ∧
  (∀ (error : Type) (ReadFile : string → string * option error)
     (Unmarshal : string → option moduleDepTree * option error)
     depTreeOutput depsGraph uniqueDeps err,
     getGraphFromDepTree ReadFile Unmarshal depTreeOutput
     = Returns (depsGraph, uniqueDeps, err) →
     ∀ id, id ∈ forestIds depsGraph → hasGavPrefix id).
Proof.
  split; [done|]. split; [|split].
  - intros module uniq tree uniq' Hrun.
    apply (addModuleTree_effect rangeMap rangeMap_perm) in Hrun
      as (_ & _ & _ & Hid & _ & _ & _ & Hids). done.
  - intros error couldntFindBuild generated trees uniqueDeps err Hrun id Hid.
    apply (createGavDependencyTree_effect rangeMap rangeMap_perm) in Hrun as (Hall & _ & _).
    destruct err as [e|].
    { destruct Hall as [-> _]. rewrite forestIds_nil in Hid. by apply elem_of_empty in Hid. }
    destruct Hall as (buildInfo & rest & _ & Hall).
    apply elem_of_forestIds in Hid as (tree & Htree & Hid).
    apply list_elem_of_lookup in Htree as [i Hi].
    destruct (Forall2_lookup_r _ _ _ _ _ Hall Hi) as (module & _ & uniq & uniq' & Hadd).
    apply (addModuleTree_effect rangeMap rangeMap_perm) in Hadd
      as (_ & _ & _ & _ & _ & _ & _ & Hids).
    destruct (Hids id Hid) as (raw & -> & _). by exists raw.
  - intros error ReadFile Unmarshal input graph uniqueDeps [e|] Hrun id Hid.
    { apply getGraphFromDepTree_error in Hrun as (-> & _ & _).
      rewrite forestIds_nil in Hid. by apply elem_of_empty in Hid. }
    apply getGraphFromDepTree_effect in Hrun as (trees & _ & Hall & _ & _).
    apply elem_of_forestIds in Hid as (tree & Htree & Hid).
    apply list_elem_of_lookup in Htree as [i Hi].
    destruct (Forall2_lookup_r _ _ _ _ _ Hall Hi) as (t & _ & Htree).
    destruct (treeOfModule_ids t tree id Htree Hid) as (raw & -> & _). by exists raw.
Qed.

Lemma C7_witness :
  ∃ tree uniqueDepsSet',
    addModuleTree map_to_list cyclicModule ∅ = Returns (tree, uniqueDepsSet') ∧
    GraphNode_Id tree = "gav://m".
Proof.
  assert (∀ m : gmap string Dependency, map_to_list m ≡ₚ map_to_list m) as Hperm
    by reflexivity.
  destruct (addModuleTree map_to_list cyclicModule ∅) as [[tree uniq']| |] eqn:Hrun;
    [|vm_compute in Hrun; discriminate Hrun..].
  exists tree, uniq'. split; [reflexivity|].
  destruct (C7_every_node_id_has_gav_prefix map_to_list Hperm) as (_ & Hmodule & _).
  destruct (Hmodule cyclicModule ∅ tree uniq' Hrun) as [Hid _]. exact Hid.
Defined.

(** ** C8 *)

(** C8. A plugin-tree input that consists of a single module with a root
    and an empty [Nodes] mapping yields a graph of exactly one node, the
    prefixed root, without children. More generally, the expansion of a node
    whose id is not a key of [Nodes] returns the node as it is, without a
    child and without an error. *)
Theorem C8_absent_ids_have_no_children
    {error : Type} (ReadFile : string → string * option error)
    (Unmarshal : string → option moduleDepTree * option error)
    (depTreeOutput root : string) (moduleTree : moduleDepTree)
    (currNode : GraphNode) (currNodeId : string) (uniqueDepsSet : gset string)
    (fuel : nat) :
  (parseDepTreeFiles ReadFile Unmarshal depTreeOutput
   = ([Some (mkModuleDepTree root ∅)], None) →
   getGraphFromDepTree ReadFile Unmarshal depTreeOutput
   = Returns ([mkGraphNode (GavPackageTypeIdentifier +:+ root) [] None], [], None)) ∧
  (moduleDepTree_Nodes moduleTree !! currNodeId = None →
   childrenOf moduleTree currNodeId = [] ∧
   populateDependencyTree (S fuel) currNode currNodeId moduleTree uniqueDepsSet
   = Returns (currNode, uniqueDepsSet)).
Proof.
  split.
  - intros Hparse. unfold getGraphFromDepTree. rewrite Hparse.
    cbn [forRange mbind outcome_bind]. unfold depTreeFuel.
    cbn [moduleDepTree_Nodes moduleDepTree_Root]. rewrite map_size_empty.
    change (0 + 1) with 1.
    rewrite populateDependencyTree_absent by apply lookup_empty.
    cbn [mbind outcome_bind app]. by rewrite elements_empty.
  - intros Habsent. split; [by apply childrenOf_absent|].
    by apply populateDependencyTree_absent.
Qed.

Lemma C8_witness :
  getGraphFromDepTree (tableReadFile sampleFiles) (tableUnmarshal sampleDocuments)
    "single.json"
  = Returns ([mkGraphNode "gav://r" [] None], [], None) ∧
  populateDependencyTree 1 (mkGraphNode "gav://z" [] None) "z" cyclicTree ∅
  = Returns (mkGraphNode "gav://z" [] None, ∅).
Proof.
  split.
  - apply (C8_absent_ids_have_no_children (tableReadFile sampleFiles)
             (tableUnmarshal sampleDocuments) "single.json" "r" singleRoot
             (mkGraphNode "gav://z" [] None) "z" ∅ 0).
    reflexivity.
  - apply (C8_absent_ids_have_no_children (tableReadFile sampleFiles)
             (tableUnmarshal sampleDocuments) "single.json" "r" cyclicTree
             (mkGraphNode "gav://z" [] None) "z" ∅ 0).
    reflexivity.
Defined.

(** ** C9 *)

(** C9, the claim as stated fails. The record [[x], []] of module [m] is
    indirect, its first chain is non-empty and its second chain is empty.
    The run of [addModuleTree] on it panics inside [isDirectDependency]; the
    edge-recording loop is not reached and does not index out of range. And
    the record [[m], []] has an empty chain after the first one, yet it is
    classified without a panic. *)
Lemma C9_edge_loop_not_reached :
  ¬ requestedDirectly "m" [["x"]; []] ∧
  addModuleTree map_to_list (mkModule "m" [mkDependency "c" [["x"]; []]]) ∅
  = Panics IndexOutOfRange_isDirectDependency ∧
  addModuleTree map_to_list (mkModule "m" [mkDependency "c" [["x"]; []]]) ∅
  ≠ Panics IndexOutOfRange_addModuleTree ∧
  ¬ laterChainsNonEmpty [["m"]; []] ∧
  isDirectDependency "m" [["m"]; []] = Returns true.
Proof.
  split.
  { intros [H|[[rest H]|(chain & rest & Hin & ->)]]; [discriminate..|].
    apply list_elem_of_In in Hin. simpl in Hin.
    destruct Hin as [H|[H|[]]]; discriminate. }
  split; [reflexivity|]. split; [discriminate|]. split; [|reflexivity].
  intros H. apply (H 1 []); [lia|reflexivity|reflexivity].
Qed.

(** C9, amended. A record whose first chain is non-empty and in which an
    empty chain comes before any chain that starts with the module's id
    makes [isDirectDependency] index that empty chain out of range. The
    edge-recording loop of [addModuleTree] runs only after
    [isDirectDependency] returned false, which it does only when every chain
    has a first element that is not the module's id, so that loop returns
    and [addModuleTree] never panics at [parent[0]]. The precondition that
    every chain after the first is non-empty is sufficient for
    [isDirectDependency], the classification loop and [addModuleTree] to
    return. *)
Theorem C9_index_out_of_range_only_in_isDirectDependency
    (rangeMap : gmap string Dependency → list (string * Dependency))
    (rangeMap_perm : ∀ m, rangeMap m ≡ₚ map_to_list m)
    (module : Module_) (requestedBy : list (list string)) :
  (∀ before after,
     before ≠ [] → requestedBy = before ++ [] :: after →
     Forall (headedByOther (Module_Id module)) before →
     isDirectDependency (Module_Id module) requestedBy
     = Panics IndexOutOfRange_isDirectDependency) ∧
  (isDirectDependency (Module_Id module) requestedBy = Returns false →
   Forall (λ chain, chain ≠ []) requestedBy ∧
   ∀ dm dependency, ∃ dm', recordRequesters dm dependency requestedBy = Returns dm') ∧
  (∀ uniqueDepsSet,
     addModuleTree rangeMap module uniqueDepsSet ≠ Panics IndexOutOfRange_addModuleTree) ∧
  (laterChainsNonEmpty requestedBy →
   ∃ b, isDirectDependency (Module_Id module) requestedBy = Returns b) ∧
  ((∀ d, d ∈ Module_Dependencies module →
         laterChainsNonEmpty (Dependency_RequestedBy d)) →
   (∃ maps, classifyDependencies (Module_Id module) (Module_Dependencies module)
            = Returns maps) ∧
   ∀ uniqueDepsSet, ∃ r, addModuleTree rangeMap module uniqueDepsSet = Returns r).
Proof.
  split; [|split; [|split; [|split]]].
  - intros before after Hne -> Hbefore. apply isDirectDependency_panics.
    split; [done|]. by exists before, after.
  - intros Hfalse.
    apply isDirectDependency_false, headedByOther_nonempty in Hfalse.
    split; [done|]. intros dm dependency. by apply recordRequesters_total.
  - intros uniq Hpanic.
    destruct (addModuleTree_outcome rangeMap rangeMap_perm module uniq) as [[r Hr]|[Hp _]];
      congruence.
  - apply isDirectDependency_total.
  - intros Hpre. split; [by apply classifyDependencies_total|].
    intros uniq. by apply addModuleTree_total.
Qed.

Lemma C9_witness :
  isDirectDependency "m" [["x"]; []] = Panics IndexOutOfRange_isDirectDependency ∧
  ∃ r, addModuleTree map_to_list cyclicModule ∅ = Returns r.
Proof.
  assert (∀ m : gmap string Dependency, map_to_list m ≡ₚ map_to_list m) as Hperm
    by reflexivity.
  split.
  - apply (C9_index_out_of_range_only_in_isDirectDependency map_to_list Hperm
             (mkModule "m" []) [["x"]; []]) with (before := [["x"]]) (after := []).
    + discriminate.
    + reflexivity.
    + constructor; [|constructor]. exists "x", []. split; [reflexivity|discriminate].
  - apply (C9_index_out_of_range_only_in_isDirectDependency map_to_list Hperm
             cyclicModule []).
    intros d Hd i chain Hi Hchain.
    apply list_elem_of_In in Hd. simpl in Hd.
    destruct Hd as [<-|[<-|[<-|[]]]]; simpl in Hchain;
      (destruct i as [|[|i]]; [lia|discriminate..]).
Defined.

(** ** C10 *)

(** C10. For the empty input, and for an input of white space only, the
    trimmed input splits into the single path that is the empty string; the
    parser reads the file at that path, and when the read fails, as reading
    the empty path does, the parser returns that read error with the nil
    module list. For no input at all does the parser return an empty module
    list without an error: the split always yields at least one path. *)
Theorem C10_no_empty_module_list_without_error
    {error : Type} (ReadFile : string → string * option error)
    (Unmarshal : string → option moduleDepTree * option error)
    (jsonFilePaths : string) :
  (allSpace jsonFilePaths = true →
   Split (TrimSpace jsonFilePaths) newline = [""] ∧
   parseDepTreeFiles ReadFile Unmarshal jsonFilePaths
   = (let '(results, err) := parseDepTreeFile ReadFile Unmarshal "" in
      match err with
      | Some e => ([], Some e)
      | None => ([results], None)
      end) ∧
   ∀ e, (ReadFile "").2 = Some e →
        parseDepTreeFiles ReadFile Unmarshal jsonFilePaths = ([], Some e)) ∧
  (∀ modules,
     parseDepTreeFiles ReadFile Unmarshal jsonFilePaths = (modules, None) →
     modules ≠ []).
Proof.
  split; [|apply parseDepTreeFiles_ok_not_nil].
  intros Hspace.
  assert (parseDepTreeFiles ReadFile Unmarshal jsonFilePaths
          = (let '(results, err) := parseDepTreeFile ReadFile Unmarshal "" in
             match err with
             | Some e => ([], Some e)
             | None => ([results], None)
             end)) as Hparse.
  { unfold parseDepTreeFiles. rewrite TrimSpace_allSpace by done. simpl.
    by destruct (parseDepTreeFile ReadFile Unmarshal "") as [results [e|]]. }
  split; [by rewrite TrimSpace_allSpace|]. split; [done|].
  intros e He. rewrite Hparse.
  by rewrite (parseDepTreeFile_read_error ReadFile Unmarshal "" e).
Qed.

Lemma C10_witness :
  parseDepTreeFiles (tableReadFile sampleFiles) (tableUnmarshal sampleDocuments)
    (String newline "  ")
  = ([], Some "open : no such file or directory").
Proof.
  apply (C10_no_empty_module_list_without_error (tableReadFile sampleFiles)
           (tableUnmarshal sampleDocuments) (String newline "  ")).
  - reflexivity.
  - reflexivity.
Defined.

(** * Further properties of the code *)

Lemma returned_inv {A : Type} (run : outcome A) :
  returned run = true → ∃ r, run = Returns r.
Proof. destruct run; [by eexists|done..]. Qed.

Lemma map_to_list_visits (m : gmap string Dependency) : map_to_list m ≡ₚ map_to_list m.
Proof. reflexivity. Qed.

(** ** The multimap (javautils.go:159-178) *)

(** X1. What [getChildren] reads after a [putChild]: under the parent of the
    insertion, at the id of the inserted record, the inserted record; at
    every other parent and every other id, what was there before. A
    multimap that was just created has no children under any parent. *)
Theorem X1_putChild_getChildren
    (dm : dependencyMultimap) (parent parent' key : string) (child : Dependency) :
  getChildren newDependencyMultimap parent' = ∅ ∧
  getChildren (putChild dm parent child) parent !! Dependency_Id child = Some child ∧
  getChildren (putChild dm parent child) parent' !! key
  = if decide (parent' = parent ∧ key = Dependency_Id child) then Some child
    else getChildren dm parent' !! key.
Proof.
  split; [apply getChildren_new|].
  split.
  - rewrite getChildren_putChild, decide_True by done. apply lookup_insert_eq.
  - rewrite getChildren_putChild.
    destruct (decide (parent = parent')) as [<-|Hparent].
    + destruct (decide (key = Dependency_Id child)) as [->|Hkey].
      * rewrite decide_True by done. apply lookup_insert_eq.
      * rewrite decide_False by naive_solver. by rewrite lookup_insert_ne.
    + by rewrite decide_False by naive_solver.
Qed.

(** X2. Insertions under one parent are keyed by the id of the record: a
    second record with the same id replaces the first, and inserting the
    same record twice is inserting it once. Insertions at different parents,
    or of different ids, can be swapped. *)
Theorem X2_putChild_overwrites_and_commutes
    (dm : dependencyMultimap) (parent1 parent2 : string) (child1 child2 : Dependency) :
  (Dependency_Id child1 = Dependency_Id child2 →
   putChild (putChild dm parent1 child1) parent1 child2 = putChild dm parent1 child2) ∧
  putChild (putChild dm parent1 child1) parent1 child1 = putChild dm parent1 child1 ∧
  (parent1 ≠ parent2 ∨ Dependency_Id child1 ≠ Dependency_Id child2 →
   putChild (putChild dm parent1 child1) parent2 child2
   = putChild (putChild dm parent2 child2) parent1 child1).
Proof.
  assert (∀ c1 c2, Dependency_Id c1 = Dependency_Id c2 →
            putChild (putChild dm parent1 c1) parent1 c2 = putChild dm parent1 c2) as Hover.
  { intros c1 c2 Hid. unfold putChild at 1 3.
    rewrite getChildren_putChild, decide_True by done.
    unfold putChild. rewrite insert_insert_eq, Hid, insert_insert_eq. done. }
  split; [apply Hover|]. split; [by apply Hover|].
  intros Hne. unfold putChild at 1 3.
  rewrite !getChildren_putChild.
  destruct (decide (parent1 = parent2)) as [<-|Hparent].
  - destruct Hne as [?|Hid]; [done|].
    rewrite decide_True by done. unfold putChild.
    rewrite !insert_insert_eq. f_equal. by apply insert_insert_ne.
  - rewrite decide_False by done.
    unfold putChild. by apply insert_insert_ne.
Qed.

Lemma X2_witness :
  putChild (putChild newDependencyMultimap "gav://p" (mkDependency "c" [["p"]]))
    "gav://p" (mkDependency "c" [["p"; "q"]])
  = putChild newDependencyMultimap "gav://p" (mkDependency "c" [["p"; "q"]]) ∧
  putChild (putChild newDependencyMultimap "gav://p" (mkDependency "c" [["p"]]))
    "gav://q" (mkDependency "c" [["q"]])
  = putChild (putChild newDependencyMultimap "gav://q" (mkDependency "c" [["q"]]))
      "gav://p" (mkDependency "c" [["p"]]).
Proof.
  split.
  - apply (X2_putChild_overwrites_and_commutes newDependencyMultimap "gav://p" "gav://p").
    reflexivity.
  - apply (X2_putChild_overwrites_and_commutes newDependencyMultimap "gav://p" "gav://q").
    left. discriminate.
Defined.

(** ** isDirectDependency (javautils.go:100-112) *)

Lemma isDirectDependency_range_true_iff (moduleId : string) (chains : list (list string)) :
  isDirectDependency_range moduleId chains = Returns true ↔
  ∃ before rest after,
    chains = before ++ (moduleId :: rest) :: after ∧
    Forall (headedByOther moduleId) before.
Proof.
  split.
  - induction chains as [|c chains IH]; simpl; [done|].
    destruct c as [|p0 rest]; simpl; [done|].
    case_bool_decide as Hp0.
    + intros _. subst. by exists [], rest, chains.
    + intros (before & rest' & after & -> & Hbefore)%IH.
      exists ((p0 :: rest) :: before), rest', after. split; [done|].
      constructor; [by exists p0, rest|done].
  - intros (before & rest & after & -> & Hbefore).
    rewrite isDirectDependency_range_skip by done. simpl.
    by rewrite bool_decide_true.
Qed.

Lemma isDirectDependency_range_false_iff (moduleId : string) (chains : list (list string)) :
  isDirectDependency_range moduleId chains = Returns false ↔
  Forall (headedByOther moduleId) chains.
Proof.
  split; [apply isDirectDependency_range_false|].
  intros Hall. rewrite <- (app_nil_r chains).
  by rewrite isDirectDependency_range_skip.
Qed.

(** X3. The three outcomes of [isDirectDependency], exactly. It returns true
    when there is no chain, when the first chain is empty, or when a chain
    starts with the module's id and every chain before it has a first
    element, which is another id. It returns false when there is a chain
    and every chain has a first element that is not the module's id. It
    panics, at the index of line 106, when an empty chain that is not the
    first comes before any chain that starts with the module's id. *)
Theorem X3_isDirectDependency_outcomes
    (moduleId : string) (requestedBy : list (list string)) :
  (isDirectDependency moduleId requestedBy = Returns true ↔
   requestedBy = [] ∨
   (∃ rest, requestedBy = [] :: rest) ∨
   (∃ before rest after,
      requestedBy = before ++ (moduleId :: rest) :: after ∧
      Forall (headedByOther moduleId) before)) ∧
  (isDirectDependency moduleId requestedBy = Returns false ↔
   requestedBy ≠ [] ∧ Forall (headedByOther moduleId) requestedBy) ∧
  (∀ site,
     isDirectDependency moduleId requestedBy = Panics site ↔
     site = IndexOutOfRange_isDirectDependency ∧
     ∃ before after,
       before ≠ [] ∧ requestedBy = before ++ [] :: after ∧
       Forall (headedByOther moduleId) before) ∧
  isDirectDependency moduleId requestedBy ≠ OutOfFuel.
Proof.
  split; [|split; [|split]].
  - unfold isDirectDependency.
    destruct requestedBy as [|[|p0 rest] chains]; simpl.
    + naive_solver.
    + split; [|done]. intros _. right; left. by exists chains.
    + change (isDirectDependency_range moduleId ((p0 :: rest) :: chains) = Returns true ↔
              (p0 :: rest) :: chains = [] ∨
              (∃ rest0, (p0 :: rest) :: chains = [] :: rest0) ∨
              (∃ before rest0 after,
                 (p0 :: rest) :: chains = before ++ (moduleId :: rest0) :: after ∧
                 Forall (headedByOther moduleId) before)).
      rewrite isDirectDependency_range_true_iff. naive_solver.
  - unfold isDirectDependency.
    destruct requestedBy as [|[|p0 rest] chains]; simpl.
    + naive_solver.
    + split; [done|]. intros [_ Hall].
      apply Forall_cons in Hall as [(q & r & [=] & _) _].
    + change (isDirectDependency_range moduleId ((p0 :: rest) :: chains) = Returns false ↔
              (p0 :: rest) :: chains ≠ [] ∧
              Forall (headedByOther moduleId) ((p0 :: rest) :: chains)).
      rewrite isDirectDependency_range_false_iff. naive_solver.
  - intros site. rewrite isDirectDependency_panics. naive_solver.
  - apply isDirectDependency_never_out_of_fuel.
Qed.

(** X4. Of every chain only the first element is read: cutting each
    requested-by chain down to its immediate requester changes nothing in
    what [isDirectDependency] does. *)
Theorem X4_isDirectDependency_reads_heads_only
    (moduleId : string) (requestedBy : list (list string)) :
  isDirectDependency moduleId (take 1 <$> requestedBy)
  = isDirectDependency moduleId requestedBy.
Proof.
  unfold isDirectDependency.
  assert (isDirectDependency_range moduleId (take 1 <$> requestedBy)
          = isDirectDependency_range moduleId requestedBy) as ->.
  { induction requestedBy as [|[|p0 rest] chains IH]; csimpl; [done|done|].
    by rewrite IH. }
  by destruct requestedBy as [|[|p0 rest] chains].
Qed.

(** ** The two loops of addModuleTree (javautils.go:73-98) *)

(** A loop that returns has run its body on every element, and whatever
    the later rounds preserve of the result of that round holds at the
    end. *)
Lemma forRange_returns_elem {A B : Type} (R : B → B → Prop)
    (body : B → A → outcome B) (xs : list A) (acc r : B) (x : A) :
  (∀ b, R b b) →
  (∀ b1 b2 b3, R b1 b2 → R b2 b3 → R b1 b3) →
  (∀ b y b', body b y = Returns b' → R b b') →
  forRange body acc xs = Returns r →
  x ∈ xs →
  ∃ acc1 acc2, R acc acc1 ∧ body acc1 x = Returns acc2 ∧ R acc2 r.
Proof.
  intros Hrefl Htrans Hbody. revert acc.
  induction xs as [|y ys IH]; intros acc Hrun Hin; [by apply elem_of_nil in Hin|].
  simpl in Hrun. destruct (body acc y) as [acc'| |] eqn:Hy; simpl in Hrun; try done.
  apply elem_of_cons in Hin as [->|Hin].
  - exists acc, acc'. split; [done|]. split; [done|].
    eapply (forRange_invariant (R acc')); [apply Hrefl| |exact Hrun].
    intros b z b' _ Hb Hz. eapply Htrans; [exact Hb|]. by eapply Hbody.
  - destruct (IH acc' Hrun Hin) as (acc1 & acc2 & H1 & H2 & H3).
    exists acc1, acc2. split; [|done]. eapply Htrans; [|exact H1]. by eapply Hbody.
Qed.

(** X5. After the first loop of [addModuleTree] every dependency of the
    module is in one of the two maps: the direct ones in
    [directDependencies] under their id, the others in the multimap under
    the prefixed head of each of their requested-by chains; and the maps
    hold nothing else. *)
Theorem X5_first_loop_sorts_every_dependency
    (moduleId : string) (dependencies : list Dependency)
    (directDependencies : gmap string Dependency)
    (parentToChildren : dependencyMultimap) :
  classifyDependencies moduleId dependencies
  = Returns (directDependencies, parentToChildren) →
  (∀ id, is_Some (directDependencies !! id) ↔
         ∃ d, d ∈ dependencies ∧ Dependency_Id d = id ∧
              requestedDirectly moduleId (Dependency_RequestedBy d)) ∧
  (∀ id d, directDependencies !! id = Some d →
           d ∈ dependencies ∧ Dependency_Id d = id ∧
           requestedDirectly moduleId (Dependency_RequestedBy d)) ∧
  (∀ parent key, is_Some (getChildren parentToChildren parent !! key) ↔
                 ∃ d, d ∈ dependencies ∧ Dependency_Id d = key ∧
                      requestedThrough moduleId parent d) ∧
  (∀ parent key child, getChildren parentToChildren parent !! key = Some child →
                       child ∈ dependencies ∧ Dependency_Id child = key ∧
                       requestedThrough moduleId parent child) ∧
  (∀ d, d ∈ dependencies →
        is_Some (directDependencies !! Dependency_Id d) ∨
        ∃ p0 rest, p0 :: rest ∈ Dependency_RequestedBy d ∧
          is_Some (getChildren parentToChildren (GavPackageTypeIdentifier +:+ p0)
                     !! Dependency_Id d)).
Proof.
  intros Hrun.
  destruct (classify_from _ _ _ _ _ _ keyedById_new Hrun)
    as (_ & Hdd & Hdd' & Hdm & Hdm').
  assert (Hdirect : ∀ id d, directDependencies !! id = Some d →
            d ∈ dependencies ∧ Dependency_Id d = id ∧
            requestedDirectly moduleId (Dependency_RequestedBy d)).
  { intros id d Hd. by destruct (Hdd id d Hd) as [Hempty|?]. }
  assert (Hthrough : ∀ parent key child,
            getChildren parentToChildren parent !! key = Some child →
            child ∈ dependencies ∧ Dependency_Id child = key ∧
            requestedThrough moduleId parent child).
  { intros parent key child Hc. destruct (Hdm parent key child Hc) as [Hempty|?]; [|done].
    by rewrite getChildren_new in Hempty. }
  split; [|split; [done|split; [|split; [done|]]]].
  - intros id. split; [|by intros ?; apply Hdd'; right].
    intros [d Hd]. exists d. by apply Hdirect.
  - intros parent key. split; [|by intros ?; apply Hdm'; right].
    intros [d Hd]. exists d. by apply Hthrough.
  - intros d Hin.
    destruct (forRange_returns_elem (λ _ _, True) _ _ _ _ d
                ltac:(done) ltac:(done) ltac:(done) Hrun Hin)
      as ([dd1 dm1] & acc2 & _ & Hbody & _).
    unfold classifyDependency in Hbody.
    destruct (isDirectDependency moduleId (Dependency_RequestedBy d))
      as [[|]| |] eqn:Hd; simpl in Hbody; try done.
    + left. apply Hdd'. right. exists d. split; [done|]. split; [done|].
      by apply (isDirectDependency_returns_spec _ _ _ Hd).
    + right.
      assert (Hnot : ¬ requestedDirectly moduleId (Dependency_RequestedBy d)).
      { intros Hyes. by apply (isDirectDependency_returns_spec _ _ _ Hd) in Hyes. }
      pose proof (isDirectDependency_false _ _ Hd) as Hall.
      destruct (Dependency_RequestedBy d) as [|chain chains] eqn:Hrb;
        [by destruct Hnot; left|].
      apply Forall_cons in Hall as [(p0 & rest & -> & _) _].
      exists p0, rest. split; [by left|].
      apply Hdm'. right. exists d. split; [done|]. split; [done|].
      split; [by rewrite Hrb|]. exists p0, rest. rewrite Hrb. split; [by left|done].
Qed.

Lemma X5_witness :
  ∃ directDependencies parentToChildren,
    classifyDependencies "m" (Module_Dependencies cyclicModule)
    = Returns (directDependencies, parentToChildren) ∧
    ∀ d, d ∈ Module_Dependencies cyclicModule →
         is_Some (directDependencies !! Dependency_Id d) ∨
         ∃ p0 rest, p0 :: rest ∈ Dependency_RequestedBy d ∧
           is_Some (getChildren parentToChildren (GavPackageTypeIdentifier +:+ p0)
                      !! Dependency_Id d).
Proof.
  destruct (returned_inv (classifyDependencies "m" (Module_Dependencies cyclicModule)))
    as [[directDependencies parentToChildren] Hrun]; [vm_compute; reflexivity|].
  rewrite Hrun.
  exists directDependencies, parentToChildren. split; [reflexivity|].
  apply (X5_first_loop_sorts_every_dependency "m" (Module_Dependencies cyclicModule)
           directDependencies parentToChildren Hrun).
Defined.

(** The visit of a map whose values are filed under their own id, read as
    the ids of the values: every key once. *)
Lemma rangeMap_ids (rangeMap : gmap string Dependency → list (string * Dependency))
    (rangeMap_perm : ∀ m, rangeMap m ≡ₚ map_to_list m)
    (m : gmap string Dependency) :
  (∀ key d, m !! key = Some d → Dependency_Id d = key) →
  (λ entry : string * Dependency, Dependency_Id entry.2) <$> rangeMap m = (rangeMap m).*1 ∧
  NoDup ((rangeMap m).*1) ∧
  ∀ id, id ∈ (rangeMap m).*1 ↔ is_Some (m !! id).
Proof.
  intros Hkeyed. split; [|split].
  - apply list_eq_Forall2, Forall2_fmap, Forall_Forall2_diag, Forall_forall.
    intros [key d] Hin. simpl. apply (Hkeyed key d).
    by apply (rangeMap_lookup rangeMap rangeMap_perm).
  - rewrite rangeMap_perm. apply NoDup_fst_map_to_list.
  - intros id. rewrite list_elem_of_fmap. split.
    + intros ([key d] & -> & Hin). exists d.
      by apply (rangeMap_lookup rangeMap rangeMap_perm).
    + intros [d Hd]. exists (id, d). split; [done|].
      by apply (rangeMap_lookup rangeMap rangeMap_perm).
Qed.

Lemma gav_prefix_Inj : Inj (=) (=) (λ raw : string, GavPackageTypeIdentifier +:+ raw).
Proof. intros a b. apply gav_prefix_inj. Qed.

(** X6. The tree of a module: the root carries the prefixed module id and
    no parent; its children are the direct dependencies of the module, one
    node for each id however often the id is listed; the caller's set grows
    by exactly the ids of the tree; and a module without dependencies gives
    the bare root. *)
Theorem X6_addModuleTree_root_and_direct_children
    (rangeMap : gmap string Dependency → list (string * Dependency))
    (rangeMap_perm : ∀ m, rangeMap m ≡ₚ map_to_list m)
    (module : Module_) (uniqueDepsSet : gset string)
    (moduleTree : GraphNode) (uniqueDepsSet' : gset string) :
  addModuleTree rangeMap module uniqueDepsSet = Returns (moduleTree, uniqueDepsSet') →
  GraphNode_Id moduleTree = GavPackageTypeIdentifier +:+ Module_Id module ∧
  GraphNode_Parent moduleTree = None ∧
  NoDup (GraphNode_Id <$> GraphNode_Nodes moduleTree) ∧
  (∀ id, id ∈ GraphNode_Id <$> GraphNode_Nodes moduleTree ↔
         ∃ d, d ∈ Module_Dependencies module ∧
              id = GavPackageTypeIdentifier +:+ Dependency_Id d ∧
              requestedDirectly (Module_Id module) (Dependency_RequestedBy d)) ∧
  uniqueDepsSet' = uniqueDepsSet ∪ graphIds moduleTree ∧
  (Module_Dependencies module = [] →
   moduleTree = mkGraphNode (GavPackageTypeIdentifier +:+ Module_Id module) [] None).
Proof.
  intros Hrun.
  destruct (addModuleTree_effect rangeMap rangeMap_perm _ _ _ _ Hrun)
    as (dd & dm & Hclassify & Hid & Hparent & Hnodes & Hset & _).
  destruct (classify_from _ _ _ _ _ _ keyedById_new Hclassify)
    as (_ & Hdd & Hdd' & _ & _).
  assert (Hkeyed : ∀ key d, dd !! key = Some d → Dependency_Id d = key).
  { intros key d Hd. by destruct (Hdd key d Hd) as [?|(_ & ? & _)]. }
  destruct (rangeMap_ids rangeMap rangeMap_perm dd Hkeyed) as (Hids & Hnodup & Hin).
  assert (Hchildren : GraphNode_Id <$> GraphNode_Nodes moduleTree
                      = (λ raw, GavPackageTypeIdentifier +:+ raw) <$> (rangeMap dd).*1).
  { rewrite Hnodes, <- Hids, <- list_fmap_compose. done. }
  assert (Hmember : ∀ id, id ∈ GraphNode_Id <$> GraphNode_Nodes moduleTree ↔
            ∃ d, d ∈ Module_Dependencies module ∧
                 id = GavPackageTypeIdentifier +:+ Dependency_Id d ∧
                 requestedDirectly (Module_Id module) (Dependency_RequestedBy d)).
  { intros id. rewrite Hchildren, list_elem_of_fmap. split.
    - intros (raw & -> & Hraw). apply Hin in Hraw as [d Hd].
      destruct (Hdd raw d Hd) as [?|(? & <- & ?)]; [done|]. by exists d.
    - intros (d & Hd & -> & Hdirect). exists (Dependency_Id d). split; [done|].
      apply Hin, Hdd'. right. by exists d. }
  repeat split; try done.
  - rewrite Hchildren. by apply (NoDup_fmap_2 _ (Inj0 := gav_prefix_Inj)).
  - by apply Hmember.
  - by apply Hmember.
  - intros Hnone. destruct moduleTree as [i [|node nodes] p]; simpl in *; [by subst|].
    assert (Hhas : GraphNode_Id node ∈ GraphNode_Id <$> (node :: nodes)) by (by left).
    apply Hmember in Hhas as (d & Hd & _). rewrite Hnone in Hd.
    by apply elem_of_nil in Hd.
Qed.

Lemma X6_witness :
  ∃ moduleTree uniqueDepsSet',
    addModuleTree map_to_list cyclicModule {[ "gav://other" ]}
    = Returns (moduleTree, uniqueDepsSet') ∧
    NoDup (GraphNode_Id <$> GraphNode_Nodes moduleTree) ∧
    uniqueDepsSet' = {[ "gav://other" ]} ∪ graphIds moduleTree.
Proof.
  destruct (returned_inv (addModuleTree map_to_list cyclicModule {[ "gav://other" ]}))
    as [[moduleTree uniqueDepsSet'] Hrun]; [vm_compute; reflexivity|].
  rewrite Hrun.
  exists moduleTree, uniqueDepsSet'. split; [reflexivity|].
  destruct (X6_addModuleTree_root_and_direct_children map_to_list map_to_list_visits cyclicModule
              {[ "gav://other" ]} moduleTree uniqueDepsSet' Hrun)
    as (_ & _ & Hnodup & _ & Hset & _).
  split; [exact Hnodup|exact Hset].
Defined.

(** ** createGavDependencyTree (javautils.go:48-71) *)

(** X7. What [createGavDependencyTree] makes of the builds it was handed:
    an error of the lookup or an empty list of builds gives that error, or
    the could-not-find error, with no trees and no ids; otherwise only the
    first build is read, the result has no error, one tree per module of
    that build in the order of the modules, and as unique ids the ids of the
    trees, each once. The only way not to return is the index panic of
    [isDirectDependency] on a dependency of one of the modules. *)
Theorem X7_createGavDependencyTree_results
    (rangeMap : gmap string Dependency → list (string * Dependency))
    (rangeMap_perm : ∀ m, rangeMap m ≡ₚ map_to_list m)
    {error : Type} (couldntFindBuild : error) :
  (∀ builds e,
     createGavDependencyTree rangeMap couldntFindBuild (builds, Some e)
     = Returns ([], [], Some e)) ∧
  createGavDependencyTree rangeMap couldntFindBuild ([], None)
  = Returns ([], [], Some couldntFindBuild) ∧
  (∀ buildInfo rest,
     createGavDependencyTree rangeMap couldntFindBuild (buildInfo :: rest, None)
     = createGavDependencyTree rangeMap couldntFindBuild ([buildInfo], None)) ∧
  (∀ buildInfo rest trees uniqueDeps err,
     createGavDependencyTree rangeMap couldntFindBuild (buildInfo :: rest, None)
     = Returns (trees, uniqueDeps, err) →
     err = None ∧
     GraphNode_Id <$> trees
     = (λ module, GavPackageTypeIdentifier +:+ Module_Id module)
         <$> BuildInfo_Modules buildInfo ∧
     Forall (λ tree, GraphNode_Parent tree = None) trees ∧
     list_to_set uniqueDeps = forestIds trees ∧
     NoDup uniqueDeps) ∧
  (∀ buildInfo rest,
     createGavDependencyTree rangeMap couldntFindBuild (buildInfo :: rest, None)
     ≠ OutOfFuel ∧
     ∀ site,
       createGavDependencyTree rangeMap couldntFindBuild (buildInfo :: rest, None)
       = Panics site →
       site = IndexOutOfRange_isDirectDependency ∧
       ∃ module d,
         module ∈ BuildInfo_Modules buildInfo ∧ d ∈ Module_Dependencies module ∧
         isDirectDependency (Module_Id module) (Dependency_RequestedBy d)
         = Panics IndexOutOfRange_isDirectDependency).
Proof.
  split; [by intros [|b builds] e|]. split; [done|]. split; [done|]. split.
  - intros buildInfo rest trees uniqueDeps err Hrun.
    destruct (createGavDependencyTree_effect rangeMap rangeMap_perm _ _ _ _ _ Hrun)
      as (Hshape & Hset & Hnodup).
    destruct err as [e|].
    { destruct Hshape as (_ & [He|[He _]]); simpl in He; done. }
    destruct Hshape as (b & rest' & [= <- <-] & Hall).
    split; [done|]. split; [|split; [|done]].
    + apply list_eq_Forall2, Forall2_fmap, Forall2_flip.
      eapply Forall2_impl; [exact Hall|].
      intros module tree (uniq & uniq' & Htree). simpl.
      by destruct (addModuleTree_effect rangeMap rangeMap_perm _ _ _ _ Htree)
        as (? & ? & _ & ? & _).
    + eapply Forall2_Forall_r; [exact Hall|]. apply Forall_forall.
      intros tree _ module (uniq & uniq' & Htree).
      by destruct (addModuleTree_effect rangeMap rangeMap_perm _ _ _ _ Htree)
        as (? & ? & _ & _ & ? & _).
  - intros buildInfo rest. unfold createGavDependencyTree.
    destruct (forRange _ _ (BuildInfo_Modules buildInfo)) as [[trees uniq]|site'|] eqn:Hloop;
      simpl.
    + done.
    + split; [done|]. intros site [= <-].
      apply forRange_panics_inv in Hloop as ([trees uniq] & module & Hin & Hbody).
      destruct (addModuleTree_outcome rangeMap rangeMap_perm module uniq)
        as [[[tree uniq'] Hr]|(Hp & d & Hd & Hpanic)].
      * by rewrite Hr in Hbody.
      * rewrite Hp in Hbody. injection Hbody as <-. split; [done|]. by exists module, d.
    + apply forRange_out_of_fuel_inv in Hloop as ([trees uniq] & module & Hin & Hbody).
      destruct (addModuleTree_outcome rangeMap rangeMap_perm module uniq)
        as [[[tree uniq'] Hr]|(Hp & _)].
      * by rewrite Hr in Hbody.
      * by rewrite Hp in Hbody.
Qed.

Lemma X7_witness :
  ∃ trees uniqueDeps,
    createGavDependencyTree map_to_list "not found"
      ([mkBuildInfo [cyclicModule; mkModule "n" []]; mkBuildInfo []], None)
    = Returns (trees, uniqueDeps, None) ∧
    GraphNode_Id <$> trees = ["gav://m"; "gav://n"] ∧
    list_to_set uniqueDeps = forestIds trees ∧
    NoDup uniqueDeps.
Proof.
  destruct (X7_createGavDependencyTree_results map_to_list map_to_list_visits "not found")
    as (_ & _ & _ & Hok & _).
  destruct (returned_inv
              (createGavDependencyTree map_to_list "not found"
                 ([mkBuildInfo [cyclicModule; mkModule "n" []]; mkBuildInfo []], None)))
    as [[[trees uniqueDeps] err] Hrun]; [vm_compute; reflexivity|].
  rewrite Hrun.
  destruct (Hok _ _ _ _ _ Hrun) as (-> & Hids & _ & Hset & Hnodup).
  exists trees, uniqueDeps. split; [reflexivity|].
  split; [exact Hids|]. split; [exact Hset|exact Hnodup].
Defined.

(** ** The requested-by tree as a function of the multimap *)

Section UnfoldDependency.

Variable rangeMap : gmap string Dependency → list (string * Dependency).

Lemma appendNode_inj (n a b : GraphNode) : appendNode n a = appendNode n b → a = b.
Proof. unfold appendNode. intros [= H]. by apply app_inj_tail in H as [_ ?]. Qed.

Lemma populateTransitiveDependencies_unfold (dm : dependencyMultimap) (fuel : nat)
    (parent : GraphNode) (dependencyId : string) (idsAdded : list string)
    (uniqueDepsSet : gset string) (parent' : GraphNode) (uniqueDepsSet' : gset string) :
  populateTransitiveDependencies rangeMap fuel parent dependencyId dm idsAdded
    uniqueDepsSet = Returns (parent', uniqueDepsSet') →
  dependencyId ∉ idsAdded →
  parent' = appendNode parent (unfoldDependency rangeMap (fuel - 1) dm idsAdded dependencyId).
Proof.
  revert parent dependencyId idsAdded uniqueDepsSet parent' uniqueDepsSet'.
  induction fuel as [|fuel IH]; intros parent d ids uniq parent' uniq' Hrun Hfresh;
    [done|].
  cbn [populateTransitiveDependencies] in Hrun.
  apply hasLoop_false in Hfresh as Hloop. rewrite Hloop in Hrun.
  cbn [GraphNode_Id] in Hrun.
  match type of Hrun with
  | (forRange ?body ?acc ?xs ≫= _) = _ =>
      destruct (forRange body acc xs) as [[node' uniq1]| |] eqn:Hchildren
  end; simpl in Hrun; try done.
  injection Hrun as <- <-. f_equal.
  replace (S fuel - 1) with fuel by lia.
  assert (Hgen : ∀ entries node0 uniq0 node1 uniq1',
    forRange
      (λ '(node, uniqueDepsSet) '(_, child),
         populateTransitiveDependencies rangeMap fuel node (Dependency_Id child) dm
           (ids ++ [d]) uniqueDepsSet)
      (node0, uniq0) entries = Returns (node1, uniq1') →
    (entries ≠ [] → fuel ≠ 0) ∧
    node1 = mkGraphNode (GraphNode_Id node0)
              (GraphNode_Nodes node0 ++
               (unfoldDependency rangeMap (fuel - 1) dm (ids ++ [d])
                  <$> filter (λ childId, childId ∉ ids ++ [d])
                        ((λ entry : string * Dependency, Dependency_Id entry.2)
                           <$> entries)))
              (GraphNode_Parent node0)).
  { clear Hchildren. induction entries as [|[key child] entries IHentries];
      intros node0 uniq0 node1 uniq1' Hloop'.
    - injection Hloop' as <- <-. split; [done|]. destruct node0; simpl.
      by rewrite app_nil_r.
    - simpl in Hloop'.
      destruct (populateTransitiveDependencies rangeMap fuel node0 (Dependency_Id child)
                  dm (ids ++ [d]) uniq0) as [[node2 uniq2]| |] eqn:Hchild;
        simpl in Hloop'; try done.
      split; [intros _ ->; done|].
      destruct (IHentries _ _ _ _ Hloop') as [_ ->].
      csimpl. rewrite filter_cons.
      destruct (decide (Dependency_Id child ∉ ids ++ [d])) as [Hnew|Hold].
      + rewrite (IH _ _ _ _ _ _ Hchild Hnew). destruct node0 as [i ns p]; simpl.
        csimpl. by rewrite <- app_assoc.
      + assert (Hon : Dependency_Id child ∈ ids ++ [d]).
        { destruct (decide (Dependency_Id child ∈ ids ++ [d])); [done|by destruct Hold]. }
        destruct fuel as [|fuel']; [done|].
        cbn [populateTransitiveDependencies] in Hchild.
        apply hasLoop_spec in Hon. rewrite Hon in Hchild. by injection Hchild as <- <-. }
  destruct (Hgen _ _ _ _ _ Hchildren) as [Hfuel ->]. simpl.
  destruct fuel as [|fuel'].
  - destruct (rangeMap (getChildren dm (GavPackageTypeIdentifier +:+ d))) as [|e es];
      [done|]. by destruct Hfuel.
  - simpl. by replace (fuel' - 0) with fuel' by lia.
Qed.

End UnfoldDependency.

Lemma directDependencies_unfold
    (rangeMap : gmap string Dependency → list (string * Dependency))
    (dm : dependencyMultimap) (fuel : nat) (entries : list (string * Dependency))
    (moduleTree : GraphNode) (uniqueDepsSet : gset string)
    (moduleTree' : GraphNode) (uniqueDepsSet' : gset string) :
  forRange
    (λ '(moduleTree, uniqueDepsSet) '(_, directDependency),
       populateTransitiveDependencies rangeMap fuel moduleTree
         (Dependency_Id directDependency) dm [] uniqueDepsSet)
    (moduleTree, uniqueDepsSet) entries = Returns (moduleTree', uniqueDepsSet') →
  moduleTree'
  = mkGraphNode (GraphNode_Id moduleTree)
      (GraphNode_Nodes moduleTree ++
       (unfoldDependency rangeMap (fuel - 1) dm []
          <$> ((λ entry : string * Dependency, Dependency_Id entry.2) <$> entries)))
      (GraphNode_Parent moduleTree).
Proof.
  revert moduleTree uniqueDepsSet.
  induction entries as [|[key d] entries IH]; intros tree uniq Hrun.
  - injection Hrun as <- <-. destruct tree; simpl. by rewrite app_nil_r.
  - simpl in Hrun.
    destruct (populateTransitiveDependencies rangeMap fuel tree (Dependency_Id d) dm []
                uniq) as [[tree1 uniq1]| |] eqn:Hd; simpl in Hrun; try done.
    rewrite (IH _ _ Hrun).
    rewrite (populateTransitiveDependencies_unfold _ _ _ _ _ _ _ _ _ Hd)
      by apply not_elem_of_nil.
    destruct tree as [i ns p]; csimpl. by rewrite <- app_assoc.
Qed.

(** X8. The accumulating calls compute a tree that can be written down
    from the multimap alone: a call for an id that is not on the path appends
    to its parent the unfolding of the multimap from that id, and the caller's
    set grows by the ids of that unfolding; the tree of a module is its root
    over the unfoldings of its direct dependencies, in the order of the
    visit. Any depth from the budget of the call upwards gives the same
    tree. *)
Theorem X8_requested_by_tree_is_the_unfolding
    (rangeMap : gmap string Dependency → list (string * Dependency))
    (rangeMap_perm : ∀ m, rangeMap m ≡ₚ map_to_list m) :
  (∀ parentToChildren fuel parent dependencyId idsAdded uniqueDepsSet
     parent' uniqueDepsSet' depth,
     populateTransitiveDependencies rangeMap fuel parent dependencyId parentToChildren
       idsAdded uniqueDepsSet = Returns (parent', uniqueDepsSet') →
     dependencyId ∉ idsAdded →
     fuel - 1 ≤ depth →
     parent' = appendNode parent
                 (unfoldDependency rangeMap depth parentToChildren idsAdded dependencyId) ∧
     uniqueDepsSet'
     = uniqueDepsSet ∪
       graphIds (unfoldDependency rangeMap depth parentToChildren idsAdded dependencyId)) ∧
  (∀ module uniqueDepsSet moduleTree uniqueDepsSet' directDependencies
     parentToChildren depth,
     addModuleTree rangeMap module uniqueDepsSet = Returns (moduleTree, uniqueDepsSet') →
     classifyDependencies (Module_Id module) (Module_Dependencies module)
     = Returns (directDependencies, parentToChildren) →
     transitiveFuel module - 1 ≤ depth →
     moduleTree
     = mkGraphNode (GavPackageTypeIdentifier +:+ Module_Id module)
         (unfoldDependency rangeMap depth parentToChildren []
            <$> ((λ entry : string * Dependency, Dependency_Id entry.2)
                   <$> rangeMap directDependencies))
         None).
Proof.
  split.
  - intros dm fuel parent d ids uniq parent' uniq' depth Hrun Hfresh Hdepth.
    assert (Hrun' : populateTransitiveDependencies rangeMap (S depth) parent d dm ids uniq
                    = Returns (parent', uniq')).
    { eapply populateTransitiveDependencies_fuel_mono; [|exact Hrun]. lia. }
    apply populateTransitiveDependencies_unfold in Hrun' as Htree; [|done].
    replace (S depth - 1) with depth in Htree by lia. split; [done|].
    destruct (populateTransitiveDependencies_effect rangeMap rangeMap_perm _ _ _ _ _ _ _ _
                Hrun) as [(Hon & _)|(_ & node & sub & Hnode & _ & _ & Hids & _ & -> & _)];
      [done|].
    rewrite Hnode in Htree. apply appendNode_inj in Htree as <-. rewrite Hids.
    set_solver.
  - intros module uniq tree uniq' dd dm depth Hrun Hclassify Hdepth.
    unfold addModuleTree in Hrun. rewrite Hclassify in Hrun. simpl in Hrun.
    assert (Hrun' :
      forRange
        (λ '(moduleTree, uniqueDepsSet) '(_, directDependency),
           populateTransitiveDependencies rangeMap (S depth) moduleTree
             (Dependency_Id directDependency) dm [] uniqueDepsSet)
        (mkGraphNode (GavPackageTypeIdentifier +:+ Module_Id module) [] None,
         {[ GavPackageTypeIdentifier +:+ Module_Id module ]} ∪ uniq)
        (rangeMap dd) = Returns (tree, uniq')).
    { eapply forRange_returns_mono; [|exact Hrun].
      intros [t u] [key d] r Hr.
      eapply populateTransitiveDependencies_fuel_mono; [|exact Hr]. lia. }
    apply directDependencies_unfold in Hrun'.
    by replace (S depth - 1) with depth in Hrun' by lia.
Qed.

Lemma X8_witness :
  ∃ moduleTree uniqueDepsSet' directDependencies parentToChildren,
    addModuleTree map_to_list cyclicModule ∅ = Returns (moduleTree, uniqueDepsSet') ∧
    classifyDependencies "m" (Module_Dependencies cyclicModule)
    = Returns (directDependencies, parentToChildren) ∧
    moduleTree
    = mkGraphNode "gav://m"
        (unfoldDependency map_to_list 7 parentToChildren []
           <$> ((λ entry : string * Dependency, Dependency_Id entry.2)
                  <$> map_to_list directDependencies))
        None.
Proof.
  destruct (X8_requested_by_tree_is_the_unfolding map_to_list map_to_list_visits)
    as [_ Hmodule].
  destruct (returned_inv (addModuleTree map_to_list cyclicModule ∅))
    as [[moduleTree uniqueDepsSet'] Hrun]; [vm_compute; reflexivity|].
  destruct (returned_inv (classifyDependencies "m" (Module_Dependencies cyclicModule)))
    as [[directDependencies parentToChildren] Hclassify]; [vm_compute; reflexivity|].
  rewrite Hrun, Hclassify.
  exists moduleTree, uniqueDepsSet', directDependencies, parentToChildren.
  split; [reflexivity|]. split; [reflexivity|].
  apply (Hmodule cyclicModule ∅ moduleTree uniqueDepsSet' directDependencies
           parentToChildren 7 Hrun Hclassify).
  vm_compute. lia.
Defined.

(** ** Shape of the requested-by tree *)

Lemma graphForall_node (P : GraphNode → Prop) (i : string) (ns : list GraphNode)
    (p : option ParentRef) :
  graphForall P (mkGraphNode i ns p) ↔
  P (mkGraphNode i ns p) ∧ Forall (graphForall P) ns.
Proof.
  cbn [graphForall]. apply and_iff_compat_l.
  induction ns as [|c l IH]; [by split; [constructor|]|].
  rewrite Forall_cons. by rewrite IH.
Qed.

Lemma graphHeight_node (i : string) (ns : list GraphNode) (p : option ParentRef) :
  graphHeight (mkGraphNode i ns p) = S (max_list (graphHeight <$> ns)).
Proof.
  cbn [graphHeight]. f_equal.
  induction ns as [|c l IH]; [done|]. csimpl. by rewrite IH.
Qed.

Lemma max_list_le (l : list nat) (bound : nat) :
  Forall (λ h, h ≤ bound) l → max_list l ≤ bound.
Proof. induction 1; simpl; lia. Qed.

(** A tree without an id twice on a path, all ids taken from a finite set,
    is no higher than the set is large. *)
Lemma noReentry_graphHeight (ids : gset string) (n : GraphNode) :
  ∀ path, noReentry path n → graphIds n ⊆ ids → graphHeight n ≤ size (ids ∖ path).
Proof.
  induction n as [i ns p IH] using GraphNode_tree_ind.
  intros path Hpath Hids.
  apply noReentry_node in Hpath as [Hfresh Hchildren].
  rewrite graphIds_node in Hids. rewrite graphHeight_node.
  assert (Hin : i ∈ ids ∖ path) by set_solver.
  assert (Hsize : size (ids ∖ path) = S (size (ids ∖ ({[ i ]} ∪ path)))).
  { replace (ids ∖ path) with ({[ i ]} ∪ ids ∖ ({[ i ]} ∪ path)).
    - rewrite size_union by set_solver. by rewrite size_singleton.
    - apply set_eq. intros x. destruct (decide (x = i)); set_solver. }
  rewrite Hsize. apply le_n_S, max_list_le, Forall_fmap, Forall_forall.
  intros c Hc. simpl.
  rewrite Forall_forall in IH, Hchildren.
  apply (IH c Hc); [by apply Hchildren|].
  intros x Hx. apply Hids, elem_of_union_r, elem_of_forestIds. by exists c.
Qed.

Section RequestedByShape.

Variable rangeMap : gmap string Dependency → list (string * Dependency).
Hypothesis rangeMap_perm : ∀ m, rangeMap m ≡ₚ map_to_list m.

Lemma unfoldDependency_Id (depth : nat) (dm : dependencyMultimap) (path : list string)
    (dependencyId : string) :
  GraphNode_Id (unfoldDependency rangeMap depth dm path dependencyId)
  = GavPackageTypeIdentifier +:+ dependencyId.
Proof. by destruct depth. Qed.

Lemma unfoldDependency_children_ids (depth : nat) (dm : dependencyMultimap)
    (path : list string) (ids : list string) :
  GraphNode_Id <$> (unfoldDependency rangeMap depth dm path <$> ids)
  = (λ raw, GavPackageTypeIdentifier +:+ raw) <$> ids.
Proof.
  rewrite <- list_fmap_compose. apply list_fmap_ext. intros _ raw _. simpl.
  apply unfoldDependency_Id.
Qed.

Lemma unfoldDependency_shape (dm : dependencyMultimap) (depth : nat) :
  keyedById dm →
  ∀ path dependencyId,
    graphForall (λ n, GraphNode_Parent n = None ∧
                      NoDup (GraphNode_Id <$> GraphNode_Nodes n))
      (unfoldDependency rangeMap depth dm path dependencyId).
Proof.
  intros Hkeyed. induction depth as [|depth IH]; intros path d.
  { simpl. repeat split. constructor. }
  cbn [unfoldDependency]. apply graphForall_node. split.
  - split; [done|]. cbn [GraphNode_Nodes].
    rewrite unfoldDependency_children_ids.
    apply (NoDup_fmap_2 _ (Inj0 := gav_prefix_Inj)), NoDup_filter.
    destruct (rangeMap_ids rangeMap rangeMap_perm
                (getChildren dm (GavPackageTypeIdentifier +:+ d))) as (-> & Hnodup & _);
      [|done].
    intros key child. apply Hkeyed.
  - apply Forall_fmap, Forall_forall. intros c _. apply IH.
Qed.

End RequestedByShape.

(** X9. Shape of the tree of a module: no node carries a [Parent]
    reference, the children of every node have pairwise distinct ids, and
    the tree is at most one level higher than the module has dependency
    records. *)
Theorem X9_module_tree_shape
    (rangeMap : gmap string Dependency → list (string * Dependency))
    (rangeMap_perm : ∀ m, rangeMap m ≡ₚ map_to_list m)
    (module : Module_) (uniqueDepsSet : gset string)
    (moduleTree : GraphNode) (uniqueDepsSet' : gset string) :
  addModuleTree rangeMap module uniqueDepsSet = Returns (moduleTree, uniqueDepsSet') →
  graphForall (λ n, GraphNode_Parent n = None ∧
                    NoDup (GraphNode_Id <$> GraphNode_Nodes n))
    moduleTree ∧
  graphHeight moduleTree ≤ S (length (Module_Dependencies module)).
Proof.
  intros Hrun.
  pose proof (addModuleTree_noReentry _ _ _ _ _ Hrun) as Hpaths.
  unfold addModuleTree in Hrun.
  destruct (classifyDependencies (Module_Id module) (Module_Dependencies module))
    as [[dd dm]| |] eqn:Hclassify; simpl in Hrun; try done.
  destruct (classify_from _ _ _ _ _ _ keyedById_new Hclassify)
    as (Hkeyed & Hdd & _ & _ & _).
  destruct (classifyDependencies_multimapIds _ _ _ Hclassify) as [Hsub _].
  destruct (directDependencies_loop rangeMap rangeMap_perm _ _ _ _ _ _ _ Hrun)
    as (nodes & Htree & _ & _ & Hids).
  apply directDependencies_unfold in Hrun. simpl in Hrun.
  split.
  - rewrite Hrun. apply graphForall_node. split.
    + split; [done|]. cbn [GraphNode_Nodes].
      rewrite unfoldDependency_children_ids. apply (NoDup_fmap_2 _ (Inj0 := gav_prefix_Inj)).
      destruct (rangeMap_ids rangeMap rangeMap_perm dd) as (-> & Hnodup & _); [|done].
      intros key d Hd. by destruct (Hdd key d Hd) as [?|(_ & ? & _)].
    + apply Forall_fmap, Forall_forall. intros c _.
      by apply unfoldDependency_shape.
  - rewrite Htree in Hpaths |- *. simpl in Hpaths. rewrite graphHeight_node. simpl.
    apply le_n_S, max_list_le, Forall_fmap, Forall_forall. intros c Hc. simpl.
    set (ids := list_to_set ((λ d, GavPackageTypeIdentifier +:+ Dependency_Id d)
                               <$> Module_Dependencies module) : gset string).
    transitivity (size (ids ∖ ∅)).
    + apply noReentry_graphHeight; [by apply (proj1 (Forall_forall _ _) Hpaths)|].
      intros id Hid.
      destruct (Hids id) as (raw & -> & Hraw);
        [apply elem_of_forestIds; by exists c|].
      apply elem_of_list_to_set, list_elem_of_fmap.
      assert (Hdep : raw ∈ dependencyIds module).
      { destruct Hraw as [Hdirect|Hindirect]; [|by apply Hsub].
        apply list_elem_of_fmap in Hdirect as (d & -> & Hd).
        apply list_elem_of_fmap in Hd as ([key d'] & -> & Hentry). simpl.
        apply (rangeMap_lookup rangeMap rangeMap_perm) in Hentry.
        destruct (Hdd key d' Hentry) as [?|(Hin & _)]; [done|].
        apply elem_of_list_to_set, list_elem_of_fmap. by exists d'. }
      apply elem_of_list_to_set, list_elem_of_fmap in Hdep as (d & -> & Hd).
      by exists d.
    + rewrite difference_empty_L. unfold ids.
      etransitivity; [apply size_list_to_set_le|]. by rewrite length_fmap.
Qed.

Lemma X9_witness :
  ∃ moduleTree uniqueDepsSet',
    addModuleTree map_to_list cyclicModule ∅ = Returns (moduleTree, uniqueDepsSet') ∧
    graphForall (λ n, GraphNode_Parent n = None ∧
                      NoDup (GraphNode_Id <$> GraphNode_Nodes n))
      moduleTree ∧
    graphHeight moduleTree ≤ 4.
Proof.
  destruct (returned_inv (addModuleTree map_to_list cyclicModule ∅))
    as [[moduleTree uniqueDepsSet'] Hrun]; [vm_compute; reflexivity|].
  rewrite Hrun. exists moduleTree, uniqueDepsSet'. split; [reflexivity|].
  apply (X9_module_tree_shape map_to_list map_to_list_visits cyclicModule ∅
           moduleTree uniqueDepsSet' Hrun).
Defined.

(** ** Which ids the requested-by tree holds *)

Lemma reachesAvoiding_edges (edge edge' : string → string → Prop)
    (path : list string) (d e : string) :
  (∀ a b, edge a b → edge' a b) →
  reachesAvoiding edge path d e → reachesAvoiding edge' path d e.
Proof.
  intros Hsub. induction 1 as [|path d c e Hd Hedge _ IH]; [by constructor|].
  eapply reaches_child; [done|by apply Hsub|done].
Qed.

Section Reach.

Variable rangeMap : gmap string Dependency → list (string * Dependency).
Hypothesis rangeMap_perm : ∀ m, rangeMap m ≡ₚ map_to_list m.

Lemma populateTransitiveDependencies_grows (dm : dependencyMultimap) (fuel : nat)
    (parent : GraphNode) (dependencyId : string) (idsAdded : list string)
    (uniqueDepsSet : gset string) (parent' : GraphNode) (uniqueDepsSet' : gset string) :
  populateTransitiveDependencies rangeMap fuel parent dependencyId dm idsAdded
    uniqueDepsSet = Returns (parent', uniqueDepsSet') →
  uniqueDepsSet ⊆ uniqueDepsSet' ∧
  (dependencyId ∉ idsAdded →
   GavPackageTypeIdentifier +:+ dependencyId ∈ uniqueDepsSet').
Proof.
  intros Hrun.
  destruct (populateTransitiveDependencies_effect rangeMap rangeMap_perm _ _ _ _ _ _ _ _
              Hrun) as [(Hon & _ & ->)|(_ & node & sub & _ & _ & _ & _ & _ & -> & _)].
  - done.
  - set_solver.
Qed.

Lemma populateTransitiveDependencies_reach_sound (dm : dependencyMultimap) (fuel : nat) :
  ∀ parent dependencyId idsAdded uniqueDepsSet parent' uniqueDepsSet',
    populateTransitiveDependencies rangeMap fuel parent dependencyId dm idsAdded
      uniqueDepsSet = Returns (parent', uniqueDepsSet') →
    ∀ id, id ∈ uniqueDepsSet' →
          id ∈ uniqueDepsSet ∨
          ∃ e, id = GavPackageTypeIdentifier +:+ e ∧
               reachesAvoiding (multimapEdge dm) idsAdded dependencyId e.
Proof.
  induction fuel as [|fuel IH]; intros parent d ids uniq parent' uniq' Hrun; [done|].
  cbn [populateTransitiveDependencies] in Hrun.
  destruct (hasLoop ids d) eqn:Hloop.
  { injection Hrun as <- <-. by left. }
  apply hasLoop_false in Hloop. cbn [GraphNode_Id] in Hrun.
  match type of Hrun with
  | (forRange ?body ?acc ?xs ≫= _) = _ =>
      destruct (forRange body acc xs) as [[node' uniq1]| |] eqn:Hchildren
  end; simpl in Hrun; try done.
  injection Hrun as <- <-.
  eapply (forRange_invariant
            (λ acc : GraphNode * gset string,
               ∀ id, id ∈ acc.2 →
                     id ∈ uniq ∨
                     ∃ e, id = GavPackageTypeIdentifier +:+ e ∧
                          reachesAvoiding (multimapEdge dm) ids d e)
    _ _ _ (node', uniq1)); [| |exact Hchildren].
  - simpl. intros id [->%elem_of_singleton|Hid]%elem_of_union; [|by left].
    right. exists d. split; [done|]. by constructor.
  - intros [node u] [key child] [node2 u2] Hentry Hacc Hbody id Hid. simpl in *.
    apply (rangeMap_lookup rangeMap rangeMap_perm) in Hentry.
    destruct (IH _ _ _ _ _ _ Hbody id Hid) as [Hold|(e & -> & Hreach)];
      [by apply Hacc|].
    right. exists e. split; [done|].
    eapply reaches_child; [done| |exact Hreach]. by exists key, child.
Qed.

Lemma populateTransitiveDependencies_reach_complete (dm : dependencyMultimap)
    (idsAdded : list string) (dependencyId e : string) :
  reachesAvoiding (multimapEdge dm) idsAdded dependencyId e →
  ∀ fuel parent uniqueDepsSet parent' uniqueDepsSet',
    populateTransitiveDependencies rangeMap fuel parent dependencyId dm idsAdded
      uniqueDepsSet = Returns (parent', uniqueDepsSet') →
    GavPackageTypeIdentifier +:+ e ∈ uniqueDepsSet'.
Proof.
  induction 1 as [ids d Hd|ids d c e Hd (key & child & Hchild & <-) _ IH];
    intros fuel parent uniq parent' uniq' Hrun.
  { by apply (populateTransitiveDependencies_grows _ _ _ _ _ _ _ _ Hrun). }
  destruct fuel as [|fuel]; [done|].
  cbn [populateTransitiveDependencies] in Hrun.
  apply hasLoop_false in Hd as Hloop. rewrite Hloop in Hrun. cbn [GraphNode_Id] in Hrun.
  match type of Hrun with
  | (forRange ?body ?acc ?xs ≫= _) = _ =>
      destruct (forRange body acc xs) as [[node' uniq1]| |] eqn:Hchildren
  end; simpl in Hrun; try done.
  injection Hrun as <- <-.
  apply (rangeMap_lookup rangeMap rangeMap_perm) in Hchild.
  pose proof (λ Hrefl Htrans Hstep,
                forRange_returns_elem
                  (λ acc acc' : GraphNode * gset string, acc.2 ⊆ acc'.2)
                  _ _ _ _ (key, child) Hrefl Htrans Hstep Hchildren Hchild) as Helem.
  destruct Helem as ([node1 u1] & [node2 u2] & _ & Hbody & Hsub).
  - by intros [? ?].
  - intros [? ?] [? ?] [? ?]. simpl. set_solver.
  - intros [? ?] [? ?] [? ?] Hbody. simpl.
    by apply (populateTransitiveDependencies_grows _ _ _ _ _ _ _ _ Hbody).
  - simpl in Hsub. apply Hsub. by eapply IH.
Qed.

End Reach.

Section ModuleReach.

Variable rangeMap : gmap string Dependency → list (string * Dependency).
Hypothesis rangeMap_perm : ∀ m, rangeMap m ≡ₚ map_to_list m.

(** Once the first loop has returned, the second loop returns, whatever
    the caller's set holds. *)
Lemma addModuleTree_returns_classified (module : Module_)
    (directDependencies : gmap string Dependency) (parentToChildren : dependencyMultimap)
    (uniqueDepsSet : gset string) :
  classifyDependencies (Module_Id module) (Module_Dependencies module)
  = Returns (directDependencies, parentToChildren) →
  ∃ r, addModuleTree rangeMap module uniqueDepsSet = Returns r.
Proof.
  intros Hclass. unfold addModuleTree. rewrite Hclass. simpl.
  match goal with |- context [forRange ?body ?acc ?xs] =>
    destruct (forRange_returns (λ _, True) body xs acc) as (r & -> & _)
  end; [done| |eauto].
  intros [tree uniq] [key d] _ _. simpl.
  destruct (populateTransitiveDependencies_returns rangeMap rangeMap_perm parentToChildren
              (transitiveFuel module) tree (Dependency_Id d) [] uniq) as [r ->]; [|eauto].
  by destruct (classifyDependencies_multimapIds _ _ _ Hclass).
Qed.

(** The ids that [addModuleTree] adds to the caller's set, read off the
    dependency records. *)
Lemma addModuleTree_reach (module : Module_) (uniqueDepsSet : gset string)
    (moduleTree : GraphNode) (uniqueDepsSet' : gset string) :
  addModuleTree rangeMap module uniqueDepsSet = Returns (moduleTree, uniqueDepsSet') →
  ∀ id, id ∈ uniqueDepsSet' ↔
        id ∈ uniqueDepsSet ∨
        id = GavPackageTypeIdentifier +:+ Module_Id module ∨
        ∃ d e, d ∈ Module_Dependencies module ∧
               requestedDirectly (Module_Id module) (Dependency_RequestedBy d) ∧
               reachesAvoiding (requestedEdge module) [] (Dependency_Id d) e ∧
               id = GavPackageTypeIdentifier +:+ e.
Proof.
  intros Hrun. unfold addModuleTree in Hrun.
  destruct (classifyDependencies (Module_Id module) (Module_Dependencies module))
    as [[dd dm]| |] eqn:Hclassify; simpl in Hrun; try done.
  destruct (classify_from _ _ _ _ _ _ keyedById_new Hclassify)
    as (Hkeyed & Hdd & Hdd' & Hdm & Hdm').
  assert (Hto : ∀ a b, multimapEdge dm a b → requestedEdge module a b).
  { intros a b (key & child & Hchild & <-).
    destruct (Hdm _ _ _ Hchild) as [Hempty|(Hin & _ & Hthrough)].
    - by rewrite getChildren_new in Hempty.
    - by exists child. }
  assert (Hfrom : ∀ a b, requestedEdge module a b → multimapEdge dm a b).
  { intros a b (child & Hin & <- & Hthrough).
    destruct (Hdm' (GavPackageTypeIdentifier +:+ a) (Dependency_Id child)) as [child' Hc].
    { right. by exists child. }
    exists (Dependency_Id child), child'. split; [done|]. by apply (Hkeyed _ _ _ Hc). }
  intros id. split.
  - revert id.
    eapply (forRange_invariant
              (λ acc : GraphNode * gset string,
                 ∀ id, id ∈ acc.2 →
                   id ∈ uniqueDepsSet ∨
                   id = GavPackageTypeIdentifier +:+ Module_Id module ∨
                   ∃ d e, d ∈ Module_Dependencies module ∧
                          requestedDirectly (Module_Id module) (Dependency_RequestedBy d) ∧
                          reachesAvoiding (requestedEdge module) [] (Dependency_Id d) e ∧
                          id = GavPackageTypeIdentifier +:+ e)
              _ _ _ (moduleTree, uniqueDepsSet')); [| |exact Hrun].
    + simpl. intros id [->%elem_of_singleton|Hid]%elem_of_union; [by right; left|by left].
    + intros [tree u] [key d0] [tree2 u2] Hentry Hacc Hbody id Hid. simpl in *.
      apply (rangeMap_lookup rangeMap rangeMap_perm) in Hentry.
      destruct (populateTransitiveDependencies_reach_sound rangeMap rangeMap_perm
                  _ _ _ _ _ _ _ _ Hbody id Hid) as [Hold|(e & -> & Hreach)];
        [by apply Hacc|].
      right; right. exists d0, e.
      destruct (Hdd key d0 Hentry) as [Hempty|(Hin & _ & Hdirect)]; [done|].
      split; [done|]. split; [done|]. split; [|done].
      by apply (reachesAvoiding_edges _ _ _ _ _ Hto).
  - pose proof (λ Hrefl Htrans Hstep x Hx,
                  forRange_returns_elem
                    (λ acc acc' : GraphNode * gset string, acc.2 ⊆ acc'.2)
                    _ _ _ _ x Hrefl Htrans Hstep Hrun Hx) as Helem.
    specialize (Helem ltac:(by intros [? ?])).
    specialize (Helem ltac:(intros [? ?] [? ?] [? ?]; simpl; set_solver)).
    specialize (Helem ltac:(intros [? ?] [? ?] [? ?] Hbody; simpl;
                            by apply (populateTransitiveDependencies_grows rangeMap
                                        rangeMap_perm _ _ _ _ _ _ _ _ Hbody))).
    assert (Hstart : {[ GavPackageTypeIdentifier +:+ Module_Id module ]} ∪ uniqueDepsSet
                     ⊆ uniqueDepsSet').
    { eapply (forRange_invariant
                (λ acc : GraphNode * gset string,
                   {[ GavPackageTypeIdentifier +:+ Module_Id module ]} ∪ uniqueDepsSet
                   ⊆ acc.2) _ _ _ (moduleTree, uniqueDepsSet')); [| |exact Hrun]; [done|].
      intros [tree u] [key d0] [tree2 u2] _ Hacc Hbody. simpl in *.
      destruct (populateTransitiveDependencies_grows rangeMap rangeMap_perm
                  _ _ _ _ _ _ _ _ Hbody) as [Hsub _]. set_solver. }
    intros [Hold|[->|(d & e & Hin & Hdirect & Hreach & ->)]]; [set_solver..|].
    destruct (Hdd' (Dependency_Id d)) as [d0 Hd0]; [right; by exists d|].
    destruct (Hdd _ _ Hd0) as [Hempty|(_ & Hid0 & _)]; [done|].
    destruct (Helem (Dependency_Id d, d0)) as ([tree1 u1] & [tree2 u2] & _ & Hbody & Hsub).
    { by apply (rangeMap_lookup rangeMap rangeMap_perm). }
    simpl in Hsub, Hbody. apply Hsub. rewrite Hid0 in Hbody.
    eapply (populateTransitiveDependencies_reach_complete rangeMap rangeMap_perm);
      [|exact Hbody].
    by apply (reachesAvoiding_edges _ _ _ _ _ Hfrom).
Qed.

End ModuleReach.

(** ** Paths without repetition *)

Lemma pathFrom_rtc (edge : string → string → Prop) (vs : list string) (d e : string) :
  pathFrom edge vs d e → rtc edge d e.
Proof. induction 1; [done|]. by eapply rtc_l. Qed.

Lemma pathFrom_suffix (edge : string → string → Prop) (vs : list string) (c e d : string) :
  pathFrom edge vs c e → d ∈ vs →
  ∃ vs', pathFrom edge vs' d e ∧ vs' `suffix_of` vs.
Proof.
  induction 1 as [c|c c' e vs Hedge Hpath IH]; intros Hin.
  - apply list_elem_of_singleton in Hin as ->. exists [c]. split; [constructor|done].
  - destruct (decide (d = c)) as [->|Hne].
    + exists (c :: vs). split; [by econstructor|done].
    + apply elem_of_cons in Hin as [?|Hin]; [done|].
      destruct (IH Hin) as (vs' & Hpath' & Hsuffix).
      exists vs'. split; [done|]. by apply suffix_cons_r.
Qed.

(** Whatever is reached along edges is reached on a path that visits no
    id twice. *)
Lemma rtc_pathFrom (edge : string → string → Prop) (d e : string) :
  rtc edge d e → ∃ vs, pathFrom edge vs d e ∧ NoDup vs.
Proof.
  induction 1 as [d|d c e Hedge _ (vs & Hpath & Hnodup)].
  - exists [d]. split; [constructor|]. apply NoDup_singleton.
  - destruct (decide (d ∈ vs)) as [Hin|Hfresh].
    + destruct (pathFrom_suffix _ _ _ _ _ Hpath Hin) as (vs' & Hpath' & [k ->]).
      exists vs'. split; [done|]. by apply NoDup_app in Hnodup as (_ & _ & ?).
    + exists (d :: vs). split; [by econstructor|]. by constructor.
Qed.

Lemma reachesAvoiding_pathFrom (edge : string → string → Prop) (path : list string)
    (d e : string) :
  reachesAvoiding edge path d e ↔
  ∃ vs, pathFrom edge vs d e ∧ NoDup vs ∧ ∀ v, v ∈ vs → v ∉ path.
Proof.
  split.
  - induction 1 as [path d Hd|path d c e Hd Hedge _ (vs & Hpath & Hnodup & Havoid)].
    + exists [d]. split; [constructor|]. split; [apply NoDup_singleton|].
      by intros v ->%list_elem_of_singleton.
    + exists (d :: vs). split; [by econstructor|]. split.
      * constructor; [|done]. intros Hin. apply (Havoid d Hin). set_solver.
      * intros v [->|Hv]%elem_of_cons; [done|]. specialize (Havoid v Hv). set_solver.
  - intros (vs & Hpath & Hnodup & Havoid). revert path Hnodup Havoid.
    induction Hpath as [d|d c e vs Hedge Hpath IH]; intros path Hnodup Havoid.
    + constructor. apply Havoid. by left.
    + apply NoDup_cons in Hnodup as [Hfresh Hnodup].
      eapply reaches_child; [apply Havoid; by left|done|].
      apply IH; [done|]. intros v Hv. rewrite elem_of_app, list_elem_of_singleton.
      intros [Hbad| ->]; [|done]. apply (Havoid v); [by right|done].
Qed.

Lemma reachesAvoiding_nil_rtc (edge : string → string → Prop) (d e : string) :
  reachesAvoiding edge [] d e ↔ rtc edge d e.
Proof.
  rewrite reachesAvoiding_pathFrom. split.
  - intros (vs & Hpath & _). by eapply pathFrom_rtc.
  - intros (vs & Hpath & Hnodup)%rtc_pathFrom. exists vs. split; [done|].
    split; [done|]. intros v _. apply not_elem_of_nil.
Qed.

(** The tree of a module does not depend on what the caller's set holds. *)
Lemma addModuleTree_same_tree
    (rangeMap : gmap string Dependency → list (string * Dependency))
    (rangeMap_perm : ∀ m, rangeMap m ≡ₚ map_to_list m)
    (module : Module_) (uniqueDepsSet1 uniqueDepsSet2 : gset string)
    (moduleTree : GraphNode) (uniqueDepsSet1' : gset string) :
  addModuleTree rangeMap module uniqueDepsSet1 = Returns (moduleTree, uniqueDepsSet1') →
  addModuleTree rangeMap module uniqueDepsSet2
  = Returns (moduleTree, uniqueDepsSet2 ∪ graphIds moduleTree).
Proof.
  intros Hrun.
  destruct (addModuleTree_effect rangeMap rangeMap_perm _ _ _ _ Hrun)
    as (dd & dm & Hclassify & _).
  destruct (addModuleTree_returns_classified rangeMap rangeMap_perm module dd dm
              uniqueDepsSet2 Hclassify) as [[tree2 uniq2'] Hrun2].
  destruct (addModuleTree_effect rangeMap rangeMap_perm _ _ _ _ Hrun2)
    as (_ & _ & _ & _ & _ & _ & Hset & _).
  rewrite Hrun2, Hset. do 3 f_equal.
  all: unfold addModuleTree in Hrun, Hrun2; rewrite Hclassify in Hrun, Hrun2;
    simpl in Hrun, Hrun2;
    apply directDependencies_unfold in Hrun, Hrun2; by rewrite Hrun, Hrun2.
Qed.

(** X10. Which ids the tree of a module holds, read off the dependency
    records alone: the prefixed module id and, prefixed, every id reached
    from a direct dependency along requested-by edges. The caller's set
    afterwards holds what it held before and these ids. *)
Theorem X10_module_tree_ids_are_the_reachable_ids
    (rangeMap : gmap string Dependency → list (string * Dependency))
    (rangeMap_perm : ∀ m, rangeMap m ≡ₚ map_to_list m)
    (module : Module_) (uniqueDepsSet : gset string)
    (moduleTree : GraphNode) (uniqueDepsSet' : gset string) :
  addModuleTree rangeMap module uniqueDepsSet = Returns (moduleTree, uniqueDepsSet') →
  (∀ id, id ∈ graphIds moduleTree ↔
         id = GavPackageTypeIdentifier +:+ Module_Id module ∨
         ∃ d e, d ∈ Module_Dependencies module ∧
                requestedDirectly (Module_Id module) (Dependency_RequestedBy d) ∧
                rtc (requestedEdge module) (Dependency_Id d) e ∧
                id = GavPackageTypeIdentifier +:+ e) ∧
  (∀ id, id ∈ uniqueDepsSet' ↔ id ∈ uniqueDepsSet ∨ id ∈ graphIds moduleTree).
Proof.
  intros Hrun. split.
  - intros id.
    pose proof (addModuleTree_same_tree rangeMap rangeMap_perm _ _ ∅ _ _ Hrun) as Hrun0.
    pose proof (addModuleTree_reach rangeMap rangeMap_perm _ _ _ _ Hrun0 id) as Hreach.
    rewrite elem_of_union in Hreach.
    setoid_rewrite reachesAvoiding_nil_rtc in Hreach. set_solver.
  - intros id.
    destruct (addModuleTree_effect rangeMap rangeMap_perm _ _ _ _ Hrun)
      as (_ & _ & _ & _ & _ & _ & -> & _). set_solver.
Qed.

Lemma X10_witness :
  ∃ moduleTree uniqueDepsSet',
    addModuleTree map_to_list cyclicModule ∅ = Returns (moduleTree, uniqueDepsSet') ∧
    ∀ id, id ∈ uniqueDepsSet' ↔ id ∈ (∅ : gset string) ∨ id ∈ graphIds moduleTree.
Proof.
  destruct (returned_inv (addModuleTree map_to_list cyclicModule ∅))
    as [[moduleTree uniqueDepsSet'] Hrun]; [vm_compute; reflexivity|].
  rewrite Hrun. exists moduleTree, uniqueDepsSet'. split; [reflexivity|].
  apply (X10_module_tree_ids_are_the_reachable_ids map_to_list map_to_list_visits
           cyclicModule ∅ moduleTree uniqueDepsSet' Hrun).
Defined.

(** Another order of visit and another set of the caller give a tree with
    the same root and the same ids. *)
Lemma addModuleTree_visit_order
    (rangeMap1 rangeMap2 : gmap string Dependency → list (string * Dependency))
    (rangeMap1_perm : ∀ m, rangeMap1 m ≡ₚ map_to_list m)
    (rangeMap2_perm : ∀ m, rangeMap2 m ≡ₚ map_to_list m)
    (module : Module_) (uniqueDepsSet1 uniqueDepsSet2 : gset string)
    (moduleTree1 : GraphNode) (uniqueDepsSet1' : gset string) :
  addModuleTree rangeMap1 module uniqueDepsSet1 = Returns (moduleTree1, uniqueDepsSet1') →
  ∃ moduleTree2,
    addModuleTree rangeMap2 module uniqueDepsSet2
    = Returns (moduleTree2, uniqueDepsSet2 ∪ graphIds moduleTree1) ∧
    graphIds moduleTree2 = graphIds moduleTree1 ∧
    GraphNode_Id moduleTree2 = GraphNode_Id moduleTree1.
Proof.
  intros Hrun1.
  destruct (addModuleTree_effect rangeMap1 rangeMap1_perm _ _ _ _ Hrun1)
    as (dd & dm & Hclassify & Hid1 & _).
  destruct (addModuleTree_returns_classified rangeMap2 rangeMap2_perm module dd dm
              uniqueDepsSet2 Hclassify) as [[tree2 uniq2'] Hrun2].
  destruct (addModuleTree_effect rangeMap2 rangeMap2_perm _ _ _ _ Hrun2)
    as (_ & _ & _ & Hid2 & _ & _ & Hset2 & _).
  assert (Hids : graphIds tree2 = graphIds moduleTree1).
  { apply set_eq. intros id.
    pose proof (addModuleTree_same_tree _ rangeMap1_perm _ _ ∅ _ _ Hrun1) as Hrun1'.
    pose proof (addModuleTree_same_tree _ rangeMap2_perm _ _ ∅ _ _ Hrun2) as Hrun2'.
    pose proof (addModuleTree_reach _ rangeMap1_perm _ _ _ _ Hrun1' id) as Hreach1.
    pose proof (addModuleTree_reach _ rangeMap2_perm _ _ _ _ Hrun2' id) as Hreach2.
    rewrite elem_of_union in Hreach1, Hreach2. set_solver. }
  exists tree2. by rewrite Hrun2, Hset2, Hids, Hid1, Hid2.
Qed.

(** X11. Go leaves the order of a visit of a map open, and the caller's
    set may hold anything: neither changes whether [addModuleTree] returns
    or panics, which ids the tree holds, which ids the root has as children,
    or which ids are added to the set. With one order of visit the tree
    itself is the same for every set. *)
Theorem X11_module_tree_ids_independent_of_visit_order
    (rangeMap1 rangeMap2 : gmap string Dependency → list (string * Dependency))
    (rangeMap1_perm : ∀ m, rangeMap1 m ≡ₚ map_to_list m)
    (rangeMap2_perm : ∀ m, rangeMap2 m ≡ₚ map_to_list m)
    (module : Module_) (uniqueDepsSet1 uniqueDepsSet2 : gset string) :
  (∀ moduleTree1 uniqueDepsSet1',
     addModuleTree rangeMap1 module uniqueDepsSet1
     = Returns (moduleTree1, uniqueDepsSet1') →
     (∃ moduleTree2,
        addModuleTree rangeMap2 module uniqueDepsSet2
        = Returns (moduleTree2, uniqueDepsSet2 ∪ graphIds moduleTree1) ∧
        graphIds moduleTree2 = graphIds moduleTree1 ∧
        GraphNode_Id moduleTree2 = GraphNode_Id moduleTree1 ∧
        GraphNode_Id <$> GraphNode_Nodes moduleTree2
        ≡ₚ GraphNode_Id <$> GraphNode_Nodes moduleTree1) ∧
     addModuleTree rangeMap1 module uniqueDepsSet2
     = Returns (moduleTree1, uniqueDepsSet2 ∪ graphIds moduleTree1)) ∧
  (∀ site,
     addModuleTree rangeMap1 module uniqueDepsSet1 = Panics site →
     addModuleTree rangeMap2 module uniqueDepsSet2 = Panics site).
Proof.
  split.
  - intros tree1 uniq1' Hrun1.
    split; [|by eapply addModuleTree_same_tree].
    destruct (addModuleTree_visit_order rangeMap1 rangeMap2 rangeMap1_perm rangeMap2_perm
                module uniqueDepsSet1 uniqueDepsSet2 _ _ Hrun1)
      as (tree2 & Hrun2 & Hids & Hid).
    exists tree2. split; [done|]. split; [done|]. split; [done|].
    destruct (addModuleTree_effect rangeMap1 rangeMap1_perm _ _ _ _ Hrun1)
      as (dd & dm & Hclassify & _ & _ & Hnodes1 & _).
    destruct (addModuleTree_effect rangeMap2 rangeMap2_perm _ _ _ _ Hrun2)
      as (dd' & dm' & Hclassify' & _ & _ & Hnodes2 & _).
    rewrite Hclassify in Hclassify'. injection Hclassify' as <- <-.
    rewrite Hnodes1, Hnodes2.
    apply fmap_Permutation. by rewrite rangeMap1_perm, rangeMap2_perm.
  - intros site Hpanic.
    destruct (classifyDependencies (Module_Id module) (Module_Dependencies module))
      as [[dd dm]|site'|] eqn:Hclassify.
    + destruct (addModuleTree_returns_classified rangeMap1 rangeMap1_perm module dd dm
                  uniqueDepsSet1 Hclassify) as [r Hr]. by rewrite Hr in Hpanic.
    + unfold addModuleTree in *. by rewrite Hclassify in *.
    + unfold addModuleTree in *. by rewrite Hclassify in *.
Qed.

Lemma X11_witness :
  ∃ moduleTree1 uniqueDepsSet1' moduleTree2,
    addModuleTree map_to_list cyclicModule ∅ = Returns (moduleTree1, uniqueDepsSet1') ∧
    addModuleTree (λ m, reverse (map_to_list m)) cyclicModule {[ "gav://other" ]}
    = Returns (moduleTree2, {[ "gav://other" ]} ∪ graphIds moduleTree1) ∧
    graphIds moduleTree2 = graphIds moduleTree1.
Proof.
  destruct (returned_inv (addModuleTree map_to_list cyclicModule ∅))
    as [[moduleTree1 uniqueDepsSet1'] Hrun]; [vm_compute; reflexivity|].
  destruct (X11_module_tree_ids_independent_of_visit_order
              map_to_list (λ m, reverse (map_to_list m))
              map_to_list_visits (λ m, reverse_Permutation (map_to_list m))
              cyclicModule ∅ {[ "gav://other" ]}) as [Hreturns _].
  destruct (Hreturns moduleTree1 uniqueDepsSet1' Hrun)
    as [(moduleTree2 & Hrun2 & Hids & _) _].
  rewrite Hrun. exists moduleTree1, uniqueDepsSet1', moduleTree2.
  split; [reflexivity|]. split; [exact Hrun2|exact Hids].
Defined.

(** X12. The order in which Go visits the maps does not change what
    [createGavDependencyTree] returns beyond order: the same error or none,
    trees with the same roots and the same ids for the same modules, and the
    same unique ids up to their order in the slice. *)
Theorem X12_createGavDependencyTree_independent_of_visit_order
    (rangeMap1 rangeMap2 : gmap string Dependency → list (string * Dependency))
    (rangeMap1_perm : ∀ m, rangeMap1 m ≡ₚ map_to_list m)
    (rangeMap2_perm : ∀ m, rangeMap2 m ≡ₚ map_to_list m)
    {error : Type} (couldntFindBuild : error)
    (generated : list BuildInfo * option error)
    (trees1 : list GraphNode) (uniqueDeps1 : list string) (err : option error) :
  createGavDependencyTree rangeMap1 couldntFindBuild generated
  = Returns (trees1, uniqueDeps1, err) →
  ∃ trees2 uniqueDeps2,
    createGavDependencyTree rangeMap2 couldntFindBuild generated
    = Returns (trees2, uniqueDeps2, err) ∧
    Forall2 (λ tree1 tree2,
               GraphNode_Id tree1 = GraphNode_Id tree2 ∧
               graphIds tree1 = graphIds tree2)
      trees1 trees2 ∧
    uniqueDeps1 ≡ₚ uniqueDeps2.
Proof.
  intros Hrun1.
  destruct (createGavDependencyTree_effect rangeMap1 rangeMap1_perm _ _ _ _ _ Hrun1)
    as (Hshape & Hset1 & Hnodup1).
  destruct err as [e|].
  { destruct Hshape as [-> Hgenerated]. exists [], [].
    assert (uniqueDeps1 = []) as ->.
    { destruct uniqueDeps1 as [|x l]; [done|]. rewrite list_to_set_cons in Hset1.
      unfold forestIds in Hset1. simpl in Hset1. set_solver. }
    split; [|by split; [constructor|]].
    destruct generated as [[|b rest] [e'|]]; simpl in Hgenerated;
      destruct Hgenerated as [He|[He ->]]; try done; by injection He as ->. }
  destruct Hshape as (buildInfo & rest & -> & Hall).
  assert (Hloop : ∀ modules new1,
    Forall2 (λ module tree, ∃ uniq uniq',
               addModuleTree rangeMap1 module uniq = Returns (tree, uniq'))
      modules new1 →
    ∀ trees0 uniq0,
      ∃ new2 uniq2,
        forRange
          (λ '(modules, uniqueDepsSet) module,
             '(tree, uniqueDepsSet') ← addModuleTree rangeMap2 module uniqueDepsSet;
             Returns (modules ++ [tree], uniqueDepsSet'))
          (trees0, uniq0) modules = Returns (trees0 ++ new2, uniq2) ∧
        Forall2 (λ tree1 tree2,
                   GraphNode_Id tree1 = GraphNode_Id tree2 ∧
                   graphIds tree1 = graphIds tree2) new1 new2).
  { induction 1 as [|module tree1 modules new1 (uniq & uniq' & Htree1) _ IH];
      intros trees0 uniq0.
    - exists [], uniq0. rewrite app_nil_r. by split; [|constructor].
    - destruct (addModuleTree_visit_order rangeMap1 rangeMap2 rangeMap1_perm
                  rangeMap2_perm module uniq uniq0 _ _ Htree1)
        as (tree2 & Htree2 & Hids & Hid).
      destruct (IH (trees0 ++ [tree2]) (uniq0 ∪ graphIds tree1))
        as (new2 & uniq2 & Hrest & Hall2).
      exists (tree2 :: new2), uniq2. simpl. rewrite Htree2. simpl. rewrite Hrest.
      rewrite <- app_assoc. split; [done|]. by constructor. }
  destruct (Hloop _ _ Hall [] ∅) as (trees2 & uniq2 & Hrun2 & Hall2).
  exists trees2, (elements uniq2).
  assert (Hrun2' : createGavDependencyTree rangeMap2 couldntFindBuild
                     (buildInfo :: rest, None)
                   = Returns (trees2, elements uniq2, None)).
  { unfold createGavDependencyTree. by rewrite Hrun2. }
  split; [done|]. split; [done|].
  destruct (createGavDependencyTree_effect rangeMap2 rangeMap2_perm _ _ _ _ _ Hrun2')
    as (_ & Hset2 & Hnodup2).
  apply NoDup_Permutation; [done..|]. intros id.
  assert (Hforest : forestIds trees1 = forestIds trees2).
  { clear -Hall2. induction Hall2 as [|t1 t2 l1 l2 [_ Hids] _ IH]; [done|].
    by rewrite !forestIds_cons, Hids, IH. }
  rewrite <- (elem_of_list_to_set (C := gset string) id uniqueDeps1).
  rewrite <- (elem_of_list_to_set (C := gset string) id (elements uniq2)).
  by rewrite Hset1, Hset2, Hforest.
Qed.

Lemma X12_witness :
  ∃ trees1 uniqueDeps1 trees2 uniqueDeps2,
    createGavDependencyTree map_to_list "not found"
      ([mkBuildInfo [cyclicModule; mkModule "n" []]], None)
    = Returns (trees1, uniqueDeps1, None) ∧
    createGavDependencyTree (λ m, reverse (map_to_list m)) "not found"
      ([mkBuildInfo [cyclicModule; mkModule "n" []]], None)
    = Returns (trees2, uniqueDeps2, None) ∧
    uniqueDeps1 ≡ₚ uniqueDeps2.
Proof.
  destruct (returned_inv
              (createGavDependencyTree map_to_list "not found"
                 ([mkBuildInfo [cyclicModule; mkModule "n" []]], None)))
    as [[[trees1 uniqueDeps1] err] Hrun]; [vm_compute; reflexivity|].
  assert (Herr : err = None).
  { destruct err as [e|]; [|reflexivity]. vm_compute in Hrun. discriminate Hrun. }
  subst err.
  destruct (X12_createGavDependencyTree_independent_of_visit_order
              map_to_list (λ m, reverse (map_to_list m))
              map_to_list_visits (λ m, reverse_Permutation (map_to_list m))
              "not found" _ _ _ _ Hrun) as (trees2 & uniqueDeps2 & Hrun2 & _ & Hperm).
  exists trees1, uniqueDeps1, trees2, uniqueDeps2.
  split; [exact Hrun|]. split; [exact Hrun2|exact Hperm].
Defined.

(** ** The plugin tree as a function of the module tree *)

Lemma unfoldDepTree_node (depth : nat) (moduleTree : moduleDepTree)
    (parent : option ParentRef) (nodeId : string) :
  unfoldDepTree depth moduleTree parent nodeId
  = mkGraphNode (GavPackageTypeIdentifier +:+ nodeId)
      (GraphNode_Nodes (unfoldDepTree depth moduleTree parent nodeId)) parent.
Proof. by destruct depth. Qed.

Lemma populateDependencyTree_unfold (moduleTree : moduleDepTree) (fuel : nat) :
  ∀ currNode currNodeId uniqueDepsSet currNode' uniqueDepsSet',
    populateDependencyTree fuel currNode currNodeId moduleTree uniqueDepsSet
    = Returns (currNode', uniqueDepsSet') →
    GraphNode_Id currNode = GavPackageTypeIdentifier +:+ currNodeId →
    currNode'
    = mkGraphNode (GraphNode_Id currNode)
        (GraphNode_Nodes currNode ++
         GraphNode_Nodes (unfoldDepTree (fuel - 1) moduleTree (GraphNode_Parent currNode)
                            currNodeId))
        (GraphNode_Parent currNode).
Proof.
  induction fuel as [|fuel IH]; intros curr currId uniq curr' uniq' Hrun Hid; [done|].
  cbn [populateDependencyTree] in Hrun. replace (S fuel - 1) with fuel by lia.
  destruct (NodeHasLoop curr) eqn:Hloop.
  { injection Hrun as <- <-. apply NodeHasLoop_spec in Hloop. rewrite Hid in Hloop.
    destruct fuel as [|fuel']; cbn [unfoldDepTree GraphNode_Nodes].
    - rewrite app_nil_r. by destruct curr.
    - rewrite bool_decide_eq_true_2 by done. rewrite app_nil_r. by destruct curr. }
  assert (Hgen : ∀ children curr0 uniq0 curr1 uniq1,
    forRange
      (λ '(currNode, uniqueDepsSet) childId,
         let childGav := GavPackageTypeIdentifier +:+ childId in
         let childNode := mkGraphNode childGav [] (Some (refTo currNode)) in
         let uniqueDepsSet := {[ childGav ]} ∪ uniqueDepsSet in
         '(childNode', uniqueDepsSet') ←
           populateDependencyTree fuel childNode childId moduleTree uniqueDepsSet;
         Returns (appendNode currNode childNode', uniqueDepsSet'))
      (curr0, uniq0) children = Returns (curr1, uniq1) →
    (children ≠ [] → fuel ≠ 0) ∧
    curr1 = mkGraphNode (GraphNode_Id curr0)
              (GraphNode_Nodes curr0 ++
               (unfoldDepTree (fuel - 1) moduleTree (Some (refTo curr0)) <$> children))
              (GraphNode_Parent curr0)).
  { induction children as [|c children IHchildren]; intros curr0 uniq0 curr1 uniq1 Hloop'.
    - injection Hloop' as <- <-. split; [done|]. destruct curr0; simpl.
      by rewrite app_nil_r.
    - simpl in Hloop'.
      destruct (populateDependencyTree fuel _ c moduleTree _) as [[child' uniq2]| |]
        eqn:Hchild; simpl in Hloop'; try done.
      split; [intros _ ->; done|].
      destruct (IHchildren _ _ _ _ Hloop') as [_ ->].
      apply IH in Hchild; [|done]. rewrite Hchild.
      cbn [GraphNode_Id GraphNode_Nodes GraphNode_Parent app].
      rewrite <- unfoldDepTree_node.
      destruct curr0 as [i ns p]. unfold appendNode, refTo. csimpl.
      by rewrite <- app_assoc. }
  destruct (Hgen _ _ _ _ _ Hrun) as [Hfuel ->]. f_equal. f_equal.
  apply not_true_iff_false in Hloop. rewrite NodeHasLoop_spec, Hid in Hloop.
  destruct fuel as [|fuel']; cbn [unfoldDepTree GraphNode_Nodes].
  - destruct (childrenOf moduleTree currId); [done|]. by destruct Hfuel.
  - rewrite bool_decide_eq_false_2 by done.
    replace (S fuel' - 1) with fuel' by lia. unfold refTo. by rewrite Hid.
Qed.

(** From the budget of [getGraphFromDepTree] upwards the depth makes no
    difference to the tree of a root. *)
Lemma unfoldDepTree_root_stable (moduleTree : moduleDepTree) (root : string) (depth : nat) :
  depTreeFuel moduleTree - 1 ≤ depth →
  unfoldDepTree depth moduleTree None root
  = unfoldDepTree (depTreeFuel moduleTree - 1) moduleTree None root.
Proof.
  intros Hdepth.
  destruct (populateDependencyTree_returns moduleTree (depTreeFuel moduleTree) root [] ∅)
    as [[tree uniq] Hrun]; [done|].
  assert (Hrun' : populateDependencyTree (S depth)
                    (mkGraphNode (GavPackageTypeIdentifier +:+ root) [] None) root
                    moduleTree ∅ = Returns (tree, uniq)).
  { eapply populateDependencyTree_fuel_mono; [|exact Hrun]. lia. }
  apply populateDependencyTree_unfold in Hrun, Hrun'; [|done..].
  replace (S depth - 1) with depth in Hrun' by lia.
  cbn [GraphNode_Id GraphNode_Nodes GraphNode_Parent app] in Hrun, Hrun'.
  rewrite (unfoldDepTree_node depth), (unfoldDepTree_node (depTreeFuel moduleTree - 1)).
  rewrite Hrun in Hrun'. by injection Hrun' as ->.
Qed.

Lemma populateDependencyTree_root (moduleTree : moduleDepTree) (uniqueDepsSet : gset string) :
  ∃ uniqueDepsSet',
    populateDependencyTree (depTreeFuel moduleTree)
      (mkGraphNode (GavPackageTypeIdentifier +:+ moduleDepTree_Root moduleTree) [] None)
      (moduleDepTree_Root moduleTree) moduleTree uniqueDepsSet
    = Returns (unfoldDepTree (depTreeFuel moduleTree) moduleTree None
                 (moduleDepTree_Root moduleTree),
               uniqueDepsSet').
Proof.
  destruct (populateDependencyTree_returns moduleTree (depTreeFuel moduleTree)
              (moduleDepTree_Root moduleTree) [] uniqueDepsSet)
    as [[tree uniq] Hrun]; [done|].
  exists uniq. rewrite Hrun. do 2 f_equal.
  apply populateDependencyTree_unfold in Hrun; [|done].
  cbn [GraphNode_Id GraphNode_Nodes GraphNode_Parent app] in Hrun.
  rewrite <- unfoldDepTree_node in Hrun. rewrite Hrun.
  symmetry. apply unfoldDepTree_root_stable. lia.
Qed.

Section PluginGraph.

Context {error : Type}.
Variable ReadFile : string → string * option error.
Variable Unmarshal : string → option moduleDepTree * option error.

Lemma getGraphFromDepTree_unfold (depTreeOutput : string) (modules : list moduleDepTree) :
  parseDepTreeFiles ReadFile Unmarshal depTreeOutput = (Some <$> modules, None) →
  ∃ uniqueDeps,
    getGraphFromDepTree ReadFile Unmarshal depTreeOutput
    = Returns ((λ moduleTree,
                  unfoldDepTree (depTreeFuel moduleTree) moduleTree None
                    (moduleDepTree_Root moduleTree)) <$> modules,
               uniqueDeps, None).
Proof.
  intros Hparse. unfold getGraphFromDepTree. rewrite Hparse.
  match goal with |- context [forRange ?body _ _] =>
    assert (Hloop : ∀ trees depsGraph uniqueDepsSet,
              ∃ uniqueDepsSet',
                forRange body (depsGraph, uniqueDepsSet) (Some <$> trees)
                = Returns (depsGraph ++
                           ((λ moduleTree,
                               unfoldDepTree (depTreeFuel moduleTree) moduleTree None
                                 (moduleDepTree_Root moduleTree)) <$> trees),
                           uniqueDepsSet'))
  end.
  { induction trees as [|t trees IH]; intros graph uniq.
    - exists uniq. simpl. by rewrite app_nil_r.
    - destruct (populateDependencyTree_root t uniq) as [uniq1 Hroot].
      destruct (IH (graph ++ [unfoldDepTree (depTreeFuel t) t None (moduleDepTree_Root t)])
                  uniq1) as [uniq2 Hrest].
      exists uniq2. csimpl. rewrite Hroot. simpl. rewrite Hrest.
      by rewrite <- app_assoc. }
  destruct (Hloop modules [] ∅) as [uniq' ->]. simpl. eauto.
Qed.

End PluginGraph.

(** X13. When every output file parses to a module tree,
    [getGraphFromDepTree] returns without error, and its graph can be
    written down from the module trees alone: one tree per module in the
    order of the files, each the unfolding of the module tree from its root.
    The unique ids are the ids below the roots, each once. Any depth from
    the budget upwards gives the same unfolding. *)
Theorem X13_plugin_graph_is_the_unfolding
    {error : Type} (ReadFile : string → string * option error)
    (Unmarshal : string → option moduleDepTree * option error)
    (depTreeOutput : string) (modules : list moduleDepTree) :
  parseDepTreeFiles ReadFile Unmarshal depTreeOutput = (Some <$> modules, None) →
  (∃ uniqueDeps,
     getGraphFromDepTree ReadFile Unmarshal depTreeOutput
     = Returns ((λ moduleTree,
                   unfoldDepTree (depTreeFuel moduleTree) moduleTree None
                     (moduleDepTree_Root moduleTree)) <$> modules,
                uniqueDeps, None) ∧
     list_to_set uniqueDeps
     = belowRoots ((λ moduleTree,
                      unfoldDepTree (depTreeFuel moduleTree) moduleTree None
                        (moduleDepTree_Root moduleTree)) <$> modules) ∧
     NoDup uniqueDeps) ∧
  (∀ moduleTree root depth,
     depTreeFuel moduleTree ≤ depth →
     unfoldDepTree depth moduleTree None root
     = unfoldDepTree (depTreeFuel moduleTree) moduleTree None root).
Proof.
  intros Hparse. split.
  - destruct (getGraphFromDepTree_unfold ReadFile Unmarshal _ _ Hparse) as [uniqueDeps Hrun].
    exists uniqueDeps. split; [done|].
    by destruct (getGraphFromDepTree_effect _ _ _ _ _ Hrun) as (_ & _ & _ & ? & ?).
  - intros t root depth Hdepth.
    rewrite (unfoldDepTree_root_stable t root depth) by lia.
    rewrite (unfoldDepTree_root_stable t root (depTreeFuel t)) by lia. done.
Qed.

Lemma X13_witness :
  ∃ uniqueDeps,
    getGraphFromDepTree (tableReadFile sampleFiles) (tableUnmarshal sampleDocuments)
      ("single.json" +:+ String newline "cyclic.json")
    = Returns ([unfoldDepTree 1 singleRoot None "r"; unfoldDepTree 3 cyclicTree None "a"],
               uniqueDeps, None).
Proof.
  destruct (X13_plugin_graph_is_the_unfolding
              (tableReadFile sampleFiles) (tableUnmarshal sampleDocuments)
              ("single.json" +:+ String newline "cyclic.json") [singleRoot; cyclicTree])
    as [(uniqueDeps & Hrun & _) _]; [vm_compute; reflexivity|].
  exists uniqueDeps. exact Hrun.
Defined.

(** ** Shape of the plugin graph *)

Lemma parentsAgree_node (parent : option ParentRef) (i : string) (ns : list GraphNode)
    (p : option ParentRef) :
  parentsAgree parent (mkGraphNode i ns p) ↔
  p = parent ∧ Forall (parentsAgree (Some (ParentNode i p))) ns.
Proof.
  cbn [parentsAgree]. apply and_iff_compat_l.
  induction ns as [|c l IH]; [by split; [constructor|]|].
  rewrite Forall_cons. by rewrite IH.
Qed.

Lemma unfoldDepTree_parentsAgree (moduleTree : moduleDepTree) (depth : nat) :
  ∀ parent nodeId, parentsAgree parent (unfoldDepTree depth moduleTree parent nodeId).
Proof.
  induction depth as [|depth IH]; intros parent nodeId; [by simpl|].
  cbn [unfoldDepTree]. apply parentsAgree_node. split; [done|].
  case_bool_decide; [constructor|].
  apply Forall_fmap, Forall_forall. intros c _. apply IH.
Qed.

Lemma unfoldDepTree_height (moduleTree : moduleDepTree) (depth : nat) :
  ∀ parent nodeId,
    graphHeight (unfoldDepTree depth moduleTree parent nodeId)
    ≤ S (size (nodeKeys moduleTree ∖ list_to_set (ancestorIds parent))).
Proof.
  induction depth as [|depth IH]; intros parent nodeId; [simpl; lia|].
  cbn [unfoldDepTree]. rewrite graphHeight_node.
  case_bool_decide as Hloop; [simpl; lia|].
  destruct (moduleDepTree_Nodes moduleTree !! nodeId) as [node|] eqn:Hnode.
  2: { rewrite childrenOf_absent by done. simpl. lia. }
  assert (Hkey : GavPackageTypeIdentifier +:+ nodeId ∈ nodeKeys moduleTree).
  { apply elem_of_list_to_set, list_elem_of_fmap. exists (nodeId, node).
    split; [done|]. by apply elem_of_map_to_list. }
  assert (Hsize : size (nodeKeys moduleTree ∖ list_to_set (ancestorIds parent))
                  = S (size (nodeKeys moduleTree ∖
                             list_to_set ((GavPackageTypeIdentifier +:+ nodeId)
                                          :: ancestorIds parent)))).
  { rewrite list_to_set_cons.
    replace (nodeKeys moduleTree ∖ list_to_set (ancestorIds parent))
      with ({[ GavPackageTypeIdentifier +:+ nodeId ]} ∪
            nodeKeys moduleTree ∖ ({[ GavPackageTypeIdentifier +:+ nodeId ]} ∪
                                   list_to_set (ancestorIds parent))).
    - rewrite size_union by set_solver. by rewrite size_singleton.
    - apply set_eq. intros x.
      destruct (decide (x = GavPackageTypeIdentifier +:+ nodeId)); set_solver. }
  rewrite Hsize. apply le_n_S, max_list_le, Forall_fmap, Forall_fmap, Forall_forall.
  intros c _. simpl.
  etransitivity; [apply IH|]. apply le_n_S. by destruct parent.
Qed.

(** X14. Shape of the graph of [getGraphFromDepTree]: one tree per parsed
    module, under the prefixed root of the module; in every tree the
    [Parent] reference of a node shows the node it hangs under, up to the
    root, which has none; and no tree is more than one level higher than
    its module tree has keys. *)
Theorem X14_plugin_graph_shape
    {error : Type} (ReadFile : string → string * option error)
    (Unmarshal : string → option moduleDepTree * option error)
    (depTreeOutput : string) (depsGraph : list GraphNode) (uniqueDeps : list string) :
  getGraphFromDepTree ReadFile Unmarshal depTreeOutput
  = Returns (depsGraph, uniqueDeps, None) →
  ∃ modules,
    parseDepTreeFiles ReadFile Unmarshal depTreeOutput = (Some <$> modules, None) ∧
    Forall2 (λ moduleTree tree,
               GraphNode_Id tree
               = GavPackageTypeIdentifier +:+ moduleDepTree_Root moduleTree ∧
               parentsAgree None tree ∧
               graphHeight tree ≤ S (size (moduleDepTree_Nodes moduleTree)))
      modules depsGraph.
Proof.
  intros Hrun.
  destruct (getGraphFromDepTree_effect _ _ _ _ _ Hrun) as (modules & Hparse & _).
  exists modules. split; [done|].
  destruct (getGraphFromDepTree_unfold ReadFile Unmarshal _ _ Hparse) as [uniqueDeps' Hrun'].
  rewrite Hrun in Hrun'. injection Hrun' as -> _.
  apply Forall2_fmap_r, Forall_Forall2_diag, Forall_forall. intros t _.
  split; [by rewrite unfoldDepTree_node|]. split; [apply unfoldDepTree_parentsAgree|].
  etransitivity; [apply unfoldDepTree_height|]. apply le_n_S.
  simpl. rewrite difference_empty_L. unfold nodeKeys.
  etransitivity; [apply size_list_to_set_le|].
  by rewrite length_fmap, length_map_to_list.
Qed.

Lemma X14_witness :
  ∃ depsGraph uniqueDeps modules,
    getGraphFromDepTree (tableReadFile sampleFiles) (tableUnmarshal sampleDocuments)
      "cyclic.json" = Returns (depsGraph, uniqueDeps, None) ∧
    parseDepTreeFiles (tableReadFile sampleFiles) (tableUnmarshal sampleDocuments)
      "cyclic.json" = (Some <$> modules, None) ∧
    Forall2 (λ moduleTree tree,
               GraphNode_Id tree
               = GavPackageTypeIdentifier +:+ moduleDepTree_Root moduleTree ∧
               parentsAgree None tree ∧
               graphHeight tree ≤ S (size (moduleDepTree_Nodes moduleTree)))
      modules depsGraph.
Proof.
  destruct (returned_inv
              (getGraphFromDepTree (tableReadFile sampleFiles)
                 (tableUnmarshal sampleDocuments) "cyclic.json"))
    as [[[depsGraph uniqueDeps] err] Hrun]; [vm_compute; reflexivity|].
  assert (Herr : err = None).
  { destruct err as [e|]; [|reflexivity]. vm_compute in Hrun. discriminate Hrun. }
  subst err.
  destruct (X14_plugin_graph_shape _ _ _ _ _ Hrun) as (modules & Hparse & Hshape).
  exists depsGraph, uniqueDeps, modules. split; [exact Hrun|].
  split; [exact Hparse|exact Hshape].
Defined.

(** ** Panic of getGraphFromDepTree (javautils.go:192-208) *)

Section PluginPanic.

Context {error : Type}.
Variable ReadFile : string → string * option error.
Variable Unmarshal : string → option moduleDepTree * option error.

Lemma parseDepTreeFiles_range_error_nil (paths : list string)
    (modules0 modules : list (option moduleDepTree)) (e : error) :
  parseDepTreeFiles_range ReadFile Unmarshal modules0 paths = (modules, Some e) →
  modules = [].
Proof.
  revert modules0. induction paths as [|path paths IH]; intros modules0; simpl; [done|].
  destruct (parseDepTreeFile ReadFile Unmarshal path) as [results [e'|]].
  - by intros [= <- _].
  - apply IH.
Qed.

Lemma getGraphFromDepTree_nil_module (depTreeOutput : string)
    (modules : list (option moduleDepTree)) :
  parseDepTreeFiles ReadFile Unmarshal depTreeOutput = (modules, None) →
  None ∈ modules →
  getGraphFromDepTree ReadFile Unmarshal depTreeOutput
  = Panics NilDereference_getGraphFromDepTree.
Proof.
  intros Hparse Hnil. unfold getGraphFromDepTree. rewrite Hparse.
  match goal with |- context [forRange ?body _ _] =>
    assert (Hloop : ∀ acc, forRange body acc modules
                           = Panics NilDereference_getGraphFromDepTree)
  end.
  { clear Hparse. induction modules as [|[t|] modules IH]; intros [graph uniq].
    - by apply elem_of_nil in Hnil.
    - apply elem_of_cons in Hnil as [?|Hnil]; [done|]. simpl.
      destruct (populateDependencyTree_returns t (depTreeFuel t) (moduleDepTree_Root t)
                  [] uniq) as [[tree uniq'] ->]; [done|]. simpl. by apply IH.
    - done. }
  by rewrite Hloop.
Qed.

End PluginPanic.

(** X15. [getGraphFromDepTree] panics exactly when all files were read
    and decoded without error and one of them decoded to the nil module
    tree; the panic is the nil dereference at the root of that module. In
    every other case it returns. *)
Theorem X15_plugin_graph_panics_on_nil_module
    {error : Type} (ReadFile : string → string * option error)
    (Unmarshal : string → option moduleDepTree * option error)
    (depTreeOutput : string) :
  (∀ site,
     getGraphFromDepTree ReadFile Unmarshal depTreeOutput = Panics site ↔
     site = NilDereference_getGraphFromDepTree ∧
     ∃ modules,
       parseDepTreeFiles ReadFile Unmarshal depTreeOutput = (modules, None) ∧
       None ∈ modules) ∧
  ((∃ r, getGraphFromDepTree ReadFile Unmarshal depTreeOutput = Returns r) ↔
   ¬ ∃ modules,
       parseDepTreeFiles ReadFile Unmarshal depTreeOutput = (modules, None) ∧
       None ∈ modules).
Proof.
  assert (Hpanic : (∃ modules,
                      parseDepTreeFiles ReadFile Unmarshal depTreeOutput = (modules, None) ∧
                      None ∈ modules) →
                   getGraphFromDepTree ReadFile Unmarshal depTreeOutput
                   = Panics NilDereference_getGraphFromDepTree).
  { intros (modules & Hparse & Hnil). by eapply getGraphFromDepTree_nil_module. }
  assert (Hnil : getGraphFromDepTree ReadFile Unmarshal depTreeOutput
                 = Panics NilDereference_getGraphFromDepTree →
                 ∃ modules,
                   parseDepTreeFiles ReadFile Unmarshal depTreeOutput = (modules, None) ∧
                   None ∈ modules).
  { intros Hrun.
    destruct (getGraphFromDepTree_outcome ReadFile Unmarshal depTreeOutput)
      as [[r Hr]|[_ Hin]]; [by rewrite Hr in Hrun|].
    destruct (parseDepTreeFiles ReadFile Unmarshal depTreeOutput) as [modules [e|]] eqn:Hparse.
    - unfold parseDepTreeFiles in Hparse.
      apply parseDepTreeFiles_range_error_nil in Hparse as ->.
      by apply elem_of_nil in Hin.
    - by exists modules. }
  split.
  - intros site. split.
    + intros Hrun.
      destruct (getGraphFromDepTree_outcome ReadFile Unmarshal depTreeOutput)
        as [[r Hr]|[Hp _]]; [by rewrite Hr in Hrun|].
      rewrite Hp in Hrun. injection Hrun as <-. split; [done|]. by apply Hnil.
    + intros [-> Hmodules]. by apply Hpanic.
  - split.
    + intros [r Hr] Hmodules. apply Hpanic in Hmodules. by rewrite Hr in Hmodules.
    + intros Hnone.
      destruct (getGraphFromDepTree_outcome ReadFile Unmarshal depTreeOutput)
        as [Hr|[Hp _]]; [done|]. destruct Hnone. by apply Hnil.
Qed.

(** ** White space and lines in the plugin output (javautils.go:227-248) *)

Lemma append_nil_l (s : string) : EmptyString +:+ s = s.
Proof. reflexivity. Qed.

Lemma append_cons (c : ascii) (s t : string) : String c s +:+ t = String c (s +:+ t).
Proof. reflexivity. Qed.

Lemma append_nil_r (s : string) : s +:+ EmptyString = s.
Proof. induction s as [|c s IH]; [done|]. by rewrite append_cons, IH. Qed.

Lemma append_assoc (a b c : string) : (a +:+ b) +:+ c = a +:+ (b +:+ c).
Proof. induction a as [|x a IH]; [done|]. by rewrite !append_cons, IH. Qed.

Lemma asciiSpace_low (w : ascii) (n : nat) :
  asciiSpace w = true → 128 ≤ n → isByte w n = false.
Proof.
  unfold asciiSpace, isByte. intros Hw Hn.
  apply Nat.eqb_neq. intros Heq. rewrite Heq in Hw.
  apply orb_true_iff in Hw as [[_ H13]%andb_true_iff|H32].
  - apply Nat.leb_le in H13. lia.
  - apply Nat.eqb_eq in H32. lia.
Qed.

Lemma asciiSpace_not_second (c w : ascii) : asciiSpace w = true → space2 c w = false.
Proof.
  intros Hw. unfold space2.
  rewrite !(asciiSpace_low w) by (done || lia). by rewrite andb_false_r.
Qed.

Lemma asciiSpace_not_third (c d w : ascii) : asciiSpace w = true → space3 c d w = false.
Proof.
  intros Hw. unfold space3.
  rewrite !(asciiSpace_low w) by (done || lia).
  assert (Nat.leb 128 (nat_of_ascii w) = false) as ->.
  { apply Nat.leb_gt. unfold asciiSpace in Hw.
    apply orb_true_iff in Hw as [[_ H13]%andb_true_iff|H32].
    - apply Nat.leb_le in H13. lia.
    - apply Nat.eqb_eq in H32. lia. }
  by rewrite !andb_false_r.
Qed.

Lemma TrimLeft_snoc (s : string) (w : ascii) :
  asciiSpace w = true →
  TrimLeft (s +:+ String w EmptyString)
  = match TrimLeft s with
    | EmptyString => EmptyString
    | trimmed => trimmed +:+ String w EmptyString
    end.
Proof.
  intros Hw. unfold TrimLeft. remember (String.length s) as n eqn:Hn. revert s Hn.
  induction n as [n IH] using lt_wf_ind. intros s Hn.
  destruct s as [|c r1]; rewrite ?append_nil_l, ?append_cons; [by simpl; rewrite Hw|].
  simpl in *.
  destruct (asciiSpace c) eqn:Hc; [apply (IH (String.length r1)); [lia|done]|].
  destruct r1 as [|d r2]; rewrite ?append_nil_l, ?append_cons; simpl in *.
  { by rewrite asciiSpace_not_second. }
  destruct (space2 c d) eqn:Hcd; [apply (IH (String.length r2)); [lia|done]|].
  destruct r2 as [|e r3]; rewrite ?append_nil_l, ?append_cons; simpl in *.
  { by rewrite asciiSpace_not_third. }
  destruct (space3 c d e) eqn:Hcde; [apply (IH (String.length r3)); [lia|done]|].
  done.
Qed.

Lemma rev_app_snoc (s acc : string) (w : ascii) :
  String.rev_app (s +:+ String w EmptyString) acc = String w (String.rev_app s acc).
Proof.
  revert acc. induction s as [|c s IH]; intros acc; [done|].
  rewrite append_cons. simpl. apply IH.
Qed.

Lemma TrimRight_snoc (s : string) (w : ascii) :
  asciiSpace w = true → TrimRight (s +:+ String w EmptyString) = TrimRight s.
Proof.
  intros Hw. unfold TrimRight, String.rev. rewrite rev_app_snoc. simpl. by rewrite Hw.
Qed.

Lemma TrimSpace_snoc (s : string) (w : ascii) :
  asciiSpace w = true → TrimSpace (s +:+ String w EmptyString) = TrimSpace s.
Proof.
  intros Hw. unfold TrimSpace. rewrite TrimLeft_snoc by done.
  destruct (TrimLeft s) as [|c r] eqn:Hs; [done|].
  by rewrite TrimRight_snoc.
Qed.

Lemma TrimSpace_cons (s : string) (w : ascii) :
  asciiSpace w = true → TrimSpace (String w s) = TrimSpace s.
Proof. intros Hw. unfold TrimSpace, TrimLeft. simpl. by rewrite Hw. Qed.

Lemma TrimSpace_asciiSpaces (lead s trail : string) :
  asciiSpaces lead = true → asciiSpaces trail = true →
  TrimSpace (lead +:+ s +:+ trail) = TrimSpace s.
Proof.
  intros Hlead Htrail.
  assert (Hright : ∀ t, TrimSpace (t +:+ trail) = TrimSpace t).
  { induction trail as [|w trail IH]; intros t.
    - by rewrite append_nil_r.
    - simpl in Htrail. apply andb_true_iff in Htrail as [Hw Htrail].
      replace (t +:+ String w trail) with ((t +:+ String w EmptyString) +:+ trail)
        by (by rewrite append_assoc).
      rewrite IH by done. by apply TrimSpace_snoc. }
  induction lead as [|w lead IH].
  - rewrite append_nil_l. apply Hright.
  - simpl in Hlead. apply andb_true_iff in Hlead as [Hw Hlead].
    rewrite append_cons, TrimSpace_cons by done. by apply IH.
Qed.

(** X16. White space of the ASCII table around the plugin output, or
    around a path in it, changes nothing: the same file is read, the same
    modules are parsed and the same graph is built. A final line feed and
    the carriage returns of CRLF line ends are cases of this. *)
Theorem X16_ascii_space_around_output_and_paths_is_ignored
    {error : Type} (ReadFile : string → string * option error)
    (Unmarshal : string → option moduleDepTree * option error)
    (lead text trail : string) :
  asciiSpaces lead = true →
  asciiSpaces trail = true →
  TrimSpace (lead +:+ text +:+ trail) = TrimSpace text ∧
  parseDepTreeFile ReadFile Unmarshal (lead +:+ text +:+ trail)
  = parseDepTreeFile ReadFile Unmarshal text ∧
  parseDepTreeFiles ReadFile Unmarshal (lead +:+ text +:+ trail)
  = parseDepTreeFiles ReadFile Unmarshal text ∧
  getGraphFromDepTree ReadFile Unmarshal (lead +:+ text +:+ trail)
  = getGraphFromDepTree ReadFile Unmarshal text.
Proof.
  intros Hlead Htrail.
  pose proof (TrimSpace_asciiSpaces lead text trail Hlead Htrail) as Htrim.
  assert (Hfiles : parseDepTreeFiles ReadFile Unmarshal (lead +:+ text +:+ trail)
                   = parseDepTreeFiles ReadFile Unmarshal text).
  { unfold parseDepTreeFiles. by rewrite Htrim. }
  split; [done|]. split; [|split; [done|]].
  - unfold parseDepTreeFile. by rewrite Htrim.
  - unfold getGraphFromDepTree. by rewrite Hfiles.
Qed.

Lemma X16_witness :
  parseDepTreeFiles (tableReadFile sampleFiles) (tableUnmarshal sampleDocuments)
    (String newline " " +:+ "single.json"
     +:+ String (ascii_of_nat 13) (String newline EmptyString))
  = parseDepTreeFiles (tableReadFile sampleFiles) (tableUnmarshal sampleDocuments)
      "single.json".
Proof.
  apply (X16_ascii_space_around_output_and_paths_is_ignored
           (tableReadFile sampleFiles) (tableUnmarshal sampleDocuments)
           (String newline " ") "single.json"
           (String (ascii_of_nat 13) (String newline EmptyString)));
    vm_compute; reflexivity.
Defined.

Lemma length_Split (s : string) (sep : ascii) : length (Split s sep) = S (countByte sep s).
Proof.
  induction s as [|c s IH]; simpl; [done|].
  case_bool_decide; simpl; [by rewrite IH|].
  destruct (Split s sep) as [|piece pieces]; simpl in *; lia.
Qed.

Lemma Split_pieces (s : string) (sep : ascii) :
  Forall (λ piece, countByte sep piece = 0) (Split s sep).
Proof.
  induction s as [|c s IH]; simpl; [by repeat constructor|].
  case_bool_decide as Hc; [by constructor|].
  destruct (Split s sep) as [|piece pieces]; simpl.
  - repeat constructor. simpl. by rewrite bool_decide_eq_false_2.
  - apply Forall_cons in IH as [Hpiece Hpieces]. constructor; [|done].
    simpl. by rewrite bool_decide_eq_false_2.
Qed.

Lemma Split_app (a b : string) (sep : ascii) :
  Split (a +:+ String sep b) sep = Split a sep ++ Split b sep.
Proof.
  induction a as [|c a IH]; rewrite ?append_nil_l, ?append_cons; simpl.
  - by rewrite bool_decide_eq_true_2.
  - rewrite IH. case_bool_decide; [done|].
    pose proof (Split_not_nil a sep). by destruct (Split a sep).
Qed.

Section Lines.

Context {error : Type}.
Variable ReadFile : string → string * option error.
Variable Unmarshal : string → option moduleDepTree * option error.

Lemma parseDepTreeFiles_range_fails (paths : list string) (path : string)
    (modules : list (option moduleDepTree)) :
  path ∈ paths →
  (parseDepTreeFile ReadFile Unmarshal path).2 ≠ None →
  ∃ e, parseDepTreeFiles_range ReadFile Unmarshal modules paths = ([], Some e).
Proof.
  revert modules. induction paths as [|p paths IH]; intros modules Hin Herr;
    [by apply elem_of_nil in Hin|].
  simpl. destruct (parseDepTreeFile ReadFile Unmarshal p) as [results [e|]] eqn:Hp;
    [by exists e|].
  apply elem_of_cons in Hin as [->|Hin]; [by rewrite Hp in Herr|].
  by apply IH.
Qed.

End Lines.

(** X17. The trimmed plugin output is cut at every line feed and every
    piece is read as a path: a successful parse has one module more than
    the trimmed output has line feeds, and no path holds a line feed. An
    empty line inside the output is not skipped: it is read as the empty
    path, and when that read fails, the whole parse fails. *)
Theorem X17_every_line_is_a_path
    {error : Type} (ReadFile : string → string * option error)
    (Unmarshal : string → option moduleDepTree * option error)
    (jsonFilePaths : string) :
  (∀ modules,
     parseDepTreeFiles ReadFile Unmarshal jsonFilePaths = (modules, None) →
     length modules = S (countByte newline (TrimSpace jsonFilePaths))) ∧
  Forall (λ path, countByte newline path = 0) (Split (TrimSpace jsonFilePaths) newline) ∧
  (∀ before after,
     TrimSpace jsonFilePaths = before +:+ String newline (String newline after) →
     EmptyString ∈ Split (TrimSpace jsonFilePaths) newline ∧
     ((ReadFile EmptyString).2 ≠ None →
      ∃ e, parseDepTreeFiles ReadFile Unmarshal jsonFilePaths = ([], Some e) ∧
           getGraphFromDepTree ReadFile Unmarshal jsonFilePaths
           = Returns ([], [], Some e))).
Proof.
  split; [|split; [apply Split_pieces|]].
  - intros modules Hparse. unfold parseDepTreeFiles in Hparse.
    apply parseDepTreeFiles_range_ok in Hparse as (decoded & -> & Hall).
    apply Forall2_length in Hall. simpl. by rewrite <- Hall, length_Split.
  - intros before after Htrim.
    assert (Hempty : EmptyString ∈ Split (TrimSpace jsonFilePaths) newline).
    { rewrite Htrim, Split_app. apply elem_of_app. right. simpl.
      rewrite ?bool_decide_eq_true_2 by done. by left. }
    split; [done|]. intros Hread.
    destruct (parseDepTreeFiles_range_fails ReadFile Unmarshal _ _ [] Hempty) as [e He].
    { unfold parseDepTreeFile.
      change (TrimSpace EmptyString) with EmptyString.
      by destruct (ReadFile EmptyString) as [json [e|]]. }
    exists e. split; [done|]. by eapply getGraphFromDepTree_parse_error.
Qed.

(** ** Which ids the plugin graph holds *)

Lemma tc_last {A : Type} (R : relation A) (x z : A) :
  tc R x z ↔ ∃ y, rtc R x y ∧ R y z.
Proof.
  split.
  - induction 1 as [x z Hxz|x y z Hxy _ (w & Hyw & Hwz)].
    + exists x. by split.
    + exists w. split; [by eapply rtc_l|done].
  - intros (y & Hxy & Hyz). eapply tc_rtc_l; [exact Hxy|by apply tc_once].
Qed.

Lemma populateDependencyTree_grows (moduleTree : moduleDepTree) (fuel : nat)
    (currNode : GraphNode) (currNodeId : string) (uniqueDepsSet : gset string)
    (currNode' : GraphNode) (uniqueDepsSet' : gset string) :
  populateDependencyTree fuel currNode currNodeId moduleTree uniqueDepsSet
  = Returns (currNode', uniqueDepsSet') →
  uniqueDepsSet ⊆ uniqueDepsSet' ∧
  GraphNode_Id currNode' = GraphNode_Id currNode ∧
  GraphNode_Parent currNode' = GraphNode_Parent currNode.
Proof.
  intros (nodes & -> & -> & _)%populateDependencyTree_effect. split; [set_solver|done].
Qed.

(** What is below a node that is not among its own ancestors: the
    children of every node reached from it on a path that avoids the
    ancestors and visits no id twice. *)
Lemma populateDependencyTree_reach_complete (moduleTree : moduleDepTree)
    (path : list string) (d e : string) :
  reachesAvoiding (childEdge moduleTree) path d e →
  ∀ fuel currNode uniqueDepsSet currNode' uniqueDepsSet',
    populateDependencyTree fuel currNode d moduleTree uniqueDepsSet
    = Returns (currNode', uniqueDepsSet') →
    GraphNode_Id currNode = GavPackageTypeIdentifier +:+ d →
    (∀ x, GavPackageTypeIdentifier +:+ x ∈ ancestorIds (GraphNode_Parent currNode) →
          x ∈ path) →
    ∀ c, c ∈ childrenOf moduleTree e → GavPackageTypeIdentifier +:+ c ∈ uniqueDepsSet'.
Proof.
  induction 1 as [path d Hd|path d c0 e Hd Hedge _ IH];
    intros fuel curr uniq curr' uniq' Hrun Hid Hanc c Hc.
  all: destruct fuel as [|fuel]; [done|].
  all: cbn [populateDependencyTree] in Hrun.
  all: assert (Hloop : NodeHasLoop curr = false)
         by (apply not_true_iff_false; rewrite NodeHasLoop_spec, Hid;
             intros Hin; by apply Hd, Hanc).
  all: rewrite Hloop in Hrun.
  all: pose proof (λ Hrefl Htrans Hstep x Hx,
                     forRange_returns_elem
                       (λ acc acc' : GraphNode * gset string,
                          acc.2 ⊆ acc'.2 ∧
                          GraphNode_Id acc'.1 = GraphNode_Id acc.1 ∧
                          GraphNode_Parent acc'.1 = GraphNode_Parent acc.1)
                       _ _ _ _ x Hrefl Htrans Hstep Hrun Hx) as Helem.
  all: specialize (Helem ltac:(by intros [? ?])).
  all: specialize (Helem ltac:(intros [? ?] [? ?] [? ?]; simpl;
                               intros (? & -> & ->) (? & -> & ->); set_solver)).
  all: specialize (Helem ltac:(
         intros [n u] y [n' u'] Hbody; simpl in *;
         destruct (populateDependencyTree fuel _ y moduleTree _)
           as [[child' u2]| |] eqn:Hchild; simpl in Hbody; try done;
         injection Hbody as <- <-;
         apply populateDependencyTree_grows in Hchild as (Hsub & _);
         split; [set_solver|done])).
  - destruct (Helem c Hc) as ([n1 u1] & [n2 u2] & _ & Hbody & Hsub & _). simpl in *.
    destruct (populateDependencyTree fuel _ c moduleTree _) as [[child' u3]| |] eqn:Hchild;
      simpl in Hbody; try done.
    injection Hbody as <- <-.
    apply populateDependencyTree_grows in Hchild as (Hgrow & _). set_solver.
  - destruct (Helem c0 Hedge) as ([n1 u1] & [n2 u2] & (_ & Hid1 & Hparent1) & Hbody & Hsub & _).
    simpl in *.
    destruct (populateDependencyTree fuel _ c0 moduleTree _) as [[child' u3]| |] eqn:Hchild;
      simpl in Hbody; try done.
    injection Hbody as <- <-. apply Hsub.
    eapply (IH _ _ _ _ _ Hchild); [done| |done].
    intros x. cbn [GraphNode_Parent ancestorIds]. unfold refTo. cbn [refIds].
    rewrite Hid1, Hparent1, Hid. intros [Heq|Hx]%elem_of_cons.
    + apply gav_prefix_inj in Heq as ->. set_solver.
    + apply elem_of_app. left. apply Hanc. by destruct (GraphNode_Parent curr).
Qed.

Lemma unfoldDepTree_reach_sound (moduleTree : moduleDepTree) (depth : nat) :
  ∀ parent d id,
    id ∈ forestIds (GraphNode_Nodes (unfoldDepTree depth moduleTree parent d)) →
    ∃ c, tc (childEdge moduleTree) d c ∧ id = GavPackageTypeIdentifier +:+ c.
Proof.
  induction depth as [|depth IH]; intros parent d id; cbn [unfoldDepTree GraphNode_Nodes].
  { unfold forestIds. simpl. set_solver. }
  case_bool_decide; [unfold forestIds; simpl; set_solver|].
  intros (tree & Htree & Hid)%elem_of_forestIds.
  apply list_elem_of_fmap in Htree as (c0 & -> & Hc0).
  rewrite graphIds_unfold in Hid. apply elem_of_union in Hid as [Hid|Hid].
  - apply elem_of_singleton in Hid as ->. rewrite unfoldDepTree_node. simpl.
    exists c0. split; [by apply tc_once|done].
  - destruct (IH _ _ _ Hid) as (c & Hc & ->). exists c. split; [|done].
    by eapply tc_l.
Qed.

(** The ids below the root of the tree of a module: the listed children
    of everything reached from the root. *)
Lemma unfoldDepTree_below_root (moduleTree : moduleDepTree) (id : string) :
  id ∈ forestIds (GraphNode_Nodes
                    (unfoldDepTree (depTreeFuel moduleTree) moduleTree None
                       (moduleDepTree_Root moduleTree))) ↔
  ∃ c, tc (childEdge moduleTree) (moduleDepTree_Root moduleTree) c ∧
       id = GavPackageTypeIdentifier +:+ c.
Proof.
  split; [apply unfoldDepTree_reach_sound|].
  intros (c & (e & Hreach & Hedge)%tc_last & ->).
  apply reachesAvoiding_nil_rtc in Hreach.
  destruct (populateDependencyTree_root moduleTree ∅) as [uniq' Hrun].
  pose proof (populateDependencyTree_reach_complete _ _ _ _ Hreach _ _ _ _ _ Hrun) as Hin.
  apply populateDependencyTree_effect in Hrun as (nodes & Htree & -> & _).
  cbn [GraphNode_Id GraphNode_Nodes GraphNode_Parent app] in Htree.
  rewrite Htree. cbn [GraphNode_Nodes].
  specialize (Hin eq_refl). simpl in Hin.
  specialize (Hin ltac:(by intros x ?%elem_of_nil) c Hedge). set_solver.
Qed.

(** X18. The unique ids of [getGraphFromDepTree], read off the module
    trees alone: prefixed, every id that is reached from the root of one of
    the modules along at least one edge of the children lists. The root of a
    module is among them only when such a walk leads back to it, or to it
    from the root of another module. *)
Theorem X18_plugin_unique_ids_are_the_reachable_ids
    {error : Type} (ReadFile : string → string * option error)
    (Unmarshal : string → option moduleDepTree * option error)
    (depTreeOutput : string) (depsGraph : list GraphNode) (uniqueDeps : list string) :
  getGraphFromDepTree ReadFile Unmarshal depTreeOutput
  = Returns (depsGraph, uniqueDeps, None) →
  ∃ modules,
    parseDepTreeFiles ReadFile Unmarshal depTreeOutput = (Some <$> modules, None) ∧
    ∀ id, id ∈ uniqueDeps ↔
          ∃ moduleTree c,
            moduleTree ∈ modules ∧
            tc (childEdge moduleTree) (moduleDepTree_Root moduleTree) c ∧
            id = GavPackageTypeIdentifier +:+ c.
Proof.
  intros Hrun.
  destruct (getGraphFromDepTree_effect _ _ _ _ _ Hrun) as (modules & Hparse & _ & Hset & _).
  exists modules. split; [done|].
  destruct (getGraphFromDepTree_unfold ReadFile Unmarshal _ _ Hparse) as [uniqueDeps' Hrun'].
  rewrite Hrun in Hrun'. injection Hrun' as -> _.
  intros id. rewrite <- (elem_of_list_to_set (C := gset string)), Hset.
  unfold belowRoots. rewrite elem_of_union_list. split.
  - intros (ids & Hids & Hid).
    apply list_elem_of_fmap in Hids as (tree & -> & Htree).
    apply list_elem_of_fmap in Htree as (t & -> & Ht).
    apply unfoldDepTree_below_root in Hid as (c & Hc & ->). by exists t, c.
  - intros (t & c & Ht & Hc & ->).
    exists (forestIds (GraphNode_Nodes
                         (unfoldDepTree (depTreeFuel t) t None (moduleDepTree_Root t)))).
    split.
    + apply list_elem_of_fmap.
      exists (unfoldDepTree (depTreeFuel t) t None (moduleDepTree_Root t)).
      split; [done|]. apply list_elem_of_fmap. by exists t.
    + apply unfoldDepTree_below_root. by exists c.
Qed.

Lemma X18_witness :
  ∃ depsGraph uniqueDeps modules,
    getGraphFromDepTree (tableReadFile sampleFiles) (tableUnmarshal sampleDocuments)
      "cyclic.json" = Returns (depsGraph, uniqueDeps, None) ∧
    parseDepTreeFiles (tableReadFile sampleFiles) (tableUnmarshal sampleDocuments)
      "cyclic.json" = (Some <$> modules, None) ∧
    ∀ id, id ∈ uniqueDeps ↔
          ∃ moduleTree c,
            moduleTree ∈ modules ∧
            tc (childEdge moduleTree) (moduleDepTree_Root moduleTree) c ∧
            id = GavPackageTypeIdentifier +:+ c.
Proof.
  destruct (returned_inv
              (getGraphFromDepTree (tableReadFile sampleFiles)
                 (tableUnmarshal sampleDocuments) "cyclic.json"))
    as [[[depsGraph uniqueDeps] err] Hrun]; [vm_compute; reflexivity|].
  assert (Herr : err = None).
  { destruct err as [e|]; [|reflexivity]. vm_compute in Hrun. discriminate Hrun. }
  subst err.
  destruct (X18_plugin_unique_ids_are_the_reachable_ids _ _ _ _ _ Hrun)
    as (modules & Hparse & Hids).
  exists depsGraph, uniqueDeps, modules. split; [exact Hrun|].
  split; [exact Hparse|exact Hids].
Defined.
